(** * A shallow embedding of the brainfuck interpreter of [brainfuck.c]

    The C program interprets a script over a tape of [MAX_BRAINFUCK] bytes.
    [do_brainfuck_block] scans a range of the script from left to right and
    calls itself on loop bodies; [do_brainfuck] sets up the zeroed tape, the
    pointer and the standard I/O hooks; [main] runs the script in the file
    that its one argument names.

    Modelling choices, all read off the source:
    - a tape cell ([typedef char byte]) is the 8-bit pattern it holds, a [Z]
      in [0, 256); [++]/[--] and the cast [(byte)] wrap modulo 256; whether
      [char] is signed only shows when a cell is promoted to [int] for the
      output hook, and is a parameter ([char_signed]);
    - "the pointer" is its offset from [mem], a [Z] that [>] and [<] move by
      one without any check; a cell access through a pointer outside the
      array is undefined behaviour in C and yields the outcome [Undefined];
    - [size_t] is 64 bits wide, its wrap-around written out ([size_wrap]),
      and so is [long];
    - the hooks act on an abstract world [W]; [getchar]/[putchar] act on a
      pair of byte streams;
    - [main] is given the argument vector and a host: what [fopen],
      [ftell], [fread] and [malloc] yield, failures included; the source
      goes on after a failed [fopen] and checks none of the other three;
    - what is printed on [stderr] is not modelled; the message for an
      illegal character prints it as an [int], where the signedness of
      [char] shows as well;
    - the [while] loop of a bracket pair need not terminate, so the
      interpreter takes fuel: one unit per iteration of either [while] and
      per recursive call. *)

From Stdlib Require Import ZArith Ascii String Lia.
From stdpp Require Import base list strings.

Local Open Scope Z_scope.

(** ** Bytes and sizes *)

(** [#define MAX_BRAINFUCK 30000] *)
Definition MAX_BRAINFUCK : Z := 30000.

(** Conversion of an [int] to [byte], also the wrap-around of [++] and [--]
    on a cell. *)
Definition to_byte (v : Z) : Z := v mod 256.

(** Integer promotion of a [byte] (a [char]) to [int]. *)
Definition byte_to_int (char_signed : bool) (b : Z) : Z :=
  if char_signed && (128 <=? b) then b - 256 else b.

(** Arithmetic on [size_t]. *)
Definition SIZE_MAX : Z := 2 ^ 64 - 1.
Definition size_wrap (z : Z) : Z := z mod (SIZE_MAX + 1).

(** A script given as a string literal. *)
Definition script (s : string) : list ascii := list_ascii_of_string s.

(** ** The store and the context *)

(** The array [mem] of [do_brainfuck], "the pointer" (as an offset into
    [mem]) and whatever the hooks act on. *)
Record store (W : Type) : Type := Store {
  mem : list Z;
  the_pointer : Z;
  world : W
}.
Arguments Store {W} _ _ _.
Arguments mem {W} _.
Arguments the_pointer {W} _.
Arguments world {W} _.

(** [struct brainfuck_t], without [the_pointer], which lives in the store.
    The [int] returned by [output] is dropped, as the engine drops it. *)
Record brainfuck_t (W : Type) : Type := Brainfuck {
  output : Z → W → W;
  input : W → Z * W
}.
Arguments output {W} _ _ _.
Arguments input {W} _ _.

(** What a call of [do_brainfuck_block] does: it returns a status and leaves
    a store, or it dereferences the pointer outside [mem], or the model runs
    out of fuel. *)
Inductive outcome (W : Type) : Type :=
| Returned (ret : Z) (st : store W)
| Undefined
| OutOfFuel.
Arguments Returned {W} _ _.
Arguments Undefined {W}.
Arguments OutOfFuel {W}.

(** How the [while] of a loop (line 190) ends: the test fails and the scan
    goes on, or the function is left. *)
Inductive loop_exit (W : Type) : Type :=
| Exit (st : store W)
| Abort (o : outcome W).
Arguments Exit {W} _.
Arguments Abort {W} _.

(** The characters the [switch] tells apart. *)
Inductive token : Type :=
| TRight | TLeft | TPlus | TMinus | TDot | TComma | TOpen | TClose
| TBlank | TIllegal.

Definition classify (cur : ascii) : token :=
  if (cur =? ">")%char then TRight
  else if (cur =? "<")%char then TLeft
  else if (cur =? "+")%char then TPlus
  else if (cur =? "-")%char then TMinus
  else if (cur =? ".")%char then TDot
  else if (cur =? ",")%char then TComma
  else if (cur =? "[")%char then TOpen
  else if (cur =? "]")%char then TClose
  else if (cur =? "013")%char || (cur =? "010")%char || (cur =? " ")%char
          || (cur =? "009")%char || (cur =? "011")%char || (cur =? "012")%char
       then TBlank
  else TIllegal.

(** ** Cell accesses *)

Section Cells.
Context {W : Type}.

(** Reading the current cell. *)
Definition load (st : store W) : option Z :=
  if the_pointer st <? 0 then None
  else mem st !! Z.to_nat (the_pointer st).

(** The store with [v] in the current cell. *)
Definition set_cell (v : Z) (st : store W) : store W :=
  Store (<[Z.to_nat (the_pointer st) := v]> (mem st))
        (the_pointer st) (world st).

(** Writing [v] to the current cell. *)
Definition store_cell (v : Z) (st : store W) : option (store W) :=
  match load st with
  | None => None
  | Some _ => Some (set_cell v st)
  end.

(** The store with the world [w]. *)
Definition set_world (w : W) (st : store W) : store W :=
  Store (mem st) (the_pointer st) w.

(** Moving the pointer by [d] cells (lines 135 and 138). *)
Definition move (d : Z) (st : store W) : store W :=
  Store (mem st) (the_pointer st + d) (world st).
End Cells.

(** ** The matching scan (lines 156-180)

    [rest] is the range from [loop_end] to [end]; the result is the pair of
    [open_cnt] and [loop_end] (an index into the block) when the [while]
    is left. *)
Fixpoint find_loop_end (rest : list ascii) (open_cnt : Z) (loop_end : nat)
  : Z * nat :=
  match rest with
  | [] => (open_cnt, loop_end)
  | c :: rest' =>
      let open_cnt' :=
        match classify c with
        | TOpen => size_wrap (open_cnt + 1)
        | TClose => size_wrap (open_cnt - 1)
        | _ => open_cnt
        end in
      if open_cnt' =? 0 then (open_cnt', loop_end)
      else find_loop_end rest' open_cnt' (S loop_end)
  end.

(** The scan started for the ['['] at index [cnt]: [loop_len], or [None]
    when [open_cnt != 0] at the end. *)
Definition loop_span (code : list ascii) (cnt : nat) : option nat :=
  let '(open_cnt, loop_end) := find_loop_end (drop (S cnt) code) 1 (S cnt) in
  if open_cnt =? 0 then Some (loop_end - cnt)%nat else None.

(** The characters of [loop_begin + 1 .. loop_begin + loop_len - 1]. *)
Definition loop_body (code : list ascii) (cnt loop_len : nat) : list ascii :=
  take (loop_len - 1)%nat (drop (S cnt) code).

(** ** The engine *)

Section Engine.
Context {W : Type}.
Variable char_signed : bool.
Variable brainfuck : brainfuck_t W.

(** The six instructions that touch the store; [None] is an access
    outside [mem]. *)
Definition simple_instr (t : token) (st : store W) : option (store W) :=
  match t with
  | TRight => Some (move 1 st)
  | TLeft => Some (move (-1) st)
  | TPlus => v ← load st; store_cell (to_byte (v + 1)) st
  | TMinus => v ← load st; store_cell (to_byte (v - 1)) st
  | TDot =>
      v ← load st;
      Some (set_world (output brainfuck (byte_to_int char_signed v) (world st))
                      st)
  | TComma =>
      let '(c, w) := input brainfuck (world st) in
      store_cell (to_byte c) (set_world w st)
  | _ => Some st
  end.

Section Block.
(** The recursive call of line 192. *)
Variable exec : list ascii → store W → outcome W.

(** Lines 190-194. *)
Fixpoint run_loop (fuel : nat) (body : list ascii) (st : store W)
  : loop_exit W :=
  match fuel with
  | O => Abort OutOfFuel
  | S fuel' =>
      match load st with
      | None => Abort Undefined
      | Some v =>
          if v =? 0 then Exit st
          else
            match exec body st with
            | Returned ret st' =>
                if ret =? 0 then run_loop fuel' body st'
                else Abort (Returned ret st')
            | o => Abort o
            end
      end
  end.

(** Lines 126-225: the [while (cnt < n)] with its [switch]. *)
Fixpoint scan (fuel : nat) (code : list ascii) (cnt : nat) (st : store W)
  : outcome W :=
  match fuel with
  | O => OutOfFuel
  | S fuel' =>
      match code !! cnt with
      | None => Returned 0 st
      | Some cur =>
          match classify cur with
          | TOpen =>
              match loop_span code cnt with
              | None => Returned (-2) st
              | Some loop_len =>
                  match run_loop fuel' (loop_body code cnt loop_len) st with
                  | Exit st' => scan fuel' code (cnt + (loop_len + 1)) st'
                  | Abort o => o
                  end
              end
          | TClose => Returned (-3) st
          | TIllegal => Returned (-4) st
          | t =>
              match simple_instr t st with
              | None => Undefined
              | Some st' => scan fuel' code (S cnt) st'
              end
          end
      end
  end.
End Block.

Fixpoint do_brainfuck_block (fuel : nat) (code : list ascii) (st : store W)
  : outcome W :=
  match fuel with
  | O => OutOfFuel
  | S fuel' => scan (do_brainfuck_block fuel') fuel' code 0 st
  end.

(** The scan of a block from index [cnt] on, the recursive calls being the
    engine itself. *)
Definition scan_from (fuel : nat) (code : list ascii) (cnt : nat)
  (st : store W) : outcome W :=
  scan (do_brainfuck_block fuel) fuel code cnt st.

(** The [while] of a loop, the recursive calls being the engine itself. *)
Definition loop_from (fuel : nat) (body : list ascii) (st : store W)
  : loop_exit W :=
  run_loop (do_brainfuck_block fuel) fuel body st.
End Engine.

(** ** The default hooks and [do_brainfuck] *)

(** Standard input, a stream of bytes, and what was written to standard
    output. *)
Record stdio : Type := Stdio {
  stdin : list Z;
  stdout : list Z
}.

Definition EOF : Z := -1.

Definition getchar (w : stdio) : Z * stdio :=
  match stdin w with
  | [] => (EOF, w)
  | b :: bs => (b, Stdio bs (stdout w))
  end.

(** [putchar] writes its argument converted to [unsigned char]. *)
Definition putchar (c : Z) (w : stdio) : stdio :=
  Stdio (stdin w) (stdout w ++ [c mod 256]).

Definition std_hooks : brainfuck_t stdio := Brainfuck stdio putchar getchar.

(** [mem] after the [memset], the pointer at [mem]. *)
Definition init_store {W : Type} (w : W) : store W :=
  Store (replicate (Z.to_nat MAX_BRAINFUCK) 0) 0 w.

(** [do_brainfuck code n]; reading [n] characters from a shorter buffer is
    outside the contract of the function and undefined. *)
Definition do_brainfuck (char_signed : bool) (fuel : nat) (code : list ascii)
  (n : nat) (w : stdio) : outcome stdio :=
  if (length code <? n)%nat then Undefined
  else do_brainfuck_block char_signed std_hooks fuel (take n code)
         (init_store w).

(** A run of [do_brainfuck] ends with [o]. *)
Definition do_brainfuck_gives (char_signed : bool) (code : list ascii)
  (n : nat) (w : stdio) (o : outcome stdio) : Prop :=
  o ≠ OutOfFuel ∧ ∃ fuel, do_brainfuck char_signed fuel code n w = o.

(** The status and the output of a run. *)
Definition status {W : Type} (o : outcome W) : option Z :=
  match o with Returned ret _ => Some ret | _ => None end.

Definition written (o : outcome stdio) : option (list Z) :=
  match o with Returned _ st => Some (stdout (world st)) | _ => None end.

(** The first [k] cells and the pointer a run leaves. *)
Definition window {W : Type} (k : nat) (o : outcome W)
  : option (list Z * Z) :=
  match o with
  | Returned _ st => Some (take k (mem st), the_pointer st)
  | _ => None
  end.

Arguments simple_instr : simpl never.
Arguments init_store : simpl never.
Arguments do_brainfuck_block : simpl never.
Arguments loop_span : simpl never.
Arguments loop_body : simpl never.

(** * Statements about runs

    A run of the engine either ends, with an outcome other than
    [OutOfFuel] that no further fuel changes, or never does. The
    definitions below speak of the runs that end. *)

(** The tokens whose [case] ends in [break] and goes on to [++cnt]: the six
    instructions on the store and the whitespace. *)
Definition is_simple (t : token) : bool :=
  match t with
  | TOpen | TClose | TIllegal => false
  | _ => true
  end.

Section Outcomes.
Context {W : Type}.
Variable char_signed : bool.
Variable brainfuck : brainfuck_t W.

Local Abbreviation block := (do_brainfuck_block char_signed brainfuck).
Local Abbreviation scan_at := (scan_from char_signed brainfuck).
Local Abbreviation loop_at := (loop_from char_signed brainfuck).

(** A call of the engine on [code] in [st] ends with [o]. *)
Definition block_gives (code : list ascii) (st : store W) (o : outcome W)
  : Prop :=
  o ≠ OutOfFuel ∧ ∃ fuel, block fuel code st = o.

(** The scan of [code] continued at index [cnt] in [st] ends with [o]. *)
Definition scan_gives (code : list ascii) (cnt : nat) (st : store W)
  (o : outcome W) : Prop :=
  o ≠ OutOfFuel ∧ ∃ fuel, scan_at fuel code cnt st = o.

(** The [while] of a loop with body [body] entered in [st] ends with [r]. *)
Definition loop_gives (body : list ascii) (st : store W) (r : loop_exit W)
  : Prop :=
  r ≠ Abort OutOfFuel ∧ ∃ fuel, loop_at fuel body st = r.

(** [exec'] agrees with [exec] wherever [exec] has enough fuel. *)
Definition exec_le (exec exec' : list ascii → store W → outcome W) : Prop :=
  ∀ code st, exec code st ≠ OutOfFuel → exec' code st = exec code st.

(** What the scan does with a matched loop, given how its [while] ends. *)
Definition after_loop (code : list ascii) (cnt loop_len : nat)
  (r : loop_exit W) (o : outcome W) : Prop :=
  match r with
  | Exit st' => scan_gives code (cnt + (loop_len + 1)) st' o
  | Abort o' => o = o'
  end.

(** [iterations body k st st']: entered in [st], the [while] of a loop with
    body [body] makes [k] iterations that leave [st']; each one finds the
    current cell non-zero and runs the body, which returns 0, on the store
    the iteration before has left. *)
Inductive iterations (body : list ascii)
  : nat → store W → store W → Prop :=
| iterations_O st : iterations body 0 st st
| iterations_S k st v st1 st' :
    load st = Some v → v ≠ 0 →
    block_gives body st (Returned 0 st1) →
    iterations body k st1 st' →
    iterations body (S k) st st'.


(** [reaches code st0 cnt st]: the scan of the block [code], called in
    [st0], comes to index [cnt] with the store [st]. *)
Inductive reaches (code : list ascii) (st0 : store W)
  : nat → store W → Prop :=
| reaches_start : reaches code st0 0 st0
| reaches_simple cnt st cur st' :
    reaches code st0 cnt st →
    code !! cnt = Some cur → is_simple (classify cur) = true →
    simple_instr char_signed brainfuck (classify cur) st = Some st' →
    reaches code st0 (S cnt) st'
| reaches_loop cnt st len k st' :
    reaches code st0 cnt st →
    code !! cnt = Some "["%char → loop_span code cnt = Some len →
    iterations (loop_body code cnt len) k st st' → load st' = Some 0 →
    reaches code st0 (cnt + (len + 1)) st'.

(** [calls outer st0 inner st]: the call of the engine on [outer] in [st0]
    is, or leads through nested loops to, a call on [inner] in [st]. *)
Inductive calls : list ascii → store W → list ascii → store W → Prop :=
| calls_here code st : calls code st code st
| calls_body code st0 cnt st len k st1 v inner st2 :
    reaches code st0 cnt st →
    code !! cnt = Some "["%char → loop_span code cnt = Some len →
    iterations (loop_body code cnt len) k st st1 →
    load st1 = Some v → v ≠ 0 →
    calls (loop_body code cnt len) st1 inner st2 →
    calls code st0 inner st2.

End Outcomes.

(** ** The nesting depth, as the specification words it

    The depth counter starts at 1 behind a ['['], goes up on each further
    ['['] and down on each [']']; it lives in the integers, not in
    [size_t]. *)

Definition bracket_delta (c : ascii) : Z :=
  if (c =? "[")%char then 1 else if (c =? "]")%char then -1 else 0.

Definition depth_from (d : Z) (cs : list ascii) : Z :=
  fold_left (λ d c, d + bracket_delta c) cs d.

(** The depth once the characters at the positions [i+1 .. j] are read. *)
Definition depth_at (code : list ascii) (i j : nat) : Z :=
  depth_from 1 (take (j - i) (drop (S i) code)).

(** [i + len] is the first position behind [i] where the depth is 0. *)
Definition first_closing (code : list ascii) (i len : nat) : Prop :=
  (0 < len)%nat ∧ (i + len < length code)%nat ∧
  depth_at code i (i + len) = 0 ∧
  ∀ j, (i < j < i + len)%nat → depth_at code i j ≠ 0.

(** The depth is 0 nowhere behind [i] in the block. *)
Definition never_closed (code : list ascii) (i : nat) : Prop :=
  ∀ j, (i < j < length code)%nat → depth_at code i j ≠ 0.

(** The depth of the prefix of [k] characters of a block, counted from 0. *)
Definition prefix_depth (code : list ascii) (k : nat) : Z :=
  depth_from 0 (take k code).

(** Every [']'] of the block closes a ['['] of the block, and every ['[']
    is closed. *)
Definition balanced (code : list ascii) : Prop :=
  prefix_depth code (length code) = 0 ∧ ∀ k, 0 ≤ prefix_depth code k.

(** The step of the depth at index [k]. *)
Definition delta_at (code : list ascii) (k : nat) : Z :=
  match code !! k with Some c => bracket_delta c | None => 0 end.

(** The statuses a balanced block can return. *)
Definition status_of_balanced (ret : Z) : Prop := ret = 0 ∨ ret = -4.

(** ** The character sets of the specification *)

Definition instruction_chars : list ascii := script "><+-.,[]".

(** Space, tab, carriage return, line feed, vertical tab, form feed. *)
Definition whitespace_chars : list ascii :=
  [" "; "009"; "013"; "010"; "011"; "012"]%char.

(** ** Pointer moves and statuses *)

(** The net displacement of the pointer by the [>] and [<] of a block. *)
Definition move_delta (c : ascii) : Z :=
  if (c =? ">")%char then 1 else if (c =? "<")%char then -1 else 0.

Definition net_moves (code : list ascii) : Z :=
  foldr (λ c z, move_delta c + z) 0 code.

(** The statuses the engine returns. *)
Definition status_known (ret : Z) : Prop :=
  ret = 0 ∨ ret = -2 ∨ ret = -3 ∨ ret = -4.

(** ** The current cell and the emit hook *)

(** [st'] is [st] with [v] in the current cell: the tape of [st] with [v]
    at the pointer, which reads back as [v]; the pointer and the world
    are those of [st]. *)
Definition cell_becomes {W : Type} (v : Z) (st st' : store W) : Prop :=
  mem st' = <[Z.to_nat (the_pointer st) := v]> (mem st) ∧
  load st' = Some v ∧
  the_pointer st' = the_pointer st ∧
  world st' = world st.

(** Hooks on the standard streams whose emit hook notes the [int] it is
    called with as it is; the read hook is [getchar]. *)
Definition noting_hooks : brainfuck_t stdio :=
  Brainfuck stdio (λ c w, Stdio (stdin w) (stdout w ++ [c])) getchar.

(** * Further statements about runs *)

(** ** Blocks over a set of tokens, and what a run keeps *)

(** Every character of the block is of a token in [allowed]. *)
Definition uses_only (allowed : token → Prop) (code : list ascii) : Prop :=
  Forall (λ c, allowed (classify c)) code.

(** The store an outcome carries satisfies [I]; with [safe], the outcome is
    moreover not an access outside [mem]. *)
Definition outcome_sat {W : Type} (safe : bool) (I : store W → Prop)
  (o : outcome W) : Prop :=
  match o with
  | Returned _ st => I st
  | Undefined => safe = false
  | OutOfFuel => True
  end.

(** The instructions of a block without brackets, one after the other;
    [None] is an access outside [mem]. *)
Fixpoint straight {W : Type} (char_signed : bool) (brainfuck : brainfuck_t W)
  (code : list ascii) (st : store W) : option (store W) :=
  match code with
  | [] => Some st
  | c :: code' =>
      match simple_instr char_signed brainfuck (classify c) st with
      | Some st' => straight char_signed brainfuck code' st'
      | None => None
      end
  end.

(** All cells hold a byte. *)
Definition bytes_ok {W : Type} (st : store W) : Prop :=
  Forall (λ v, 0 ≤ v < 256) (mem st).

(** The pointer is inside [mem]. *)
Definition in_range {W : Type} (st : store W) : Prop :=
  0 ≤ the_pointer st < Z.of_nat (length (mem st)).

(** The outcome of a block that ends without a [return]. *)
Definition finished {W : Type} (r : option (store W)) : outcome W :=
  match r with
  | Some st => Returned 0 st
  | None => Undefined
  end.

(** What a run of the prefix [pre] of a block, continued at [cnt] in [st]
    and ended with [o1], says about the run of the whole block [code]:
    having come to the end of [pre] in [s], the whole goes on from there;
    a status other than 0 and -2, and an undefined access, are those of
    the whole. *)
Definition prefix_outcome {W : Type} (char_signed : bool)
  (brainfuck : brainfuck_t W) (code : list ascii) (n cnt : nat)
  (st : store W) (o1 : outcome W) : Prop :=
  match o1 with
  | Returned r s =>
      if r =? 0
      then ∀ o, scan_gives char_signed brainfuck code cnt st o
                ↔ scan_gives char_signed brainfuck code n s o
      else r ≠ -2 → scan_gives char_signed brainfuck code cnt st o1
  | Undefined => scan_gives char_signed brainfuck code cnt st Undefined
  | OutOfFuel => True
  end.

(** A check of [balanced]: started at depth [d], the depth never falls
    below 0 and ends at 0. *)
Fixpoint depth_ok (d : Z) (code : list ascii) : bool :=
  match code with
  | [] => d =? 0
  | c :: code' =>
      (0 <=? d + bracket_delta c) && depth_ok (d + bracket_delta c) code'
  end.

(** A loop around [body], in front of [rest]. *)
Definition loop_of (body rest : list ascii) : list ascii :=
  "["%char :: body ++ "]"%char :: rest.

(** ** The entry point *)

(** What a call of [main] does: it returns a status, having left the
    standard streams as [w]; or its behaviour is undefined; or the model
    runs out of fuel. *)
Inductive exit_outcome : Type :=
| Exited (ret : Z) (w : stdio)
| ExitUndefined
| ExitOutOfFuel.

(** [LONG_MAX], for a [long] of 64 bits. *)
Definition LONG_MAX : Z := 2 ^ 63 - 1.

(** A stream that [fopen] has opened, by what the calls of [main] on it
    yield: [ftell] is the value of [ftell] once [fseek] was asked for the
    end of the stream (-1 when it fails, as it does on a pipe), and
    [fread] the characters the stream delivers after [rewind]. The two
    need not agree, and the source checks neither result. *)
Record stream : Type := Stream {
  ftell : Z;
  fread : list ascii
}.

(** What [main] finds around it: the streams that [fopen] opens for a
    path ([None] where it returns [NULL]), and the block that [malloc]
    returns for a size ([None] for [NULL]), given by the indeterminate
    character that each of its bytes holds. *)
Record host : Type := Host {
  fopen : string → option stream;
  malloc : nat → option (nat → ascii)
}.

(** The first [ftell f] characters of the buffer [codes] once [fread] has
    returned: the characters [fread] has stored, no more than it was asked
    for, and behind them what [malloc] has left in the block. *)
Definition codes_read (f : stream) (block : nat → ascii) : list ascii :=
  let fsize := Z.to_nat (ftell f) in
  let got := take fsize (fread f) in
  got ++ map block (seq (length got) (fsize - length got)).

(** [main] (lines 66-109). [argv] is the argument vector and [argc] its
    length. Where [fopen] returns [NULL] the message is printed and the
    code goes on to [fseek] on the null stream, which is undefined. The
    results of [fseek], [ftell], [malloc] and [fread] are used as they
    come: with a negative [fsize] the store of the NUL at index [fsize]
    lies outside the block, with [LONG_MAX] the sum [fsize + 1] overflows,
    and through [NULL] nothing can be stored; all three are undefined.
    Otherwise the engine runs on the [fsize] characters in front of the
    NUL. The stream is one of its own: reading it takes nothing from
    standard input. What is written to [stderr] is not modelled. *)
Definition main (char_signed : bool) (fuel : nat) (os : host)
  (argv : list string) (w : stdio) : exit_outcome :=
  if negb (length argv =? 2)%nat then Exited (-1) w
  else
    match argv !! 1%nat with
    | None => ExitUndefined
    | Some path =>
        match fopen os path with
        | None => ExitUndefined
        | Some f =>
            let fsize := ftell f in
            if (fsize <? 0) || (LONG_MAX <=? fsize) then ExitUndefined
            else
              match malloc os (Z.to_nat (fsize + 1)) with
              | None => ExitUndefined
              | Some block =>
                  let codes := codes_read f block ++ ["000"%char] in
                  match do_brainfuck char_signed fuel codes (Z.to_nat fsize) w
                  with
                  | Returned ret st => Exited ret (world st)
                  | Undefined => ExitUndefined
                  | OutOfFuel => ExitOutOfFuel
                  end
              end
        end
    end.

(** A call of [main] ends with [x]. *)
Definition main_gives (char_signed : bool) (os : host)
  (argv : list string) (w : stdio) (x : exit_outcome) : Prop :=
  x ≠ ExitOutOfFuel ∧ ∃ fuel, main char_signed fuel os argv w = x.

(** A host on which the one file [path] can be opened, is sized by [ftell]
    and read whole by [fread], and [malloc] returns zeroed blocks. *)
Definition host_with (path : string) (file : list ascii) : host :=
  Host (λ p, if String.eqb p path
             then Some (Stream (Z.of_nat (length file)) file)
             else None)
       (λ _, Some (λ _, "000"%char)).

(** ** Whitespace *)

(** The block without its whitespace. *)
Fixpoint strip (code : list ascii) : list ascii :=
  match code with
  | [] => []
  | c :: code' =>
      match classify c with
      | TBlank => strip code'
      | _ => c :: strip code'
      end
  end.

(** The matching scan as a split of the range it reads: the characters in
    front of the one on which the counter becomes 0, and those behind it;
    [None] when the counter becomes 0 nowhere. *)
Fixpoint split_loop (rest : list ascii) (open_cnt : Z)
  : option (list ascii * list ascii) :=
  match rest with
  | [] => None
  | c :: rest' =>
      let open_cnt' :=
        match classify c with
        | TOpen => size_wrap (open_cnt + 1)
        | TClose => size_wrap (open_cnt - 1)
        | _ => open_cnt
        end in
      if open_cnt' =? 0 then Some ([], rest')
      else
        match split_loop rest' open_cnt' with
        | Some (body, behind) => Some (c :: body, behind)
        | None => None
        end
  end.

(** ** Loops that leave the pointer in place *)

(** A block of instructions, whitespace and loops, every loop around a
    balanced body whose [>] and [<] cancel out, the bodies being such
    blocks themselves. *)
Inductive neutral : list ascii → Prop :=
| neutral_end : neutral []
| neutral_instr c rest :
    is_simple (classify c) = true → neutral rest → neutral (c :: rest)
| neutral_loop body rest :
    balanced body → neutral body → net_moves body = 0 → neutral rest →
    neutral (loop_of body rest).

(** The pointer, at offset [p] in a tape of [n] cells, stays inside the
    tape when moved by the [>] and [<] of the block, one after the
    other. *)
Fixpoint moves_within (n p : Z) (code : list ascii) : bool :=
  (0 <=? p) && (p <? n) &&
  match code with
  | [] => true
  | c :: rest => moves_within n (p + move_delta c) rest
  end.

(** Two runs that end give the same result: compare both with the run on
    the larger fuel, by the monotonicity lemma [mono]. *)
Ltac same_at_more_fuel mono :=
  let f := fresh "f" in
  let f' := fresh "f'" in
  let Hf := fresh "Hf" in
  let Hf' := fresh "Hf'" in
  intros [? [f Hf]] [? [f' Hf']];
  rewrite <- Hf, <- Hf';
  rewrite <- (mono f (Nat.max f f')) by (rewrite ?Hf; done || lia);
  rewrite <- (mono f' (Nat.max f f')) by (rewrite ?Hf'; done || lia);
  reflexivity.

(** Case analysis on the comparisons of [classify c]. *)
Ltac classify_cases c :=
  unfold classify;
  repeat match goal with
         | |- context [Ascii.eqb c ?x] =>
             destruct (Ascii.eqb_spec c x); [subst c|]
         end.

(** * Properties of the engine *)

(** ** Results that do not depend on the fuel *)

Section Results.
Context {W : Type}.
Variable char_signed : bool.
Variable brainfuck : brainfuck_t W.

Local Abbreviation block := (do_brainfuck_block char_signed brainfuck).
Local Abbreviation scan_at := (scan_from char_signed brainfuck).
Local Abbreviation loop_at := (loop_from char_signed brainfuck).

Lemma run_loop_mono (exec exec' : list ascii → store W → outcome W)
  fuel fuel' body st :
  exec_le exec exec' → (fuel ≤ fuel')%nat →
  run_loop exec fuel body st ≠ Abort OutOfFuel →
  run_loop exec' fuel' body st = run_loop exec fuel body st.
Proof.
  intros Hle. revert fuel' st.
  induction fuel as [|fuel IH]; intros fuel' st Hf Hne; [done|].
  destruct fuel' as [|fuel']; [lia|]. simpl in *.
  destruct (load st) as [v|]; [|done].
  destruct (v =? 0); [done|].
  destruct (exec body st) as [ret st'| |] eqn:He; [| |done].
  - rewrite Hle, He by (rewrite He; done).
    destruct (ret =? 0); [|done]. apply IH; [lia|done].
  - rewrite Hle, He by (rewrite He; done). done.
Qed.

Lemma scan_mono (exec exec' : list ascii → store W → outcome W)
  fuel fuel' code cnt st :
  exec_le exec exec' → (fuel ≤ fuel')%nat →
  scan char_signed brainfuck exec fuel code cnt st ≠ OutOfFuel →
  scan char_signed brainfuck exec' fuel' code cnt st
  = scan char_signed brainfuck exec fuel code cnt st.
Proof.
  intros Hle. revert fuel' cnt st.
  induction fuel as [|fuel IH]; intros fuel' cnt st Hf Hne; [done|].
  destruct fuel' as [|fuel']; [lia|]. simpl in *.
  destruct (code !! cnt) as [cur|]; [|done].
  assert (Hsimple : ∀ t,
    match simple_instr char_signed brainfuck t st with
    | Some st' => scan char_signed brainfuck exec fuel code (S cnt) st'
    | None => Undefined
    end ≠ OutOfFuel →
    match simple_instr char_signed brainfuck t st with
    | Some st' => scan char_signed brainfuck exec' fuel' code (S cnt) st'
    | None => Undefined
    end =
    match simple_instr char_signed brainfuck t st with
    | Some st' => scan char_signed brainfuck exec fuel code (S cnt) st'
    | None => Undefined
    end).
  { intros t. destruct (simple_instr _ _ t st); [|done].
    intros H. apply IH; [lia|done]. }
  destruct (classify cur); try (by apply Hsimple); try done;
    try (apply IH; [lia|done]).
  destruct (loop_span code cnt) as [len|]; [|done].
  destruct (run_loop exec fuel (loop_body code cnt len) st) as [st'|o] eqn:Hl.
  - rewrite (run_loop_mono exec exec' fuel fuel'), Hl;
      [|done|lia|by rewrite Hl].
    apply IH; [lia|done].
  - rewrite (run_loop_mono exec exec' fuel fuel'), Hl; [done|done|lia|].
    rewrite Hl. intros [= ->]. done.
Qed.

Lemma block_mono fuel fuel' code st :
  (fuel ≤ fuel')%nat → block fuel code st ≠ OutOfFuel →
  block fuel' code st = block fuel code st.
Proof.
  revert fuel' code st.
  induction fuel as [|fuel IH]; intros fuel' code st Hf Hne; [done|].
  destruct fuel' as [|fuel']; [lia|]. simpl in *.
  apply scan_mono; [|lia|done].
  intros c s H. apply IH; [lia|done].
Qed.

Lemma block_exec_le fuel fuel' :
  (fuel ≤ fuel')%nat → exec_le (block fuel) (block fuel').
Proof. intros Hf code st H. by apply block_mono. Qed.

Lemma scan_at_mono fuel fuel' code cnt st :
  (fuel ≤ fuel')%nat → scan_at fuel code cnt st ≠ OutOfFuel →
  scan_at fuel' code cnt st = scan_at fuel code cnt st.
Proof.
  intros Hf H. unfold scan_from in *.
  apply scan_mono; [by apply block_exec_le|done|done].
Qed.

Lemma loop_at_mono fuel fuel' body st :
  (fuel ≤ fuel')%nat → loop_at fuel body st ≠ Abort OutOfFuel →
  loop_at fuel' body st = loop_at fuel body st.
Proof.
  intros Hf H. unfold loop_from in *.
  apply run_loop_mono; [by apply block_exec_le|done|done].
Qed.

(** The three results are functions of their arguments. *)
Lemma block_gives_det code st o o' :
  block_gives char_signed brainfuck code st o →
  block_gives char_signed brainfuck code st o' → o = o'.
Proof. same_at_more_fuel block_mono. Qed.

Lemma scan_gives_det code cnt st o o' :
  scan_gives char_signed brainfuck code cnt st o →
  scan_gives char_signed brainfuck code cnt st o' → o = o'.
Proof. same_at_more_fuel scan_at_mono. Qed.

Lemma loop_gives_det body st r r' :
  loop_gives char_signed brainfuck body st r →
  loop_gives char_signed brainfuck body st r' → r = r'.
Proof. same_at_more_fuel loop_at_mono. Qed.

(** A block is its scan from index 0. *)
Lemma block_S fuel code st : block (S fuel) code st = scan_at fuel code 0 st.
Proof. reflexivity. Qed.

Lemma block_gives_scan code st o :
  block_gives char_signed brainfuck code st o
  ↔ scan_gives char_signed brainfuck code 0 st o.
Proof.
  split; intros [Ho [f Hf]]; (split; [done|]).
  - destruct f as [|f]; [by subst|]. by exists f.
  - by exists (S f).
Qed.

(** The fuel of the recursive calls and the fuel of the scan may differ. *)
Lemma scan_gives_intro e f code cnt st o :
  o ≠ OutOfFuel →
  scan char_signed brainfuck (block e) f code cnt st = o →
  scan_gives char_signed brainfuck code cnt st o.
Proof.
  intros Ho H. split; [done|]. exists (Nat.max e f). unfold scan_from.
  rewrite <- H. apply scan_mono; [apply block_exec_le; lia|lia|by rewrite H].
Qed.

Lemma loop_gives_intro e f body st r :
  r ≠ Abort OutOfFuel →
  run_loop (block e) f body st = r →
  loop_gives char_signed brainfuck body st r.
Proof.
  intros Ho H. split; [done|]. exists (Nat.max e f). unfold loop_from.
  rewrite <- H.
  apply run_loop_mono; [apply block_exec_le; lia|lia|by rewrite H].
Qed.

Lemma scan_gives_fuel code cnt st o f :
  scan_gives char_signed brainfuck code cnt st o → ∃ fuel, (f ≤ fuel)%nat ∧
    scan_at fuel code cnt st = o.
Proof.
  intros [Ho [g Hg]]. exists (Nat.max f g). split; [lia|].
  rewrite <- Hg. apply scan_at_mono; [lia|by rewrite Hg].
Qed.

Lemma loop_gives_fuel body st r f :
  loop_gives char_signed brainfuck body st r → ∃ fuel, (f ≤ fuel)%nat ∧
    loop_at fuel body st = r.
Proof.
  intros [Ho [g Hg]]. exists (Nat.max f g). split; [lia|].
  rewrite <- Hg. apply loop_at_mono; [lia|by rewrite Hg].
Qed.

Lemma block_gives_fuel code st o f :
  block_gives char_signed brainfuck code st o →
  ∃ fuel, (f ≤ fuel)%nat ∧ block fuel code st = o.
Proof.
  intros [Ho [g Hg]]. exists (Nat.max f g). split; [lia|].
  rewrite <- Hg. apply block_mono; [lia|by rewrite Hg].
Qed.

(** *** One iteration of the scan *)

Lemma scan_gives_end code cnt st o :
  code !! cnt = None →
  scan_gives char_signed brainfuck code cnt st o ↔ o = Returned 0 st.
Proof.
  intros Hc. split.
  - intros [Ho [f Hf]]. destruct f as [|f]; [by subst|].
    unfold scan_from in Hf. simpl in Hf. by rewrite Hc in Hf.
  - intros ->. split; [done|]. exists 1%nat.
    unfold scan_from. simpl. by rewrite Hc.
Qed.

Lemma scan_S_simple exec f code cnt st cur :
  code !! cnt = Some cur → is_simple (classify cur) = true →
  scan char_signed brainfuck exec (S f) code cnt st =
  match simple_instr char_signed brainfuck (classify cur) st with
  | Some st' => scan char_signed brainfuck exec f code (S cnt) st'
  | None => Undefined
  end.
Proof.
  intros Hc Hs. simpl. rewrite Hc. by destruct (classify cur).
Qed.

Lemma scan_gives_simple code cnt st cur st' o :
  code !! cnt = Some cur → is_simple (classify cur) = true →
  simple_instr char_signed brainfuck (classify cur) st = Some st' →
  scan_gives char_signed brainfuck code cnt st o
  ↔ scan_gives char_signed brainfuck code (S cnt) st' o.
Proof.
  intros Hc Hs Hi. split.
  - intros [Ho [f Hf]]. destruct f as [|f]; [by subst|].
    unfold scan_from in Hf.
    rewrite (scan_S_simple _ _ _ _ _ cur), Hi in Hf by done.
    by eapply scan_gives_intro.
  - intros [Ho [f Hf]]. apply (scan_gives_intro f (S f)); [done|].
    by rewrite (scan_S_simple _ _ _ _ _ cur), Hi.
Qed.

Lemma scan_gives_undefined code cnt st cur o :
  code !! cnt = Some cur → is_simple (classify cur) = true →
  simple_instr char_signed brainfuck (classify cur) st = None →
  scan_gives char_signed brainfuck code cnt st o ↔ o = Undefined.
Proof.
  intros Hc Hs Hi. split.
  - intros [Ho [f Hf]]. destruct f as [|f]; [by subst|].
    unfold scan_from in Hf.
    by rewrite (scan_S_simple _ _ _ _ _ cur), Hi in Hf.
  - intros ->. apply (scan_gives_intro 0 1); [done|].
    by rewrite (scan_S_simple _ _ _ _ _ cur), Hi.
Qed.

Lemma scan_gives_close code cnt st cur o :
  code !! cnt = Some cur → classify cur = TClose →
  scan_gives char_signed brainfuck code cnt st o ↔ o = Returned (-3) st.
Proof.
  intros Hc Hs. split.
  - intros [Ho [f Hf]]. destruct f as [|f]; [by subst|].
    unfold scan_from in Hf. simpl in Hf. by rewrite Hc, Hs in Hf.
  - intros ->. apply (scan_gives_intro 0 1); [done|].
    simpl. by rewrite Hc, Hs.
Qed.

Lemma scan_gives_illegal code cnt st cur o :
  code !! cnt = Some cur → classify cur = TIllegal →
  scan_gives char_signed brainfuck code cnt st o ↔ o = Returned (-4) st.
Proof.
  intros Hc Hs. split.
  - intros [Ho [f Hf]]. destruct f as [|f]; [by subst|].
    unfold scan_from in Hf. simpl in Hf. by rewrite Hc, Hs in Hf.
  - intros ->. apply (scan_gives_intro 0 1); [done|].
    simpl. by rewrite Hc, Hs.
Qed.

Lemma scan_gives_unmatched code cnt st cur o :
  code !! cnt = Some cur → classify cur = TOpen →
  loop_span code cnt = None →
  scan_gives char_signed brainfuck code cnt st o ↔ o = Returned (-2) st.
Proof.
  intros Hc Hs Hl. split.
  - intros [Ho [f Hf]]. destruct f as [|f]; [by subst|].
    unfold scan_from in Hf. simpl in Hf. by rewrite Hc, Hs, Hl in Hf.
  - intros ->. apply (scan_gives_intro 0 1); [done|].
    simpl. by rewrite Hc, Hs, Hl.
Qed.

Lemma scan_gives_loop code cnt st cur loop_len o :
  code !! cnt = Some cur → classify cur = TOpen →
  loop_span code cnt = Some loop_len →
  scan_gives char_signed brainfuck code cnt st o ↔
  ∃ r, loop_gives char_signed brainfuck (loop_body code cnt loop_len) st r ∧
       after_loop char_signed brainfuck code cnt loop_len r o.
Proof.
  intros Hc Hs Hl. split.
  - intros [Ho [f Hf]]. destruct f as [|f]; [by subst|].
    unfold scan_from in Hf. simpl in Hf. rewrite Hc, Hs, Hl in Hf.
    destruct (run_loop _ f _ st) as [st'|o'] eqn:Hr.
    + exists (Exit st'). split.
      * by eapply loop_gives_intro.
      * by eapply scan_gives_intro.
    + subst o'. exists (Abort o). split; [|done].
      eapply loop_gives_intro; [|done]. by intros [= ->].
  - intros [r [Hr Ha]].
    destruct r as [st'|o']; simpl in Ha.
    + destruct Ha as [Ho [f Hf]].
      destruct (loop_gives_fuel _ _ _ f Hr) as (g & Hg & Hrun).
      apply (scan_gives_intro g (S g)); [done|].
      simpl. rewrite Hc, Hs, Hl. unfold loop_from in Hrun. rewrite Hrun.
      unfold scan_from in Hf. rewrite <- Hf.
      apply scan_mono; [by apply block_exec_le|done|by rewrite Hf].
    + subst o'. destruct Hr as [Ho [f Hf]].
      apply (scan_gives_intro f (S f)); [by intros ->|].
      simpl. rewrite Hc, Hs, Hl. unfold loop_from in Hf. by rewrite Hf.
Qed.

(** *** One iteration of the [while] of a loop *)

Lemma loop_gives_undefined body st r :
  load st = None →
  loop_gives char_signed brainfuck body st r ↔ r = Abort Undefined.
Proof.
  intros Hl. split.
  - intros [Ho [f Hf]]. destruct f as [|f]; [by subst|].
    unfold loop_from in Hf. simpl in Hf. by rewrite Hl in Hf.
  - intros ->. apply (loop_gives_intro 0 1); [done|]. simpl. by rewrite Hl.
Qed.

Lemma loop_gives_exit body st r :
  load st = Some 0 → loop_gives char_signed brainfuck body st r ↔ r = Exit st.
Proof.
  intros Hl. split.
  - intros [Ho [f Hf]]. destruct f as [|f]; [by subst|].
    unfold loop_from in Hf. simpl in Hf. by rewrite Hl in Hf.
  - intros ->. apply (loop_gives_intro 0 1); [done|]. simpl. by rewrite Hl.
Qed.

Lemma loop_gives_again body st v st' r :
  load st = Some v → v ≠ 0 →
  block_gives char_signed brainfuck body st (Returned 0 st') →
  loop_gives char_signed brainfuck body st r
  ↔ loop_gives char_signed brainfuck body st' r.
Proof.
  intros Hl Hv Hb. apply Z.eqb_neq in Hv. split.
  - intros [Ho [f Hf]]. destruct f as [|f]; [by subst|].
    unfold loop_from in Hf. simpl in Hf. rewrite Hl, Hv in Hf.
    destruct (block_gives_fuel _ _ _ (S f) Hb) as (g & Hg & Hrun).
    rewrite (block_mono (S f) g) in Hrun; [|done|].
    + rewrite Hrun in Hf. simpl in Hf. by eapply loop_gives_intro.
    + intros E. rewrite E in Hf. by subst.
  - intros [Ho [f Hf]].
    destruct (block_gives_fuel _ _ _ f Hb) as (g & Hg & Hrun).
    apply (loop_gives_intro g (S g)); [done|].
    simpl. rewrite Hl, Hv, Hrun. simpl. unfold loop_from in Hf.
    rewrite <- Hf.
    apply run_loop_mono; [by apply block_exec_le|done|by rewrite Hf].
Qed.

Lemma loop_gives_abort body st v o r :
  load st = Some v → v ≠ 0 →
  block_gives char_signed brainfuck body st o → (∀ st', o ≠ Returned 0 st') →
  loop_gives char_signed brainfuck body st r ↔ r = Abort o.
Proof.
  intros Hl Hv Hb Hnz. apply Z.eqb_neq in Hv.
  assert (Habort : ∀ g f, block g body st = o →
            run_loop (block g) (S f) body st = Abort o).
  { intros g f Hrun. simpl. rewrite Hl, Hv, Hrun.
    destruct o as [ret st'| |]; [|done|done].
    destruct (ret =? 0) eqn:E; [|done].
    apply Z.eqb_eq in E. subst. by destruct (Hnz st'). }
  split.
  - intros [Ho [f Hf]]. destruct f as [|f]; [by subst|].
    unfold loop_from in Hf.
    destruct (block_gives_fuel _ _ _ (S f) Hb) as (g & Hg & Hrun).
    rewrite (block_mono (S f) g) in Hrun; [|done|].
    + by rewrite (Habort _ _ Hrun) in Hf.
    + intros E. simpl in Hf. rewrite Hl, Hv, E in Hf. by subst.
  - intros ->. destruct Hb as [Ho [g Hg]].
    apply (loop_gives_intro g 1); [by intros [= ->]|].
    by apply Habort.
Qed.

End Results.

(** ** The matching scan and the depth counter *)

Lemma classify_open c : classify c = TOpen ↔ c = "["%char.
Proof.
  split; [|by intros ->]. classify_cases c; done.
Qed.

Lemma classify_close c : classify c = TClose ↔ c = "]"%char.
Proof.
  split; [|by intros ->]. classify_cases c; done.
Qed.

Lemma bracket_delta_classify c :
  bracket_delta c =
  match classify c with TOpen => 1 | TClose => -1 | _ => 0 end.
Proof.
  unfold bracket_delta.
  destruct (Ascii.eqb_spec c "[") as [->|Ho]; [done|].
  destruct (Ascii.eqb_spec c "]") as [->|Hc]; [done|].
  destruct (classify c) eqn:E; try done.
  - by apply classify_open in E.
  - by apply classify_close in E.
Qed.

Lemma depth_from_cons d c cs :
  depth_from d (c :: cs) = depth_from (d + bracket_delta c) cs.
Proof. reflexivity. Qed.

(** The matching scan against the depth counter: as long as the counter
    cannot leave [size_t], the scan stops at the first prefix of [rest] of
    depth 0, and runs to the end when there is none. *)
Lemma find_loop_end_spec rest open_cnt loop_end :
  1 ≤ open_cnt → open_cnt + Z.of_nat (length rest) ≤ SIZE_MAX →
  let '(oc, e) := find_loop_end rest open_cnt loop_end in
  (oc = 0 ∧ ∃ k, e = (loop_end + k)%nat ∧ rest !! k = Some "]"%char ∧
     depth_from open_cnt (take (S k) rest) = 0 ∧
     ∀ m, (m ≤ k)%nat → depth_from open_cnt (take m rest) ≠ 0)
  ∨ (oc ≠ 0 ∧
     ∀ m, (m ≤ length rest)%nat → depth_from open_cnt (take m rest) ≠ 0).
Proof.
  revert open_cnt loop_end.
  induction rest as [|c rest IH]; intros oc e Hpos Hmax; simpl.
  { right. split; [lia|]. intros m _. rewrite take_nil. simpl. lia. }
  simpl in Hmax.
  set (oc' := match classify c with
              | TOpen => size_wrap (oc + 1)
              | TClose => size_wrap (oc - 1)
              | _ => oc
              end).
  assert (Hoc' : oc' = oc + bracket_delta c).
  { unfold oc', size_wrap. rewrite bracket_delta_classify.
    unfold SIZE_MAX in *.
    destruct (classify c); rewrite ?Z.mod_small; lia. }
  destruct (Z.eqb_spec oc' 0) as [Hz|Hnz].
  - left. split; [done|]. exists 0%nat. repeat split; [lia| | |].
    + simpl. f_equal. apply classify_close.
      rewrite bracket_delta_classify in Hoc'.
      destruct (classify c); try done; lia.
    + simpl. unfold depth_from. simpl. lia.
    + intros m Hm. assert (m = 0)%nat as -> by lia. simpl. lia.
  - assert (Hc : bracket_delta c = 1 ∨ bracket_delta c = -1
                 ∨ bracket_delta c = 0).
    { unfold bracket_delta. repeat case_match; lia. }
    specialize (IH oc' (S e)).
    destruct (find_loop_end rest oc' (S e)) as [oc2 e2].
    destruct IH as [(Hz2 & k & He & Hk & Hd & Hall)|(Hnz2 & Hall)];
      [lia|lia| |].
    + left. split; [done|]. exists (S k).
      repeat split; [lia|done| |].
      * rewrite <- Hoc'. done.
      * intros m Hm. destruct m as [|m]; [simpl; lia|].
        change (depth_from (oc + bracket_delta c) (take m rest) ≠ 0).
        rewrite <- Hoc'. apply Hall. lia.
    + right. split; [done|].
      intros m Hm. destruct m as [|m]; [simpl; lia|].
      change (depth_from (oc + bracket_delta c) (take m rest) ≠ 0).
      rewrite <- Hoc'. apply Hall. simpl in Hm. lia.
Qed.

Lemma first_closing_unique code i len len' :
  first_closing code i len → first_closing code i len' → len = len'.
Proof.
  intros (H1 & H2 & H3 & H4) (H1' & H2' & H3' & H4').
  destruct (Nat.lt_trichotomy len len') as [Hlt|[->|Hlt]]; [|done|].
  - destruct (H4' (i + len)%nat); [lia|done].
  - destruct (H4 (i + len')%nat); [lia|done].
Qed.

Lemma first_closing_not_never code i len :
  first_closing code i len → ¬ never_closed code i.
Proof.
  intros (H1 & H2 & H3 & H4) Hn. destruct (Hn (i + len)%nat); [lia|done].
Qed.

Lemma loop_span_sound code i :
  Z.of_nat (length code) ≤ SIZE_MAX → (i < length code)%nat →
  match loop_span code i with
  | Some len => first_closing code i len
  | None => never_closed code i
  end.
Proof.
  intros Hmax Hi. unfold loop_span.
  pose proof (find_loop_end_spec (drop (S i) code) 1 (S i)) as H.
  rewrite length_drop in H.
  destruct (find_loop_end (drop (S i) code) 1 (S i)) as [oc e].
  destruct H as [(-> & k & -> & Hk & Hd & Hall)|(Hnz & Hall)]; [lia|lia| |].
  - apply lookup_lt_Some in Hk. rewrite length_drop in Hk.
    simpl. unfold first_closing, depth_at.
    repeat split; [lia|lia| |].
    + replace (i + (S (i + k) - i) - i)%nat with (S k) by lia. done.
    + intros j Hj. apply Hall. lia.
  - destruct (Z.eqb_spec oc 0); [done|].
    intros j Hj. unfold depth_at. apply Hall. lia.
Qed.

(** The scan stops on a [']']: the character at [loop_end]. *)
Lemma loop_span_closing code i len :
  Z.of_nat (length code) ≤ SIZE_MAX → (i < length code)%nat →
  loop_span code i = Some len → code !! (i + len)%nat = Some "]"%char.
Proof.
  intros Hmax Hi. unfold loop_span.
  pose proof (find_loop_end_spec (drop (S i) code) 1 (S i)) as H.
  rewrite length_drop in H.
  destruct (find_loop_end (drop (S i) code) 1 (S i)) as [oc e].
  destruct H as [(-> & k & -> & Hk & Hd & Hall)|(Hnz & Hall)]; [lia|lia| |].
  - simpl. intros [= <-]. rewrite lookup_drop in Hk.
    rewrite <- Hk. f_equal. lia.
  - by destruct (Z.eqb_spec oc 0).
Qed.

Lemma loop_span_iff code i :
  Z.of_nat (length code) ≤ SIZE_MAX → (i < length code)%nat →
  (∀ len, loop_span code i = Some len ↔ first_closing code i len) ∧
  (loop_span code i = None ↔ never_closed code i).
Proof.
  intros Hmax Hi. pose proof (loop_span_sound code i Hmax Hi) as H.
  destruct (loop_span code i) as [len|]; split.
  - intros len'. split; [by intros [= <-]|].
    intros H'. f_equal. by eapply first_closing_unique.
  - split; [done|]. intros Hn. by destruct (first_closing_not_never code i len).
  - intros len. split; [done|].
    intros H'. by destruct (first_closing_not_never code i len).
  - done.
Qed.

(** ** Balanced blocks *)

Lemma depth_from_shift d cs : depth_from d cs = d + depth_from 0 cs.
Proof.
  revert d. induction cs as [|c cs IH]; intros d; [simpl; lia|].
  rewrite !depth_from_cons, (IH (d + _)), (IH (0 + _)). lia.
Qed.

Lemma depth_from_snoc d cs c :
  depth_from d (cs ++ [c]) = depth_from d cs + bracket_delta c.
Proof. unfold depth_from. by rewrite fold_left_app. Qed.

Lemma depth_from_take_S d cs k :
  depth_from d (take (S k) cs) = depth_from d (take k cs) + delta_at cs k.
Proof.
  unfold delta_at. destruct (cs !! k) as [c|] eqn:Hc.
  - by rewrite (take_S_r _ _ c), depth_from_snoc.
  - apply lookup_ge_None in Hc. rewrite !take_ge by lia. lia.
Qed.

Lemma prefix_depth_S code k :
  prefix_depth code (S k) = prefix_depth code k + delta_at code k.
Proof. apply depth_from_take_S. Qed.

Lemma depth_at_S code i j :
  (i ≤ j)%nat → depth_at code i (S j) = depth_at code i j + delta_at code (S j).
Proof.
  intros Hij. unfold depth_at.
  replace (S j - i)%nat with (S (j - i)) by lia.
  rewrite depth_from_take_S. f_equal.
  unfold delta_at. rewrite lookup_drop.
  by replace (S i + (j - i))%nat with (S j) by lia.
Qed.

Lemma depth_at_prefix code i j :
  code !! i = Some "["%char → (i ≤ j)%nat →
  depth_at code i j = prefix_depth code (S j) - prefix_depth code i.
Proof.
  intros Hc Hij. induction Hij as [|j Hij IH].
  - rewrite prefix_depth_S. unfold delta_at. rewrite Hc.
    unfold depth_at. rewrite Nat.sub_diag.
    change (bracket_delta "[") with 1. simpl. lia.
  - rewrite depth_at_S, IH, (prefix_depth_S code (S j)) by done. lia.
Qed.

Lemma delta_at_bound code k : -1 ≤ delta_at code k ≤ 1.
Proof.
  unfold delta_at, bracket_delta. destruct (code !! k); [|lia].
  repeat case_match; lia.
Qed.

Lemma first_closing_positive code i len j :
  first_closing code i len → (i ≤ j < i + len)%nat → 1 ≤ depth_at code i j.
Proof.
  intros (_ & _ & _ & Hnz) [Hij Hj]. induction Hij as [|j Hij IH].
  - unfold depth_at. rewrite Nat.sub_diag. simpl. lia.
  - specialize (IH ltac:(lia)). specialize (Hnz (S j) ltac:(lia)).
    rewrite depth_at_S in * by done.
    pose proof (delta_at_bound code (S j)). lia.
Qed.

Lemma loop_body_balanced code i len :
  code !! (i + len)%nat = Some "]"%char →
  first_closing code i len → balanced (loop_body code i len).
Proof.
  intros Hclose Hfc.
  assert (Hk : ∀ k, (k ≤ len - 1)%nat →
    prefix_depth (loop_body code i len) k = depth_at code i (i + k) - 1).
  { intros k Hk. unfold prefix_depth, loop_body, depth_at.
    rewrite take_take, Nat.min_l by lia.
    replace (i + k - i)%nat with k by lia.
    rewrite (depth_from_shift 1). lia. }
  destruct Hfc as (Hlen & Hin & Hz & Hnz).
  assert (Hlast : depth_at code i (i + (len - 1)) = 1).
  { replace (i + len)%nat with (S (i + (len - 1))) in Hz, Hclose by lia.
    rewrite depth_at_S in Hz by lia.
    unfold delta_at in Hz. rewrite Hclose in Hz.
    change (bracket_delta "]") with (-1) in Hz. lia. }
  assert (Hbody : length (loop_body code i len) = (len - 1)%nat).
  { unfold loop_body. rewrite length_take, length_drop. lia. }
  split.
  - rewrite Hbody, Hk by lia. lia.
  - intros k. destruct (Nat.le_gt_cases k (len - 1)) as [Hle|Hgt].
    + rewrite Hk by done.
      pose proof (first_closing_positive code i len (i + k)
                    (conj Hlen (conj Hin (conj Hz Hnz))) ltac:(lia)). lia.
    + unfold prefix_depth. rewrite take_ge by lia.
      pose proof (Hk (len - 1)%nat ltac:(lia)) as H.
      unfold prefix_depth in H. rewrite <- Hbody, take_ge in H by lia.
      rewrite H, Hbody. lia.
Qed.

Section Balanced.
Context {W : Type}.
Variable char_signed : bool.
Variable brainfuck : brainfuck_t W.

Lemma run_loop_balanced (exec : list ascii → store W → outcome W)
  f body st ret st' :
  (∀ s r s', exec body s = Returned r s' → status_of_balanced r) →
  run_loop exec f body st = Abort (Returned ret st') →
  status_of_balanced ret.
Proof.
  intros Hexec. revert st. induction f as [|f IH]; intros st; [done|].
  simpl. destruct (load st) as [v|]; [|done].
  destruct (v =? 0); [done|].
  destruct (exec body st) as [r s| |] eqn:He; [|done|done].
  destruct (r =? 0); [apply IH|].
  intros H. inversion H; subst. by eapply Hexec.
Qed.

Lemma balanced_open_closed code cnt :
  balanced code → prefix_depth code cnt = 0 →
  code !! cnt = Some "["%char → ¬ never_closed code cnt.
Proof.
  intros [Htotal Hpos] Hp Hc Hnever.
  assert (Hlt : (cnt < length code)%nat) by by eapply lookup_lt_Some.
  assert (HS : prefix_depth code (S cnt) = 1).
  { rewrite prefix_depth_S, Hp. unfold delta_at. by rewrite Hc. }
  destruct (decide (S cnt = length code)) as [Heq|Hne].
  { rewrite Heq in HS. lia. }
  apply (Hnever (length code - 1)%nat); [lia|].
  rewrite depth_at_prefix by (done || lia).
  replace (S (length code - 1)) with (length code) by lia. lia.
Qed.

Lemma scan_balanced (exec : list ascii → store W → outcome W)
  f code cnt st ret st' :
  Z.of_nat (length code) ≤ SIZE_MAX → balanced code →
  (∀ c s r s', (length c < length code)%nat → balanced c →
               exec c s = Returned r s' → status_of_balanced r) →
  prefix_depth code cnt = 0 →
  scan char_signed brainfuck exec f code cnt st = Returned ret st' →
  status_of_balanced ret.
Proof.
  intros Hmax Hbal Hexec. revert cnt st.
  induction f as [|f IH]; intros cnt st Hp; [done|].
  simpl. destruct (code !! cnt) as [cur|] eqn:Hc.
  2:{ intros H. inversion H; subst. by left. }
  assert (Hlt : (cnt < length code)%nat) by by eapply lookup_lt_Some.
  assert (Hd : prefix_depth code (S cnt)
               = match classify cur with
                 | TOpen => 1 | TClose => -1 | _ => 0
                 end).
  { rewrite prefix_depth_S, Hp. unfold delta_at.
    rewrite Hc, bracket_delta_classify. lia. }
  destruct (classify cur) eqn:Hcl;
    try (first [ apply IH; exact Hd
               | destruct (simple_instr _ _ _ st); [apply IH; exact Hd|done] ]).
  - apply classify_open in Hcl. subst cur.
    pose proof (loop_span_sound code cnt Hmax Hlt) as Hspan.
    pose proof (loop_span_closing code cnt) as Hclose.
    destruct (loop_span code cnt) as [len|].
    2:{ by destruct (balanced_open_closed code cnt). }
    specialize (Hclose len Hmax Hlt eq_refl).
    pose proof (loop_body_balanced code cnt len Hclose Hspan) as Hbody.
    destruct (run_loop exec f _ st) as [s|o] eqn:Hl.
    + apply IH.
      replace (cnt + (len + 1))%nat with (S (cnt + len)) by lia.
      pose proof (depth_at_prefix code cnt (cnt + len) Hc ltac:(lia)) as H.
      destruct Hspan as (_ & _ & Hz & _). lia.
    + intros ->. eapply run_loop_balanced; [|done].
      intros s r s'. apply Hexec; [|done].
      unfold loop_body. rewrite length_take, length_drop. lia.
  - destruct Hbal as [_ Hpos]. specialize (Hpos (S cnt)). lia.
  - intros H. inversion H; subst. by right.
Qed.

(** A balanced block returns 0 or -4: no bracket in it is unmatched. *)
Lemma block_balanced f code st ret st' :
  Z.of_nat (length code) ≤ SIZE_MAX → balanced code →
  do_brainfuck_block char_signed brainfuck f code st = Returned ret st' →
  status_of_balanced ret.
Proof.
  revert code st ret st'. induction f as [|f IH]; intros code st ret st'.
  - done.
  - intros Hmax Hbal. rewrite block_S. unfold scan_from.
    apply scan_balanced; [done|done| |done].
    intros c s r s' Hlen Hc. apply IH; [lia|done].
Qed.

End Balanced.

(** The body of a matched loop is balanced, so a call on it returns 0 or
    -4. *)
Lemma loop_body_status {W : Type} (char_signed : bool)
  (brainfuck : brainfuck_t W) code cnt len (st : store W) ret st' :
  Z.of_nat (length code) ≤ SIZE_MAX →
  code !! cnt = Some "["%char → loop_span code cnt = Some len →
  block_gives char_signed brainfuck (loop_body code cnt len) st
    (Returned ret st') →
  status_of_balanced ret.
Proof.
  intros Hmax Hc Hspan [_ [f Hf]].
  assert (Hlt : (cnt < length code)%nat) by by eapply lookup_lt_Some.
  pose proof (loop_span_sound code cnt Hmax Hlt) as Hfc.
  rewrite Hspan in Hfc.
  eapply block_balanced; [| |exact Hf].
  - unfold loop_body. rewrite length_take, length_drop. lia.
  - apply loop_body_balanced; [|done]. by apply loop_span_closing.
Qed.

(** ** Iterations of a loop *)

Section Loops.
Context {W : Type}.
Variable char_signed : bool.
Variable brainfuck : brainfuck_t W.

Local Abbreviation block := (do_brainfuck_block char_signed brainfuck).

Lemma iterations_loop_gives body k st st' r :
  iterations char_signed brainfuck body k st st' →
  loop_gives char_signed brainfuck body st r
  ↔ loop_gives char_signed brainfuck body st' r.
Proof.
  induction 1 as [|k st v st1 st' Hl Hv Hb _ IH]; [done|].
  rewrite <- IH. by eapply loop_gives_again.
Qed.

Lemma iterations_snoc body k st st1 v st' :
  iterations char_signed brainfuck body k st st1 →
  load st1 = Some v → v ≠ 0 →
  block_gives char_signed brainfuck body st1 (Returned 0 st') →
  iterations char_signed brainfuck body (S k) st st'.
Proof.
  induction 1 as [|k st w st2 st1 Hl Hv Hb _ IH]; intros Hl1 Hv1 Hb1.
  - econstructor; [done|done|done|constructor].
  - econstructor; [done|done|done|]. by apply IH.
Qed.

(** The iterations are determined by the store the loop is entered in. *)
Lemma iterations_det body k st st1 st2 :
  iterations char_signed brainfuck body k st st1 →
  iterations char_signed brainfuck body k st st2 → st1 = st2.
Proof.
  intros H. revert st2.
  induction H as [|k st v st1 st' Hl Hv Hb _ IH]; intros st2 H2.
  - by inversion H2.
  - inversion H2 as [|? ? v2 st3 ? Hl2 Hv2 Hb2 Hk2]; subst.
    pose proof (block_gives_det _ _ _ _ _ _ Hb Hb2) as [= ->].
    by apply IH.
Qed.

(** The test fails after at most one number of iterations. *)
Lemma iterations_exit_unique body k k' st st1 st2 :
  iterations char_signed brainfuck body k st st1 → load st1 = Some 0 →
  iterations char_signed brainfuck body k' st st2 → load st2 = Some 0 →
  k = k'.
Proof.
  intros H. revert k' st2.
  induction H as [|k st v st1 st' Hl Hv Hb _ IH]; intros k' st2 Hz H2 Hz2.
  - inversion H2 as [|? ? v2 ? ? Hl2 Hv2]; subst; [done|]. congruence.
  - inversion H2 as [|? ? v2 st3 ? Hl2 Hv2 Hb2 Hk2]; subst; [congruence|].
    pose proof (block_gives_det _ _ _ _ _ _ Hb Hb2) as [= ->].
    f_equal. by eapply IH.
Qed.



Lemma scan_gives_loop_exit code cnt len k st st' o :
  code !! cnt = Some "["%char → loop_span code cnt = Some len →
  iterations char_signed brainfuck (loop_body code cnt len) k st st' →
  load st' = Some 0 →
  scan_gives char_signed brainfuck code cnt st o
  ↔ scan_gives char_signed brainfuck code (cnt + (len + 1)) st' o.
Proof.
  intros Hc Hspan Hit Hz.
  rewrite (scan_gives_loop _ _ _ _ _ "["%char len) by done.
  split.
  - intros (r & Hr & Ha).
    apply (iterations_loop_gives _ _ _ _ r Hit) in Hr.
    apply loop_gives_exit in Hr; [|done]. by subst r.
  - intros Hs. exists (Exit st'). split; [|done].
    apply (iterations_loop_gives _ _ _ _ _ Hit).
    by apply loop_gives_exit.
Qed.

Lemma scan_gives_loop_abort code cnt len k st st1 v o :
  code !! cnt = Some "["%char → loop_span code cnt = Some len →
  iterations char_signed brainfuck (loop_body code cnt len) k st st1 →
  load st1 = Some v → v ≠ 0 →
  block_gives char_signed brainfuck (loop_body code cnt len) st1 o →
  (∀ s, o ≠ Returned 0 s) →
  scan_gives char_signed brainfuck code cnt st o.
Proof.
  intros Hc Hspan Hit Hl Hv Hb Hnz.
  apply (scan_gives_loop _ _ _ _ _ "["%char len); [done..|].
  exists (Abort o). split; [|done].
  apply (iterations_loop_gives _ _ _ _ _ Hit).
  by apply (loop_gives_abort _ _ _ _ v o).
Qed.

Lemma reaches_scan_gives code st0 cnt st o :
  reaches char_signed brainfuck code st0 cnt st →
  scan_gives char_signed brainfuck code 0 st0 o
  ↔ scan_gives char_signed brainfuck code cnt st o.
Proof.
  induction 1 as [|cnt st cur st' _ IH Hc Hs Hi
                  |cnt st len k st' _ IH Hc Hspan Hit Hz]; [done| |].
  - rewrite IH. by eapply scan_gives_simple.
  - rewrite IH. by eapply scan_gives_loop_exit.
Qed.

Lemma calls_propagate outer st0 inner st ret st' :
  calls char_signed brainfuck outer st0 inner st →
  block_gives char_signed brainfuck inner st (Returned ret st') → ret ≠ 0 →
  block_gives char_signed brainfuck outer st0 (Returned ret st').
Proof.
  intros Hcalls Hb Hret.
  induction Hcalls as [|code st0 cnt st len k st1 v inner st2
                        Hreach Hc Hspan Hit Hl Hv _ IH]; [done|].
  apply block_gives_scan, (reaches_scan_gives _ _ _ _ _ Hreach).
  eapply scan_gives_loop_abort; [done..|by apply IH|].
  intros s [= -> ->]. done.
Qed.

End Loops.


(** ** Cells and the instructions on them *)

Section CellFacts.
Context {W : Type}.
Implicit Types st : store W.

Lemma load_Some st v :
  load st = Some v ↔
  0 ≤ the_pointer st ∧ mem st !! Z.to_nat (the_pointer st) = Some v.
Proof.
  unfold load. destruct (Z.ltb_spec (the_pointer st) 0); split.
  - done.
  - intros [? _]. lia.
  - intros. split; [lia|done].
  - by intros [_ ?].
Qed.

(** A cell is read only where the pointer is inside [mem]. *)
Lemma load_None st :
  load st = None ↔
  ¬ (0 ≤ the_pointer st < Z.of_nat (length (mem st))).
Proof.
  unfold load. destruct (Z.ltb_spec (the_pointer st) 0).
  - split; [lia|done].
  - rewrite lookup_ge_None. lia.
Qed.

Lemma load_set_cell st v v' :
  load st = Some v → load (set_cell v' st) = Some v'.
Proof.
  rewrite !load_Some. simpl. intros [Hp Hl]. split; [done|].
  apply list_lookup_insert_eq. by eapply lookup_lt_Some.
Qed.

Lemma set_cell_set_cell st v v' : set_cell v (set_cell v' st) = set_cell v st.
Proof. unfold set_cell. simpl. by rewrite list_insert_insert_eq. Qed.

Lemma set_cell_id st v : load st = Some v → set_cell v st = st.
Proof.
  rewrite load_Some. intros [_ Hl]. destruct st as [m p w].
  unfold set_cell. simpl in *. by rewrite list_insert_id.
Qed.

Lemma load_init (w : W) : load (init_store w) = Some 0.
Proof.
  apply load_Some. split; [done|].
  change (replicate (Z.to_nat MAX_BRAINFUCK) 0 !! Z.to_nat 0 = Some 0).
  apply lookup_replicate_2. unfold MAX_BRAINFUCK. lia.
Qed.

Lemma store_cell_Some st v v' :
  load st = Some v → store_cell v' st = Some (set_cell v' st).
Proof. intros H. unfold store_cell. by rewrite H. Qed.

Variable char_signed : bool.
Variable brainfuck : brainfuck_t W.

Lemma simple_plus st v :
  load st = Some v →
  simple_instr char_signed brainfuck TPlus st
  = Some (set_cell (to_byte (v + 1)) st).
Proof.
  intros H. unfold simple_instr. rewrite H. simpl.
  by eapply store_cell_Some.
Qed.

Lemma simple_minus st v :
  load st = Some v →
  simple_instr char_signed brainfuck TMinus st
  = Some (set_cell (to_byte (v - 1)) st).
Proof.
  intros H. unfold simple_instr. rewrite H. simpl.
  by eapply store_cell_Some.
Qed.

Lemma simple_dot st v :
  load st = Some v →
  simple_instr char_signed brainfuck TDot st
  = Some (set_world (output brainfuck (byte_to_int char_signed v) (world st))
            st).
Proof. intros H. unfold simple_instr. by rewrite H. Qed.

Lemma simple_comma st v c w :
  load st = Some v → input brainfuck (world st) = (c, w) →
  simple_instr char_signed brainfuck TComma st
  = Some (set_cell (to_byte c) (set_world w st)).
Proof.
  intros H Hi. unfold simple_instr. rewrite Hi.
  apply (store_cell_Some _ v). apply load_Some. simpl.
  by apply load_Some in H.
Qed.

(** The four instructions that access the current cell are undefined where
    the pointer is outside [mem]. *)
Lemma simple_outside st t :
  load st = None → t = TPlus ∨ t = TMinus ∨ t = TDot ∨ t = TComma →
  simple_instr char_signed brainfuck t st = None.
Proof.
  intros H [-> | [-> | [-> | ->]]]; unfold simple_instr; rewrite ?H; try done.
  destruct (input brainfuck (world st)) as [c w].
  unfold store_cell.
  assert (load (set_world w st) = None) as ->; [|done].
  apply load_None. simpl. by apply load_None in H.
Qed.

End CellFacts.

(** ** Character classes and runs of [do_brainfuck] *)

Lemma classify_illegal c :
  classify c = TIllegal
  ↔ (c ∉ instruction_chars) ∧ (c ∉ whitespace_chars).
Proof.
  split.
  - intros H. split; intros Hin;
      unfold instruction_chars, whitespace_chars, script in Hin;
      simpl in Hin;
      repeat (apply elem_of_cons in Hin as [->|Hin]; [by vm_compute in H|]);
      by apply elem_of_nil in Hin.
  - intros [Hi Hw]. classify_cases c; try reflexivity; exfalso;
      first [ apply Hi; unfold instruction_chars, script; simpl;
              by repeat constructor
            | apply Hw; unfold whitespace_chars; by repeat constructor ].
Qed.

Lemma classify_blank c : classify c = TBlank ↔ c ∈ whitespace_chars.
Proof.
  split.
  - classify_cases c; simpl; intros H; try discriminate H;
      unfold whitespace_chars; by repeat constructor.
  - intros Hin. unfold whitespace_chars in Hin.
    repeat (apply elem_of_cons in Hin as [->|Hin]; [reflexivity|]).
    by apply elem_of_nil in Hin.
Qed.

Lemma do_brainfuck_gives_block cs code n w o :
  (n ≤ length code)%nat →
  do_brainfuck_gives cs code n w o
  ↔ block_gives cs std_hooks (take n code) (init_store w) o.
Proof.
  intros Hn. unfold do_brainfuck_gives, block_gives, do_brainfuck.
  destruct (Nat.ltb_spec (length code) n); [lia|done].
Qed.

Lemma do_brainfuck_gives_det cs code n w o o' :
  do_brainfuck_gives cs code n w o → do_brainfuck_gives cs code n w o' →
  o = o'.
Proof.
  unfold do_brainfuck_gives, do_brainfuck.
  destruct (Nat.ltb_spec (length code) n).
  - intros [_ [_ <-]] [_ [_ <-]]. done.
  - apply block_gives_det.
Qed.

(** ** Straight-line blocks *)

Section Straight.
Context {W : Type}.
Variable char_signed : bool.
Variable brainfuck : brainfuck_t W.
Implicit Types st : store W.

(** A block of [n] times [+] adds [n] to the current cell, modulo 256. *)
Lemma scan_gives_pluses n k st v :
  (k ≤ n)%nat → load st = Some v → 0 ≤ v < 256 →
  scan_gives char_signed brainfuck (replicate n "+"%char) (n - k) st
    (Returned 0 (set_cell ((v + Z.of_nat k) mod 256) st)).
Proof.
  revert st v. induction k as [|k IH]; intros st v Hk Hl Hv.
  - apply scan_gives_end.
    + apply lookup_ge_None. rewrite length_replicate. lia.
    + rewrite Z.add_0_r, Z.mod_small by done. by rewrite (set_cell_id _ v).
  - apply (scan_gives_simple _ _ _ _ _ "+"%char
             (set_cell (to_byte (v + 1)) st)).
    + apply lookup_replicate_2. lia.
    + done.
    + by apply simple_plus.
    + replace (S (n - S k)) with (n - k)%nat by lia.
      replace (set_cell ((v + Z.of_nat (S k)) mod 256) st)
        with (set_cell ((to_byte (v + 1) + Z.of_nat k) mod 256)
                (set_cell (to_byte (v + 1)) st)).
      * apply IH; [lia|by eapply load_set_cell|].
        unfold to_byte. apply Z.mod_pos_bound. lia.
      * rewrite set_cell_set_cell. f_equal. unfold to_byte.
        rewrite Zplus_mod_idemp_l. f_equal. lia.
Qed.

Lemma block_gives_pluses n st v :
  load st = Some v → 0 ≤ v < 256 →
  block_gives char_signed brainfuck (replicate n "+"%char) st
    (Returned 0 (set_cell ((v + Z.of_nat n) mod 256) st)).
Proof.
  intros Hl Hv. apply block_gives_scan.
  pose proof (scan_gives_pluses n n st v) as H.
  rewrite Nat.sub_diag in H. by apply H.
Qed.

Lemma block_gives_plus_minus st v :
  load st = Some v → 0 ≤ v < 256 →
  block_gives char_signed brainfuck (script "+-") st (Returned 0 st).
Proof.
  intros Hl Hv. apply block_gives_scan.
  apply (scan_gives_simple _ _ _ _ _ "+"%char
           (set_cell (to_byte (v + 1)) st)); [done|done|by apply simple_plus|].
  apply (scan_gives_simple _ _ _ _ _ "-"%char st); [done|done| |].
  - rewrite (simple_minus _ _ _ (to_byte (v + 1)))
      by by eapply load_set_cell.
    rewrite set_cell_set_cell. f_equal. apply set_cell_id.
    rewrite Hl. f_equal. unfold to_byte.
    rewrite Zminus_mod_idemp_l. rewrite Z.mod_small; lia.
  - by apply scan_gives_end.
Qed.

(** The body of the loop [[-]]. *)
Lemma block_gives_minus st v :
  load st = Some v →
  block_gives char_signed brainfuck (script "-") st
    (Returned 0 (set_cell (to_byte (v - 1)) st)).
Proof.
  intros Hl. apply block_gives_scan.
  apply (scan_gives_simple _ _ _ _ _ "-"%char
           (set_cell (to_byte (v - 1)) st)); [done|done|by apply simple_minus|].
  by apply scan_gives_end.
Qed.

Lemma block_gives_plus st v :
  load st = Some v →
  block_gives char_signed brainfuck (script "+") st
    (Returned 0 (set_cell (to_byte (v + 1)) st)).
Proof.
  intros Hl. apply block_gives_scan.
  apply (scan_gives_simple _ _ _ _ _ "+"%char
           (set_cell (to_byte (v + 1)) st)); [done|done|by apply simple_plus|].
  by apply scan_gives_end.
Qed.

(** What [set_cell] leaves, by the projections of the store. *)
Lemma cell_becomes_set_cell st v v' :
  load st = Some v → cell_becomes v' st (set_cell v' st).
Proof.
  intros Hl. split; [done|]. split; [by apply (load_set_cell _ v)|done].
Qed.

Lemma iterations_minus n st :
  load st = Some (Z.of_nat n) → (n < 256)%nat →
  iterations char_signed brainfuck (script "-") n st (set_cell 0 st).
Proof.
  revert st. induction n as [|n IH]; intros st Hl Hn.
  - rewrite (set_cell_id _ 0) by done. constructor.
  - apply (iterations_S _ _ _ _ _ (Z.of_nat (S n))
             (set_cell (Z.of_nat n) st)); [done|lia| |].
    + replace (Z.of_nat n) with (to_byte (Z.of_nat (S n) - 1)).
      * by apply block_gives_minus.
      * unfold to_byte. rewrite Z.mod_small; lia.
    + rewrite <- (set_cell_set_cell st 0 (Z.of_nat n)).
      apply IH; [by eapply load_set_cell|lia].
Qed.

End Straight.

Lemma byte_to_int_to_byte cs c : byte_to_int cs (to_byte c) mod 256 = to_byte c.
Proof.
  unfold byte_to_int, to_byte.
  pose proof (Z.mod_pos_bound c 256 ltac:(lia)) as Hb.
  destruct (cs && (128 <=? c mod 256)).
  - replace (c mod 256 - 256) with (c mod 256 + (-1) * 256) by lia.
    rewrite Z.mod_add by lia. by rewrite Z.mod_mod.
  - by rewrite Z.mod_mod.
Qed.

(** ** Pointer moves *)

Section Moves.
Context {W : Type}.
Variable char_signed : bool.
Variable brainfuck : brainfuck_t W.
Implicit Types st : store W.

Lemma move_move a b st : move a (move b st) = move (b + a) st.
Proof. unfold move. simpl. f_equal. lia. Qed.

Lemma move_0 st : move 0 st = st.
Proof. destruct st. unfold move. simpl. f_equal. lia. Qed.

Lemma length_mem_init (w : W) :
  Z.of_nat (length (mem (init_store w))) = MAX_BRAINFUCK.
Proof.
  unfold init_store. cbn [mem]. rewrite length_replicate.
  unfold MAX_BRAINFUCK. lia.
Qed.

Lemma scan_gives_moves code k st :
  Forall (λ c, c = ">"%char ∨ c = "<"%char) code → (k ≤ length code)%nat →
  scan_gives char_signed brainfuck code (length code - k) st
    (Returned 0 (move (net_moves (drop (length code - k) code)) st)).
Proof.
  intros Hall. revert st. induction k as [|k IH]; intros st Hk.
  - rewrite Nat.sub_0_r, drop_all. simpl. rewrite move_0.
    apply scan_gives_end; [|done]. by apply lookup_ge_None.
  - destruct (lookup_lt_is_Some_2 code (length code - S k)) as [c Hc]; [lia|].
    rewrite (drop_S _ c) by done. simpl.
    replace (S (length code - S k)) with (length code - k)%nat by lia.
    rewrite <- move_move.
    apply (scan_gives_simple _ _ _ _ _ c (move (move_delta c) st)); [done| | |].
    + by destruct (Forall_lookup_1 _ _ _ _ Hall Hc) as [-> | ->].
    + by destruct (Forall_lookup_1 _ _ _ _ Hall Hc) as [-> | ->].
    + replace (S (length code - S k)) with (length code - k)%nat by lia.
      apply IH. lia.
Qed.

Lemma block_gives_moves code st :
  Forall (λ c, c = ">"%char ∨ c = "<"%char) code →
  block_gives char_signed brainfuck code st
    (Returned 0 (move (net_moves code) st)).
Proof.
  intros Hall. apply block_gives_scan.
  pose proof (scan_gives_moves code (length code) st Hall) as H.
  rewrite Nat.sub_diag, drop_0 in H. by apply H.
Qed.

Lemma net_moves_right n : net_moves (replicate n ">"%char) = Z.of_nat n.
Proof. induction n as [|n IH]; [done|]. simpl replicate. simpl net_moves.
  fold (net_moves (replicate n ">"%char)). rewrite IH.
  change (move_delta ">") with 1. lia.
Qed.

(** No status but 0, -2, -3 and -4 is ever returned. *)
Lemma run_loop_status exec f body st ret st' :
  (∀ c s r s', exec c s = Returned r s' → status_known r) →
  run_loop exec f body st = Abort (Returned ret st') → status_known ret.
Proof.
  intros Hexec. revert st. induction f as [|f IH]; intros st; [done|].
  simpl. destruct (load st) as [v|]; [|done].
  destruct (v =? 0); [done|].
  destruct (exec body st) as [r s| |] eqn:He; [|done|done].
  destruct (r =? 0); [apply IH|].
  intros H. inversion H; subst. by eapply Hexec.
Qed.

Lemma scan_status exec f code cnt st ret st' :
  (∀ c s r s', exec c s = Returned r s' → status_known r) →
  scan char_signed brainfuck exec f code cnt st = Returned ret st' →
  status_known ret.
Proof.
  intros Hexec. revert cnt st. induction f as [|f IH]; intros cnt st; [done|].
  simpl. destruct (code !! cnt) as [cur|].
  2:{ intros H. inversion H; subst. by left. }
  destruct (classify cur); try apply IH;
    try (destruct (simple_instr _ _ _ st); [apply IH|done]).
  - destruct (loop_span code cnt) as [len|].
    2:{ intros H. inversion H; subst. right. by left. }
    destruct (run_loop exec f _ st) as [s|o] eqn:Hl; [apply IH|].
    intros ->. by eapply run_loop_status.
  - intros H. inversion H; subst. right. right. by left.
  - intros H. inversion H; subst. right. right. by right.
Qed.

Lemma block_status f code st ret st' :
  do_brainfuck_block char_signed brainfuck f code st = Returned ret st' →
  status_known ret.
Proof.
  revert code st ret st'. induction f as [|f IH]; intros code st ret st'.
  - done.
  - rewrite block_S. unfold scan_from. apply scan_status.
    intros c s r s'. apply IH.
Qed.

End Moves.

(** ** What the matching scan looks at *)

(** The matching scan tells ['['], [']'] and the rest apart, nothing else. *)
Lemma find_loop_end_brackets rest rest' open_cnt loop_end :
  Forall2 (λ c c', bracket_delta c = bracket_delta c') rest rest' →
  find_loop_end rest open_cnt loop_end = find_loop_end rest' open_cnt loop_end.
Proof.
  intros H. revert open_cnt loop_end.
  induction H as [|c c' rest rest' Hc _ IH]; intros oc e; [done|].
  simpl. rewrite !bracket_delta_classify in Hc.
  assert (Hoc : match classify c with
                | TOpen => size_wrap (oc + 1)
                | TClose => size_wrap (oc - 1)
                | _ => oc
                end =
                match classify c' with
                | TOpen => size_wrap (oc + 1)
                | TClose => size_wrap (oc - 1)
                | _ => oc
                end).
  { destruct (classify c), (classify c'); done. }
  rewrite Hoc. by rewrite IH.
Qed.

Lemma loop_span_brackets code code' cnt :
  Forall2 (λ c c', bracket_delta c = bracket_delta c') code code' →
  loop_span code cnt = loop_span code' cnt.
Proof.
  intros H. unfold loop_span.
  by rewrite (find_loop_end_brackets (drop (S cnt) code) (drop (S cnt) code'))
    by by apply Forall2_drop.
Qed.

(** Over characters that are no brackets the scan goes on to the [']']. *)
Lemma find_loop_end_plain body rest loop_end :
  Forall (λ c, bracket_delta c = 0) body →
  find_loop_end (body ++ "]"%char :: rest) 1 loop_end
  = (0, (loop_end + length body)%nat).
Proof.
  intros H. revert loop_end.
  induction H as [|c body Hc _ IH]; intros e.
  - simpl. f_equal. lia.
  - simpl. rewrite bracket_delta_classify in Hc.
    destruct (classify c); try done; simpl; rewrite IH; f_equal; lia.
Qed.

Lemma loop_span_plain body rest :
  Forall (λ c, bracket_delta c = 0) body →
  loop_span ("["%char :: body ++ "]"%char :: rest) 0
  = Some (S (length body)).
Proof.
  intros H. unfold loop_span. simpl drop. rewrite drop_0.
  by rewrite find_loop_end_plain by done.
Qed.

Section Skipped.
Context {W : Type}.
Variable char_signed : bool.
Variable brainfuck : brainfuck_t W.
Implicit Types st : store W.

Lemma iterations_zero body k st st' :
  load st = Some 0 →
  iterations char_signed brainfuck body k st st' → k = 0%nat ∧ st' = st.
Proof.
  intros Hz H. inversion H as [|? ? v ? ? Hl Hv]; subst; [done|].
  rewrite Hz in Hl. by inversion Hl.
Qed.

Lemma block_gives_skipped body st :
  loop_span ("["%char :: body ++ ["]"%char]) 0 = Some (S (length body)) →
  load st = Some 0 →
  block_gives char_signed brainfuck ("["%char :: body ++ ["]"%char]) st
    (Returned 0 st).
Proof.
  intros Hspan Hz. apply block_gives_scan.
  apply (scan_gives_loop_exit _ _ _ 0 (S (length body)) 0 st st);
    [done|done|constructor|done|].
  apply scan_gives_end; [|done].
  apply lookup_ge_None. simpl. rewrite length_app. simpl. lia.
Qed.

End Skipped.

(** * Further properties of the engine *)

(** ** What every run keeps *)

Lemma uses_only_loop_body allowed code cnt len :
  uses_only allowed code → uses_only allowed (loop_body code cnt len).
Proof. intros H. unfold loop_body. by apply Forall_take, Forall_drop. Qed.

Section Keeps.
Context {W : Type}.
Variable char_signed : bool.
Variable brainfuck : brainfuck_t W.
Variable allowed : token → Prop.
Variable safe : bool.
Variable I : store W → Prop.

(** [I] is kept by every instruction of the block; with [safe], it also
    makes every cell access defined. *)
Hypothesis I_step : ∀ t st st',
  allowed t → I st →
  simple_instr char_signed brainfuck t st = Some st' → I st'.
Hypothesis I_defined : ∀ t st,
  safe = true → allowed t → I st →
  simple_instr char_signed brainfuck t st ≠ None.
Hypothesis I_load : ∀ st, safe = true → I st → load st ≠ None.

Lemma run_loop_keeps (exec : list ascii → store W → outcome W) f body st :
  (∀ s, I s → outcome_sat safe I (exec body s)) → I st →
  match run_loop exec f body st with
  | Exit s => I s
  | Abort o => outcome_sat safe I o
  end.
Proof.
  intros Hexec. revert st. induction f as [|f IH]; intros st Hst; [done|].
  simpl. destruct (load st) as [v|] eqn:Hl.
  2:{ simpl. destruct safe eqn:Hs; [|done]. by destruct (I_load st). }
  destruct (v =? 0); [done|].
  specialize (Hexec st Hst).
  destruct (exec body st) as [r s| |]; [|done|done].
  destruct (r =? 0); [by apply IH|done].
Qed.

Lemma scan_keeps (exec : list ascii → store W → outcome W) f code cnt st :
  uses_only allowed code →
  (∀ c s, uses_only allowed c → I s → outcome_sat safe I (exec c s)) →
  I st → outcome_sat safe I (scan char_signed brainfuck exec f code cnt st).
Proof.
  intros Hcode Hexec. revert cnt st.
  induction f as [|f IH]; intros cnt st Hst; [done|].
  simpl. destruct (code !! cnt) as [cur|] eqn:Hc; [|done].
  assert (Hcur : allowed (classify cur))
    by apply (Forall_lookup_1 _ _ _ _ Hcode Hc).
  assert (Hsimple :
    outcome_sat safe I
      match simple_instr char_signed brainfuck (classify cur) st with
      | Some st' => scan char_signed brainfuck exec f code (S cnt) st'
      | None => Undefined
      end).
  { destruct (simple_instr _ _ _ st) as [st'|] eqn:Hi.
    - apply IH. by eapply I_step.
    - simpl. destruct safe eqn:Hs; [|done].
      by destruct (I_defined (classify cur) st). }
  destruct (classify cur) eqn:Hcl; try exact Hsimple; try done.
  destruct (loop_span code cnt) as [len|]; [|done].
  pose proof (run_loop_keeps exec f (loop_body code cnt len) st) as Hl.
  destruct (run_loop exec f _ st) as [s|o].
  - apply IH, Hl; [|done]. intros s' Hs'.
    by apply Hexec; [apply uses_only_loop_body|].
  - apply Hl; [|done]. intros s' Hs'.
    by apply Hexec; [apply uses_only_loop_body|].
Qed.

Lemma block_keeps f code st :
  uses_only allowed code → I st →
  outcome_sat safe I (do_brainfuck_block char_signed brainfuck f code st).
Proof.
  revert code st. induction f as [|f IH]; intros code st Hcode Hst; [done|].
  rewrite block_S. unfold scan_from. apply scan_keeps; [done| |done].
  intros c s Hc Hs. by apply IH.
Qed.

End Keeps.

(** ** What one instruction keeps *)

Section Instr.
Context {W : Type}.
Variable char_signed : bool.
Variable brainfuck : brainfuck_t W.
Implicit Types st : store W.

Lemma store_cell_inv v st st' :
  store_cell v st = Some st' → load st ≠ None ∧ st' = set_cell v st.
Proof.
  unfold store_cell. destruct (load st); [|done]. by intros [= <-].
Qed.

Lemma bytes_ok_set_cell v st :
  0 ≤ v < 256 → bytes_ok st → bytes_ok (set_cell v st).
Proof.
  intros Hv H. unfold bytes_ok, set_cell. simpl.
  by apply Forall_insert.
Qed.

Lemma to_byte_range v : 0 ≤ to_byte v < 256.
Proof. unfold to_byte. apply Z.mod_pos_bound. lia. Qed.

(** The shape of the tape: its length, and that its cells are bytes. *)
Lemma simple_instr_shape t st st' :
  simple_instr char_signed brainfuck t st = Some st' →
  length (mem st') = length (mem st) ∧ (bytes_ok st → bytes_ok st').
Proof.
  unfold simple_instr. destruct t; try (by intros [= <-]).
  - destruct (load st) as [v|]; [|done]. simpl.
    intros [_ ->]%store_cell_inv. split; [apply length_insert|].
    apply bytes_ok_set_cell, to_byte_range.
  - destruct (load st) as [v|]; [|done]. simpl.
    intros [_ ->]%store_cell_inv. split; [apply length_insert|].
    apply bytes_ok_set_cell, to_byte_range.
  - destruct (load st) as [v|]; [|done]. simpl. by intros [= <-].
  - destruct (input brainfuck (world st)) as [c w].
    intros [_ ->]%store_cell_inv. split; [apply length_insert|].
    intros H. by apply bytes_ok_set_cell; [apply to_byte_range|].
Qed.

(** Only [>] and [<] move the pointer. *)
Lemma simple_instr_pointer t st st' :
  t ≠ TRight → t ≠ TLeft →
  simple_instr char_signed brainfuck t st = Some st' →
  the_pointer st' = the_pointer st.
Proof.
  intros Hr Hl. unfold simple_instr. destruct t; try done;
    try (by intros [= <-]).
  - destruct (load st) as [v|]; [|done]. simpl.
    by intros [_ ->]%store_cell_inv.
  - destruct (load st) as [v|]; [|done]. simpl.
    by intros [_ ->]%store_cell_inv.
  - destruct (load st) as [v|]; [|done]. simpl. by intros [= <-].
  - destruct (input brainfuck (world st)) as [c w].
    by intros [_ ->]%store_cell_inv.
Qed.

(** No instruction writes a cell other than the current one. *)
Lemma simple_instr_frame t st st' i :
  i ≠ Z.to_nat (the_pointer st) →
  simple_instr char_signed brainfuck t st = Some st' →
  mem st' !! i = mem st !! i.
Proof.
  intros Hi. unfold simple_instr. destruct t; try (by intros [= <-]).
  - destruct (load st) as [v|]; [|done]. simpl.
    intros [_ ->]%store_cell_inv. by apply list_lookup_insert_ne.
  - destruct (load st) as [v|]; [|done]. simpl.
    intros [_ ->]%store_cell_inv. by apply list_lookup_insert_ne.
  - destruct (load st) as [v|]; [|done]. simpl. by intros [= <-].
  - destruct (input brainfuck (world st)) as [c w].
    intros [_ ->]%store_cell_inv. by apply list_lookup_insert_ne.
Qed.

(** Only [.] and [,] touch the world. *)
Lemma simple_instr_world t st st' :
  t ≠ TDot → t ≠ TComma →
  simple_instr char_signed brainfuck t st = Some st' →
  world st' = world st.
Proof.
  intros Hd Hc. unfold simple_instr. destruct t; try done;
    try (by intros [= <-]).
  - destruct (load st) as [v|]; [|done]. simpl.
    by intros [_ ->]%store_cell_inv.
  - destruct (load st) as [v|]; [|done]. simpl.
    by intros [_ ->]%store_cell_inv.
Qed.

(** With the pointer inside [mem] every instruction is defined. *)
Lemma simple_instr_in_range t st :
  in_range st → simple_instr char_signed brainfuck t st ≠ None.
Proof.
  intros Hin.
  assert (Hl : ∀ w, load (set_world w st) ≠ None).
  { intros w H. apply load_None in H. by destruct H. }
  assert (Hl' : load st ≠ None).
  { intros H. apply load_None in H. by destruct H. }
  unfold simple_instr. destruct t; try done.
  - destruct (load st) as [v|] eqn:E; [|done]. simpl.
    unfold store_cell. by rewrite E.
  - destruct (load st) as [v|] eqn:E; [|done]. simpl.
    unfold store_cell. by rewrite E.
  - by destruct (load st) as [v|] eqn:E.
  - destruct (input brainfuck (world st)) as [c w].
    unfold store_cell. specialize (Hl w). by destruct (load (set_world w st)).
Qed.

End Instr.

(** The standard hooks only append to the output and only take from the
    front of the input. *)
Lemma simple_instr_stdio cs t (st st' : store stdio) :
  simple_instr cs std_hooks t st = Some st' →
  stdout (world st) `prefix_of` stdout (world st') ∧
  stdin (world st') `suffix_of` stdin (world st) ∧
  (t ≠ TDot → stdout (world st') = stdout (world st)) ∧
  (t ≠ TComma → stdin (world st') = stdin (world st)).
Proof.
  unfold simple_instr. destruct t; try (by intros [= <-]).
  - destruct (load st) as [v|]; [|done]. simpl.
    by intros [_ ->]%store_cell_inv.
  - destruct (load st) as [v|]; [|done]. simpl.
    by intros [_ ->]%store_cell_inv.
  - destruct (load st) as [v|]; [|done]. simpl. intros [= <-]. simpl.
    repeat split; [by apply prefix_app_r|done|done].
  - unfold input, std_hooks, getchar.
    destruct (stdin (world st)) as [|b bs] eqn:E.
    + intros [_ ->]%store_cell_inv. simpl. by rewrite E.
    + intros [_ ->]%store_cell_inv. simpl.
      repeat split; try done. by apply suffix_cons_r.
Qed.

(** The store of [do_brainfuck] at the start. *)
Lemma in_range_init {W : Type} (w : W) : in_range (init_store w).
Proof.
  unfold in_range. rewrite length_mem_init. unfold MAX_BRAINFUCK.
  change (the_pointer (init_store w)) with 0. lia.
Qed.

Lemma bytes_ok_init {W : Type} (w : W) : bytes_ok (init_store w).
Proof.
  unfold bytes_ok, init_store. cbn [mem]. apply Forall_replicate. lia.
Qed.

(** ** Blocks without brackets *)

Section StraightLine.
Context {W : Type}.
Variable char_signed : bool.
Variable brainfuck : brainfuck_t W.
Implicit Types st : store W.

(** The scan of a block without brackets and illegal characters needs one
    unit of fuel per character and one to see the end. *)
Lemma scan_straight (exec : list ascii → store W → outcome W) code k m st :
  uses_only (λ t, is_simple t = true) code → (k ≤ length code)%nat →
  scan char_signed brainfuck exec (S k + m) code (length code - k) st
  = finished (straight char_signed brainfuck (drop (length code - k) code) st).
Proof.
  intros Hcode. revert st. induction k as [|k IH]; intros st Hk.
  - rewrite Nat.sub_0_r, drop_all. simpl.
    by rewrite (proj2 (lookup_ge_None code (length code))).
  - destruct (lookup_lt_is_Some_2 code (length code - S k)) as [c Hc]; [lia|].
    rewrite (drop_S _ c) by done.
    change (S (S k) + m)%nat with (S (S k + m)).
    rewrite (scan_S_simple _ _ _ _ _ _ _ c);
      [|done|apply (Forall_lookup_1 _ _ _ _ Hcode Hc)].
    simpl straight.
    destruct (simple_instr _ _ _ st) as [st'|]; [|done].
    replace (S (length code - S k)) with (length code - k)%nat by lia.
    apply IH. lia.
Qed.

Lemma block_straight code fuel st :
  uses_only (λ t, is_simple t = true) code →
  (length code + 2 ≤ fuel)%nat →
  do_brainfuck_block char_signed brainfuck fuel code st
  = finished (straight char_signed brainfuck code st).
Proof.
  intros Hcode Hfuel.
  destruct fuel as [|fuel]; [lia|]. rewrite block_S. unfold scan_from.
  pose proof (scan_straight (do_brainfuck_block char_signed brainfuck fuel)
                code (length code) (fuel - S (length code)) st Hcode) as H.
  rewrite Nat.sub_diag, drop_0 in H.
  replace (S (length code) + (fuel - S (length code)))%nat with fuel in H
    by lia.
  by apply H.
Qed.

Lemma block_gives_straight code st :
  uses_only (λ t, is_simple t = true) code →
  block_gives char_signed brainfuck code st
    (finished (straight char_signed brainfuck code st)).
Proof.
  intros Hcode. split.
  - by destruct (straight _ _ code st).
  - exists (length code + 2)%nat. by apply block_straight.
Qed.

Lemma straight_blank code st :
  uses_only (λ t, t = TBlank) code →
  straight char_signed brainfuck code st = Some st.
Proof.
  induction 1 as [|c code Hc _ IH]; [done|]. simpl. by rewrite Hc.
Qed.

Lemma straight_app code code' st :
  straight char_signed brainfuck (code ++ code') st
  = straight char_signed brainfuck code st
      ≫= straight char_signed brainfuck code'.
Proof.
  revert st. induction code as [|c code IH]; intros st; [done|].
  simpl. destruct (simple_instr _ _ _ st); [apply IH|done].
Qed.

End StraightLine.

(** ** Blocks in front of and behind other blocks *)

Lemma find_loop_end_offset rest open_cnt loop_end a :
  find_loop_end rest open_cnt (a + loop_end)
  = (fst (find_loop_end rest open_cnt loop_end),
     (a + snd (find_loop_end rest open_cnt loop_end))%nat).
Proof.
  revert open_cnt loop_end. induction rest as [|c rest IH]; intros oc e.
  - done.
  - simpl. case_match; [done|].
    rewrite <- IH. f_equal. lia.
Qed.

(** The scan for the end of a loop does not look in front of the loop. *)
Lemma loop_span_app_r pre post cnt :
  loop_span (pre ++ post) (length pre + cnt) = loop_span post cnt.
Proof.
  unfold loop_span.
  replace (S (length pre + cnt)) with (length pre + S cnt)%nat by lia.
  rewrite drop_app_add, find_loop_end_offset.
  destruct (find_loop_end (drop (S cnt) post) 1 (S cnt)) as [oc e] eqn:E.
  simpl. case_match; [|done].
  f_equal. lia.
Qed.

Lemma loop_body_app_r pre post cnt len :
  loop_body (pre ++ post) (length pre + cnt) len = loop_body post cnt len.
Proof.
  unfold loop_body.
  replace (S (length pre + cnt)) with (length pre + S cnt)%nat by lia.
  by rewrite drop_app_add.
Qed.

(** Where the scan for the end of a loop stops. *)
Lemma find_loop_end_bound rest open_cnt loop_end e :
  open_cnt ≠ 0 → find_loop_end rest open_cnt loop_end = (0, e) →
  (loop_end ≤ e < loop_end + length rest)%nat.
Proof.
  revert open_cnt loop_end. induction rest as [|c rest IH]; intros oc le Hoc.
  - simpl. by intros [= -> _].
  - simpl. case_match eqn:E.
    + intros [= _ <-]. lia.
    + intros H. apply IH in H; [lia|]. by apply Z.eqb_neq in E.
Qed.

(** The scan that has found the end of a loop does not look behind it. *)
Lemma find_loop_end_app rest extra open_cnt loop_end e :
  open_cnt ≠ 0 → find_loop_end rest open_cnt loop_end = (0, e) →
  find_loop_end (rest ++ extra) open_cnt loop_end = (0, e).
Proof.
  revert open_cnt loop_end. induction rest as [|c rest IH]; intros oc le Hoc.
  - simpl. by intros [= -> _].
  - simpl. case_match eqn:E; [done|].
    apply IH. by apply Z.eqb_neq in E.
Qed.

Lemma loop_span_bound code cnt len :
  loop_span code cnt = Some len → (0 < len ∧ cnt + len < length code)%nat.
Proof.
  unfold loop_span.
  destruct (find_loop_end (drop (S cnt) code) 1 (S cnt)) as [oc e] eqn:E.
  destruct (Z.eqb_spec oc 0) as [->|]; [|done]. intros [= <-].
  apply find_loop_end_bound in E; [|done]. rewrite length_drop in E. lia.
Qed.

Lemma loop_span_app_l pre post cnt len :
  loop_span pre cnt = Some len → loop_span (pre ++ post) cnt = Some len.
Proof.
  intros H. pose proof (loop_span_bound _ _ _ H) as Hb.
  unfold loop_span in *.
  rewrite drop_app_le by lia.
  destruct (find_loop_end (drop (S cnt) pre) 1 (S cnt)) as [oc e] eqn:E.
  destruct (Z.eqb_spec oc 0) as [->|]; [|done].
  by rewrite (find_loop_end_app _ _ _ _ e).
Qed.

Lemma loop_body_app_l pre post cnt len :
  (cnt + len ≤ length pre)%nat →
  loop_body (pre ++ post) cnt len = loop_body pre cnt len.
Proof.
  intros H. unfold loop_body.
  destruct (decide (len = 0)%nat) as [->|Hlen]; [done|].
  rewrite drop_app_le by lia. apply take_app_le. rewrite length_drop. lia.
Qed.

Section Sequence.
Context {W : Type}.
Variable char_signed : bool.
Variable brainfuck : brainfuck_t W.
Implicit Types st : store W.

Local Abbreviation block := (do_brainfuck_block char_signed brainfuck).

(** The scan of a block behind another is the scan of the block alone. *)
Lemma scan_app_r (exec : list ascii → store W → outcome W) f pre post cnt st :
  scan char_signed brainfuck exec f (pre ++ post) (length pre + cnt) st
  = scan char_signed brainfuck exec f post cnt st.
Proof.
  revert cnt st. induction f as [|f IH]; intros cnt st; [done|].
  simpl. rewrite lookup_app_r by lia.
  replace (length pre + cnt - length pre)%nat with cnt by lia.
  destruct (post !! cnt) as [cur|]; [|done].
  rewrite loop_span_app_r.
  replace (S (length pre + cnt)) with (length pre + S cnt)%nat by lia.
  destruct (classify cur); rewrite ?IH; try done;
    try (destruct (simple_instr _ _ _ st); [apply IH|done]).
  destruct (loop_span post cnt) as [len|]; [|done].
  rewrite loop_body_app_r.
  replace (length pre + cnt + (len + 1))%nat
    with (length pre + (cnt + (len + 1)))%nat by lia.
  destruct (run_loop exec f _ st); [apply IH|done].
Qed.

Lemma scan_gives_app_r pre post cnt st o :
  scan_gives char_signed brainfuck (pre ++ post) (length pre + cnt) st o
  ↔ scan_gives char_signed brainfuck post cnt st o.
Proof.
  unfold scan_gives, scan_from.
  split; intros [Ho [f Hf]]; (split; [done|]); exists f.
  - by rewrite <- (scan_app_r _ _ pre).
  - by rewrite scan_app_r.
Qed.

Lemma run_loop_abort_nonzero (exec : list ascii → store W → outcome W)
  f body st r s :
  run_loop exec f body st = Abort (Returned r s) → r ≠ 0.
Proof.
  revert st. induction f as [|f IH]; intros st; [done|].
  simpl. destruct (load st) as [v|]; [|done].
  destruct (v =? 0); [done|].
  destruct (exec body st) as [r' s'| |]; [|done|done].
  destruct (Z.eqb_spec r' 0); [apply IH|].
  intros H. by inversion H; subst.
Qed.

(** How the scan goes on from a matched loop whose [while] has ended. *)
Lemma scan_gives_after_loop code cnt len st r o :
  code !! cnt = Some "["%char → loop_span code cnt = Some len →
  loop_gives char_signed brainfuck (loop_body code cnt len) st r →
  scan_gives char_signed brainfuck code cnt st o
  ↔ after_loop char_signed brainfuck code cnt len r o.
Proof.
  intros Hc Hspan Hr.
  rewrite (scan_gives_loop _ _ _ _ _ "["%char len) by done.
  split.
  - intros (r' & Hr' & Ha).
    by rewrite (loop_gives_det _ _ _ _ _ _ Hr Hr').
  - intros Ha. by exists r.
Qed.

Lemma prefix_outcome_step code n cnt cnt' st st' o1 :
  (∀ o, scan_gives char_signed brainfuck code cnt st o
        ↔ scan_gives char_signed brainfuck code cnt' st' o) →
  prefix_outcome char_signed brainfuck code n cnt' st' o1 →
  prefix_outcome char_signed brainfuck code n cnt st o1.
Proof.
  intros Hstep. unfold prefix_outcome.
  destruct o1 as [r s| |]; [|by rewrite Hstep|done].
  destruct (r =? 0).
  - intros H o. by rewrite Hstep.
  - intros H Hr. by apply Hstep, H.
Qed.

Lemma scan_prefix e f pre post cnt st :
  (cnt ≤ length pre)%nat →
  prefix_outcome char_signed brainfuck (pre ++ post) (length pre) cnt st
    (scan char_signed brainfuck (block e) f pre cnt st).
Proof.
  revert cnt st. induction f as [|f IH]; intros cnt st Hcnt; [done|].
  simpl. destruct (pre !! cnt) as [cur|] eqn:Hc.
  2:{ apply lookup_ge_None in Hc. assert (cnt = length pre) as -> by lia.
      simpl. done. }
  assert (Hlt : (cnt < length pre)%nat) by by eapply lookup_lt_Some.
  assert (Hc' : (pre ++ post) !! cnt = Some cur) by by apply lookup_app_l_Some.
  assert (Hsimple : is_simple (classify cur) = true →
    prefix_outcome char_signed brainfuck (pre ++ post) (length pre) cnt st
      match simple_instr char_signed brainfuck (classify cur) st with
      | Some st' => scan char_signed brainfuck (block e) f pre (S cnt) st'
      | None => Undefined
      end).
  { intros Hs. destruct (simple_instr _ _ _ st) as [st'|] eqn:Hi.
    - apply (prefix_outcome_step _ _ _ (S cnt) _ st'); [|apply IH; lia].
      intros o. by apply (scan_gives_simple _ _ _ _ _ cur).
    - simpl. by apply (scan_gives_undefined _ _ _ _ _ cur). }
  destruct (classify cur) eqn:Hcl; try (by apply Hsimple).
  - apply classify_open in Hcl. subst cur.
    destruct (loop_span pre cnt) as [len|] eqn:Hspan; [|done].
    pose proof (loop_span_bound _ _ _ Hspan) as Hb.
    pose proof (loop_span_app_l pre post cnt len Hspan) as Hspan'.
    assert (Hgives : ∀ r g, r ≠ Abort OutOfFuel →
      run_loop (block e) g (loop_body pre cnt len) st = r →
      loop_gives char_signed brainfuck (loop_body (pre ++ post) cnt len) st r).
    { intros r g Hr Hrun. rewrite loop_body_app_l by lia.
      by eapply loop_gives_intro. }
    destruct (run_loop (block e) f (loop_body pre cnt len) st)
      as [s|o'] eqn:Hrun.
    + apply (prefix_outcome_step _ _ _ (cnt + (len + 1)) _ s);
        [|apply IH; lia].
      intros o.
      by apply (scan_gives_after_loop _ _ len _ (Exit s));
        [| |apply (Hgives _ f)].
    + destruct o' as [r s| |]; [| |done].
      * simpl. rewrite (proj2 (Z.eqb_neq r 0))
          by by eapply run_loop_abort_nonzero.
        intros _.
        by apply (scan_gives_after_loop _ _ len _ (Abort (Returned r s)));
          [| |apply (Hgives _ f)|].
      * simpl.
        by apply (scan_gives_after_loop _ _ len _ (Abort Undefined));
          [| |apply (Hgives _ f)|].
  - simpl. intros _. by apply (scan_gives_close _ _ _ _ _ cur).
  - simpl. intros _. by apply (scan_gives_illegal _ _ _ _ _ cur).
Qed.

(** When the whole block ends, so does its prefix. *)
Lemma scan_prefix_ends e f pre post cnt st :
  (cnt ≤ length pre)%nat →
  scan char_signed brainfuck (block e) f (pre ++ post) cnt st ≠ OutOfFuel →
  ∃ o1, scan_gives char_signed brainfuck pre cnt st o1.
Proof.
  revert cnt st. induction f as [|f IH]; intros cnt st Hcnt; [done|].
  destruct (pre !! cnt) as [cur|] eqn:Hc.
  2:{ intros _. exists (Returned 0 st). by apply scan_gives_end. }
  assert (Hlt : (cnt < length pre)%nat) by by eapply lookup_lt_Some.
  simpl. rewrite (lookup_app_l_Some _ _ _ _ Hc).
  assert (Hsimple : is_simple (classify cur) = true →
    match simple_instr char_signed brainfuck (classify cur) st with
    | Some st' =>
        scan char_signed brainfuck (block e) f (pre ++ post) (S cnt) st'
    | None => Undefined
    end ≠ OutOfFuel →
    ∃ o1, scan_gives char_signed brainfuck pre cnt st o1).
  { intros Hs. destruct (simple_instr _ _ _ st) as [st'|] eqn:Hi.
    - intros H. apply IH in H as [o1 H1]; [|lia]. exists o1.
      by apply (scan_gives_simple _ _ _ _ _ cur _ _ Hc Hs Hi).
    - intros _. exists Undefined.
      by apply (scan_gives_undefined _ _ _ _ _ cur). }
  destruct (classify cur) eqn:Hcl; try (by apply Hsimple).
  - apply classify_open in Hcl. subst cur.
    destruct (loop_span pre cnt) as [len|] eqn:Hspan.
    2:{ intros _. exists (Returned (-2) st).
        by apply (scan_gives_unmatched _ _ _ _ _ "["%char). }
    pose proof (loop_span_bound _ _ _ Hspan) as Hb.
    rewrite (loop_span_app_l pre post cnt len Hspan).
    rewrite loop_body_app_l by lia.
    destruct (run_loop (block e) f (loop_body pre cnt len) st)
      as [s|o'] eqn:Hrun.
    + intros H. apply IH in H as [o1 H1]; [|lia]. exists o1.
      apply (scan_gives_after_loop _ _ len _ (Exit s)); [done|done| |done].
      by eapply loop_gives_intro.
    + intros H. exists o'.
      apply (scan_gives_after_loop _ _ len _ (Abort o')); [done|done| |done].
      eapply loop_gives_intro; [|done]. by intros [= ->].
  - intros _. exists (Returned (-3) st).
    by apply (scan_gives_close _ _ _ _ _ cur).
  - intros _. exists (Returned (-4) st).
    by apply (scan_gives_illegal _ _ _ _ _ cur).
Qed.

End Sequence.

(** ** Loops around balanced bodies *)

Lemma depth_ok_spec d code :
  0 ≤ d → depth_ok d code = true →
  depth_from d code = 0 ∧ ∀ k, 0 ≤ depth_from d (take k code).
Proof.
  revert d. induction code as [|c code IH]; intros d Hd; simpl.
  - intros ->%Z.eqb_eq. split; [done|]. intros k. by rewrite take_nil.
  - intros [Hc Hok]%andb_prop. apply Z.leb_le in Hc.
    destruct (IH _ Hc Hok) as [Hz Hpos]. split; [done|].
    intros [|k]; [simpl; lia|]. apply Hpos.
Qed.

Lemma depth_ok_balanced code : depth_ok 0 code = true → balanced code.
Proof.
  intros H. destruct (depth_ok_spec 0 code ltac:(lia) H) as [Hz Hpos].
  split; [|exact Hpos]. unfold prefix_depth. by rewrite take_ge.
Qed.

Lemma loop_of_body body rest :
  loop_body (loop_of body rest) 0 (S (length body)) = body.
Proof.
  unfold loop_body, loop_of. simpl. rewrite Nat.sub_0_r, drop_0.
  by rewrite take_app_length.
Qed.

Lemma loop_of_app body rest :
  loop_of body rest = loop_of body [] ++ rest.
Proof. unfold loop_of. simpl. by rewrite <- app_assoc. Qed.

Lemma length_loop_of body rest :
  length (loop_of body rest) = (length body + length rest + 2)%nat.
Proof. unfold loop_of. simpl. rewrite length_app. simpl. lia. Qed.

(** Around a balanced body the matching scan finds the [']'] behind it. *)
Lemma loop_span_balanced body rest :
  Z.of_nat (length (loop_of body rest)) ≤ SIZE_MAX → balanced body →
  loop_span (loop_of body rest) 0 = Some (S (length body)).
Proof.
  intros Hmax [Hz Hpos].
  pose proof (length_loop_of body rest) as Hlen.
  apply (loop_span_iff (loop_of body rest) 0 Hmax); [lia|].
  assert (Hd : ∀ j, (j ≤ length body)%nat →
            depth_at (loop_of body rest) 0 j = 1 + prefix_depth body j).
  { intros j Hj. unfold depth_at, loop_of, prefix_depth. simpl.
    rewrite Nat.sub_0_r, drop_0, take_app_le by done.
    apply depth_from_shift. }
  repeat split; [lia|lia| |].
  - simpl. replace (S (length body)) with (S (length body) - 0)%nat by lia.
    change (depth_at (loop_of body rest) 0 (S (length body)) = 0).
    rewrite depth_at_S by lia. rewrite Hd by lia.
    unfold delta_at, loop_of. simpl.
    rewrite lookup_app_r by lia. rewrite Nat.sub_diag. simpl.
    change (bracket_delta "]") with (-1). lia.
  - intros j Hj. rewrite Hd by lia. specialize (Hpos j). lia.
Qed.

(** ** Sequences and loops *)

Section LoopLaws.
Context {W : Type}.
Variable char_signed : bool.
Variable brainfuck : brainfuck_t W.
Implicit Types st : store W.

Local Abbreviation block := (do_brainfuck_block char_signed brainfuck).

Lemma block_gives_app pre post st :
  (∀ o, block_gives char_signed brainfuck (pre ++ post) st o →
        ∃ o1, block_gives char_signed brainfuck pre st o1) ∧
  (∀ s, block_gives char_signed brainfuck pre st (Returned 0 s) →
        ∀ o, block_gives char_signed brainfuck (pre ++ post) st o
             ↔ block_gives char_signed brainfuck post s o) ∧
  (∀ r s, block_gives char_signed brainfuck pre st (Returned r s) →
          r ≠ 0 → r ≠ -2 →
          block_gives char_signed brainfuck (pre ++ post) st (Returned r s)) ∧
  (block_gives char_signed brainfuck pre st Undefined →
   block_gives char_signed brainfuck (pre ++ post) st Undefined).
Proof.
  assert (Hpre : ∀ o1, block_gives char_signed brainfuck pre st o1 →
    prefix_outcome char_signed brainfuck (pre ++ post) (length pre) 0 st o1).
  { intros o1 [Ho [f Hf]]. destruct f as [|f]; [by subst|].
    rewrite block_S in Hf. unfold scan_from in Hf. rewrite <- Hf.
    apply scan_prefix. lia. }
  split; [|split; [|split]].
  - intros o [Ho [f Hf]]. destruct f as [|f]; [by subst|].
    rewrite block_S in Hf. unfold scan_from in Hf.
    destruct (scan_prefix_ends char_signed brainfuck f f pre post 0 st)
      as [o1 H1]; [lia|by rewrite Hf|].
    exists o1. by apply block_gives_scan.
  - intros s Hb o. specialize (Hpre _ Hb). simpl in Hpre.
    rewrite !block_gives_scan, Hpre.
    rewrite <- (Nat.add_0_r (length pre)). apply scan_gives_app_r.
  - intros r s Hb Hr Hr2. specialize (Hpre _ Hb). simpl in Hpre.
    rewrite (proj2 (Z.eqb_neq r 0)) in Hpre by done.
    by apply block_gives_scan, Hpre.
  - intros Hb. specialize (Hpre _ Hb). by apply block_gives_scan.
Qed.

(** The first iteration of a [while] that is entered. *)
Lemma loop_gives_first body st v r :
  load st = Some v → v ≠ 0 →
  loop_gives char_signed brainfuck body st r →
  ∃ o1, block_gives char_signed brainfuck body st o1 ∧
    ((∃ s1, o1 = Returned 0 s1 ∧
            loop_gives char_signed brainfuck body s1 r)
     ∨ ((∀ s, o1 ≠ Returned 0 s) ∧ r = Abort o1)).
Proof.
  intros Hl Hv [Hr [f Hf]]. destruct f as [|f]; [by subst|].
  unfold loop_from in Hf. simpl in Hf.
  rewrite Hl, (proj2 (Z.eqb_neq v 0)) in Hf by done.
  destruct (block (S f) body st) as [ret s| |] eqn:Hb.
  - destruct (Z.eqb_spec ret 0) as [->|Hret].
    + exists (Returned 0 s). split; [split; [done|by exists (S f)]|].
      left. exists s. split; [done|]. by eapply loop_gives_intro.
    + exists (Returned ret s). split; [split; [done|by exists (S f)]|].
      right. split; [|done]. intros s' [= ? ?]. done.
  - exists Undefined. split; [split; [done|by exists (S f)]|].
    right. by split.
  - by subst.
Qed.

(** A [while] whose test never fails and whose body always returns 0 does
    not end. *)
Lemma run_loop_never_ends (J : store W → Prop) e f body st :
  (∀ s, J s → ∃ v, load s = Some v ∧ v ≠ 0) →
  (∀ s o, J s → block_gives char_signed brainfuck body s o →
          ∃ s', o = Returned 0 s' ∧ J s') →
  J st → run_loop (block e) f body st = Abort OutOfFuel.
Proof.
  intros Htest Hbody. revert st. induction f as [|f IH]; intros st HJ; [done|].
  simpl. destruct (Htest st HJ) as (v & -> & Hv).
  rewrite (proj2 (Z.eqb_neq v 0)) by done.
  destruct (block e body st) as [ret s| |] eqn:Hb; [| |done].
  - destruct (Hbody st (Returned ret s) HJ) as (s' & [= -> ->] & HJ').
    { split; [done|by exists e]. }
    simpl. by apply IH.
  - destruct (Hbody st Undefined HJ) as (s' & ? & _); [|done].
    split; [done|by exists e].
Qed.

End LoopLaws.

(** ** Whitespace *)

Lemma find_loop_end_split rest open_cnt loop_end :
  open_cnt ≠ 0 →
  match split_loop rest open_cnt with
  | Some (body, behind) =>
      find_loop_end rest open_cnt loop_end = (0, (loop_end + length body)%nat)
      ∧ ∃ c, rest = body ++ c :: behind
  | None => fst (find_loop_end rest open_cnt loop_end) ≠ 0
  end.
Proof.
  revert open_cnt loop_end. induction rest as [|c rest IH]; intros oc e Hoc.
  - done.
  - simpl.
    set (oc' := match classify c with
                | TOpen => size_wrap (oc + 1)
                | TClose => size_wrap (oc - 1)
                | _ => oc
                end).
    destruct (Z.eqb_spec oc' 0) as [Hz|Hnz].
    + simpl. split; [by rewrite Hz, Nat.add_0_r|]. by exists c.
    + specialize (IH oc' (S e) Hnz).
      destruct (split_loop rest oc') as [[body behind]|].
      * destruct IH as [-> [c' ->]]. simpl. split; [f_equal; lia|].
        by exists c'.
      * done.
Qed.

(** The span, the body and the rest of a loop, by [split_loop]. *)
Lemma loop_split code cnt :
  match split_loop (drop (S cnt) code) 1 with
  | Some (body, behind) =>
      loop_span code cnt = Some (S (length body)) ∧
      loop_body code cnt (S (length body)) = body ∧
      drop (cnt + (S (length body) + 1)) code = behind
  | None => loop_span code cnt = None
  end.
Proof.
  pose proof (find_loop_end_split (drop (S cnt) code) 1 (S cnt)) as H.
  unfold loop_span, loop_body.
  destruct (split_loop (drop (S cnt) code) 1) as [[body behind]|].
  - destruct H as [-> [c Hc]]; [done|].
    rewrite Z.eqb_refl.
    split; [f_equal; lia|]. split.
    + replace (S (length body) - 1)%nat with (length body) by lia.
      rewrite Hc. by rewrite take_app_length.
    + replace (cnt + (S (length body) + 1))%nat
        with (S cnt + (length body + 1))%nat by lia.
      rewrite <- drop_drop, Hc.
      replace (length body + 1)%nat with (length (body ++ [c]))
        by (rewrite length_app; simpl; lia).
      replace (body ++ c :: behind) with ((body ++ [c]) ++ behind)
        by (by rewrite <- app_assoc).
      apply drop_app_length.
  - destruct (find_loop_end (drop (S cnt) code) 1 (S cnt)) as [oc e].
    simpl in H. specialize (H ltac:(done)).
    by destruct (Z.eqb_spec oc 0).
Qed.

Lemma blank_or_not t : t = TBlank ∨ t ≠ TBlank.
Proof. destruct t; (by left) || (by right). Qed.

Lemma strip_blank c code :
  classify c = TBlank → strip (c :: code) = strip code.
Proof. intros H. simpl. by rewrite H. Qed.

Lemma strip_keep c code :
  classify c ≠ TBlank → strip (c :: code) = c :: strip code.
Proof. intros H. simpl. by destruct (classify c). Qed.

Lemma strip_no_blank code : Forall (λ c, classify c ≠ TBlank) (strip code).
Proof.
  induction code as [|c code IH]; [constructor|].
  simpl. destruct (classify c) eqn:E; try done; constructor; try done;
    by rewrite E.
Qed.

Lemma strip_strip code : strip (strip code) = strip code.
Proof.
  induction code as [|c code IH]; [done|].
  simpl. destruct (classify c) eqn:E; try done; simpl; by rewrite E, IH.
Qed.

(** Whitespace does not count in the matching scan. *)
Lemma split_loop_strip rest open_cnt :
  open_cnt ≠ 0 →
  split_loop (strip rest) open_cnt
  = match split_loop rest open_cnt with
    | Some (body, behind) => Some (strip body, strip behind)
    | None => None
    end.
Proof.
  revert open_cnt. induction rest as [|c rest IH]; intros oc Hoc; [done|].
  destruct (classify c) eqn:E;
    try (rewrite strip_keep by (by rewrite E); simpl; rewrite E;
         match goal with
         | |- context [?x =? 0] =>
             destruct (Z.eqb_spec x 0) as [Hz|Hnz]; [done|];
             rewrite (IH _ Hnz);
             destruct (split_loop rest x) as [[b r]|]; [|done];
             simpl; by rewrite E
         end).
  rewrite strip_blank by done. simpl. rewrite E.
  rewrite (proj2 (Z.eqb_neq oc 0)) by done. rewrite (IH _ Hoc).
  destruct (split_loop rest oc) as [[b r]|]; [|done].
  by rewrite strip_blank.
Qed.

Lemma split_loop_strip_eq rest rest' :
  strip rest = strip rest' →
  match split_loop rest 1, split_loop rest' 1 with
  | Some (b, r), Some (b', r') => strip b = strip b' ∧ strip r = strip r'
  | None, None => True
  | _, _ => False
  end.
Proof.
  intros H.
  pose proof (split_loop_strip rest 1 ltac:(done)) as H1.
  pose proof (split_loop_strip rest' 1 ltac:(done)) as H2.
  rewrite H, H2 in H1.
  destruct (split_loop rest 1) as [[b r]|], (split_loop rest' 1) as [[b' r']|];
    try done.
  by injection H1 as -> ->.
Qed.

Section Strip.
Context {W : Type}.
Variable char_signed : bool.
Variable brainfuck : brainfuck_t W.
Implicit Types st : store W.

Local Abbreviation block := (do_brainfuck_block char_signed brainfuck).

(** The scan passes over the whitespace in front of the next character. *)
Lemma scan_gives_skip_blanks code cnt st c t m :
  (length code - cnt ≤ m)%nat →
  strip (drop cnt code) = c :: t →
  ∃ k, code !! k = Some c ∧ strip (drop (S k) code) = t ∧
       ∀ o, scan_gives char_signed brainfuck code cnt st o
            ↔ scan_gives char_signed brainfuck code k st o.
Proof.
  revert cnt. induction m as [|m IH]; intros cnt Hm Hs.
  - rewrite drop_ge in Hs by lia. done.
  - destruct (code !! cnt) as [c0|] eqn:Hc.
    2:{ apply lookup_ge_None in Hc. by rewrite drop_ge in Hs by lia. }
    rewrite (drop_S _ c0) in Hs by done.
    assert (Hlt : (cnt < length code)%nat) by by eapply lookup_lt_Some.
    destruct (blank_or_not (classify c0)) as [Hb|Hb].
    + rewrite strip_blank in Hs by done.
      destruct (IH (S cnt) ltac:(lia) Hs) as (k & Hk & Hd & Hiff).
      exists k. split; [done|]. split; [done|]. intros o.
      rewrite <- Hiff.
      apply (scan_gives_simple _ _ _ _ _ c0); [done|by rewrite Hb|].
      by rewrite Hb.
    + rewrite strip_keep in Hs by done. injection Hs as -> Ht.
      by exists cnt.
Qed.

(** Behind the last character that is no whitespace the scan ends. *)
Lemma scan_gives_blank_end code cnt st m :
  (length code - cnt ≤ m)%nat →
  strip (drop cnt code) = [] →
  scan_gives char_signed brainfuck code cnt st (Returned 0 st).
Proof.
  revert cnt. induction m as [|m IH]; intros cnt Hm Hs.
  - apply scan_gives_end; [|done]. apply lookup_ge_None. lia.
  - destruct (code !! cnt) as [c0|] eqn:Hc.
    2:{ by apply scan_gives_end. }
    rewrite (drop_S _ c0) in Hs by done.
    assert (Hlt : (cnt < length code)%nat) by by eapply lookup_lt_Some.
    destruct (blank_or_not (classify c0)) as [Hb|Hb].
    + rewrite strip_blank in Hs by done.
      apply (scan_gives_simple _ _ _ _ _ c0 st); [done|by rewrite Hb| |].
      * by rewrite Hb.
      * apply IH; [lia|done].
    + by rewrite strip_keep in Hs.
Qed.

Lemma run_loop_strip e f b b' st x :
  (∀ c c' s o, strip c = strip c' → block e c s = o → o ≠ OutOfFuel →
               block_gives char_signed brainfuck c' s o) →
  strip b = strip b' →
  run_loop (block e) f b st = x → x ≠ Abort OutOfFuel →
  loop_gives char_signed brainfuck b' st x.
Proof.
  intros Hexec Hb. revert st. induction f as [|f IH]; intros st Hrun Hx.
  - by subst.
  - simpl in Hrun. destruct (load st) as [v|] eqn:Hl.
    2:{ subst x. by apply loop_gives_undefined. }
    destruct (Z.eqb_spec v 0) as [->|Hv].
    { subst x. by apply loop_gives_exit. }
    destruct (block e b st) as [ret s| |] eqn:Hblock.
    + pose proof (Hexec b b' st _ Hb Hblock ltac:(done)) as Hg.
      destruct (Z.eqb_spec ret 0) as [->|Hret].
      * apply (loop_gives_again _ _ _ _ v s); [done|done|done|].
        by apply IH.
      * subst x. apply (loop_gives_abort _ _ _ _ v (Returned ret s));
          try done.
        intros s' [= ? ?]. done.
    + pose proof (Hexec b b' st _ Hb Hblock ltac:(done)) as Hg.
      subst x. by apply (loop_gives_abort _ _ _ _ v Undefined).
    + by subst x.
Qed.

Lemma scan_strip e f code code' cnt cnt' st o :
  (∀ c c' s o, strip c = strip c' → block e c s = o → o ≠ OutOfFuel →
               block_gives char_signed brainfuck c' s o) →
  strip (drop cnt code) = strip (drop cnt' code') →
  scan char_signed brainfuck (block e) f code cnt st = o → o ≠ OutOfFuel →
  scan_gives char_signed brainfuck code' cnt' st o.
Proof.
  intros Hexec. revert cnt cnt' st.
  induction f as [|f IH]; intros cnt cnt' st Hs Hrun Ho; [by subst|].
  simpl in Hrun. destruct (code !! cnt) as [cur|] eqn:Hc.
  2:{ subst o. apply lookup_ge_None in Hc. rewrite (drop_ge code) in Hs by done.
      apply (scan_gives_blank_end _ _ _ (length code')); [lia|].
      by rewrite <- Hs. }
  rewrite (drop_S _ cur) in Hs by done.
  destruct (blank_or_not (classify cur)) as [Hb|Hb].
  { rewrite strip_blank in Hs by done. rewrite Hb in Hrun.
    by apply (IH (S cnt) cnt' st). }
  rewrite strip_keep in Hs by done.
  destruct (scan_gives_skip_blanks code' cnt' st cur _ (length code')
              ltac:(lia) (eq_sym Hs)) as (k & Hk & Hd & Hiff).
  apply Hiff. clear Hiff Hs.
  assert (Hsimple : is_simple (classify cur) = true →
    match simple_instr char_signed brainfuck (classify cur) st with
    | Some st' => scan char_signed brainfuck (block e) f code (S cnt) st'
    | None => Undefined
    end = o →
    scan_gives char_signed brainfuck code' k st o).
  { intros Hsim Hr.
    destruct (simple_instr _ _ (classify cur) st) as [st'|] eqn:Hi.
    - apply (scan_gives_simple _ _ _ _ _ cur st'); [done..|].
      by apply (IH (S cnt) (S k) st'); [rewrite Hd| |].
    - subst o. by apply (scan_gives_undefined _ _ _ _ _ cur). }
  destruct (classify cur) eqn:Hcl; try (by apply Hsimple).
  - apply classify_open in Hcl. subst cur.
    pose proof (loop_split code cnt) as Hsp.
    pose proof (loop_split code' k) as Hsp'.
    pose proof (split_loop_strip_eq _ _ (eq_sym Hd)) as Heq.
    destruct (split_loop (drop (S cnt) code) 1) as [[b r]|],
             (split_loop (drop (S k) code') 1) as [[b' r']|]; try done.
    + destruct Hsp as (Hspan & Hbody & Hrest).
      destruct Hsp' as (Hspan' & Hbody' & Hrest').
      destruct Heq as [Hb1 Hr1].
      rewrite Hspan, Hbody in Hrun.
      destruct (run_loop (block e) f b st) as [s|o'] eqn:Hloop.
      * apply (scan_gives_after_loop _ _ _ _ _ _ (Exit s) _ Hk Hspan').
        { rewrite Hbody'. by apply (run_loop_strip e f b). }
        simpl. apply (IH _ _ _ ltac:(by rewrite Hrest, Hrest') Hrun Ho).
      * subst o'.
        apply (scan_gives_after_loop _ _ _ _ _ _ (Abort o) _ Hk Hspan');
          [|done].
        rewrite Hbody'. apply (run_loop_strip e f b); [done..|].
        by intros [= ->].
    + rewrite Hsp in Hrun. subst o.
      by apply (scan_gives_unmatched _ _ _ _ _ "["%char).
  - subst o. by apply (scan_gives_close _ _ _ _ _ cur).
  - subst o. by apply (scan_gives_illegal _ _ _ _ _ cur).
Qed.

Lemma block_strip e b b' st o :
  strip b = strip b' →
  block e b st = o → o ≠ OutOfFuel →
  block_gives char_signed brainfuck b' st o.
Proof.
  revert b b' st o. induction e as [|e IH]; intros b b' st o Hs Hrun Ho.
  - by subst.
  - rewrite block_S in Hrun. unfold scan_from in Hrun.
    apply block_gives_scan.
    by apply (scan_strip e e b b' 0 0 st o IH).
Qed.

End Strip.

(** ** The signedness of [char] *)

(** [putchar] undoes the promotion of a byte to [int]. *)
Lemma putchar_byte_to_int cs v w :
  0 ≤ v < 256 → putchar (byte_to_int cs v) w = putchar v w.
Proof.
  intros Hv. unfold putchar, byte_to_int. do 3 f_equal.
  destruct (cs && (128 <=? v)); [|done].
  replace (v - 256) with (v + (-1) * 256) by lia.
  by rewrite Z.mod_add.
Qed.

Lemma load_byte {W : Type} (st : store W) v :
  bytes_ok st → load st = Some v → 0 ≤ v < 256.
Proof.
  intros Hb [_ Hl]%load_Some.
  exact (Forall_lookup_1 _ _ _ _ Hb Hl).
Qed.

Lemma simple_instr_signed cs t (st : store stdio) :
  bytes_ok st →
  simple_instr cs std_hooks t st = simple_instr false std_hooks t st.
Proof.
  intros Hb. unfold simple_instr. destruct t; try done.
  destruct (load st) as [v|] eqn:Hl; [|done]. simpl.
  by rewrite putchar_byte_to_int by by eapply load_byte.
Qed.

Lemma run_loop_signed (e1 e2 : list ascii → store stdio → outcome stdio)
  f body st :
  (∀ s, bytes_ok s → e1 body s = e2 body s) →
  (∀ s, bytes_ok s → outcome_sat false bytes_ok (e1 body s)) →
  bytes_ok st →
  run_loop e1 f body st = run_loop e2 f body st.
Proof.
  intros Heq Hok. revert st. induction f as [|f IH]; intros st Hst; [done|].
  simpl. destruct (load st) as [v|]; [|done].
  destruct (v =? 0); [done|].
  rewrite <- (Heq st Hst). specialize (Hok st Hst).
  destruct (e1 body st) as [r s| |]; [|done|done].
  destruct (r =? 0); [by apply IH|done].
Qed.

Lemma scan_signed cs (e1 e2 : list ascii → store stdio → outcome stdio)
  f code cnt st :
  (∀ c s, bytes_ok s → e1 c s = e2 c s) →
  (∀ c s, bytes_ok s → outcome_sat false bytes_ok (e1 c s)) →
  bytes_ok st →
  scan cs std_hooks e1 f code cnt st = scan false std_hooks e2 f code cnt st.
Proof.
  intros Heq Hok. revert cnt st.
  induction f as [|f IH]; intros cnt st Hst; [done|].
  simpl. destruct (code !! cnt) as [cur|]; [|done].
  assert (Hsimple : ∀ t,
    match simple_instr cs std_hooks t st with
    | Some st' => scan cs std_hooks e1 f code (S cnt) st'
    | None => Undefined
    end
    = match simple_instr false std_hooks t st with
      | Some st' => scan false std_hooks e2 f code (S cnt) st'
      | None => Undefined
      end).
  { intros t. rewrite (simple_instr_signed cs) by done.
    destruct (simple_instr false std_hooks t st) as [st'|] eqn:Hi; [|done].
    apply IH. by apply (simple_instr_shape _ _ _ _ _ Hi). }
  destruct (classify cur); try apply Hsimple; try done;
    try (by apply IH).
  destruct (loop_span code cnt) as [len|]; [|done].
  rewrite <- (run_loop_signed e1 e2) by auto.
  pose proof (run_loop_keeps cs std_hooks (λ _, True) false bytes_ok
                ltac:(done) ltac:(done) e1 f (loop_body code cnt len) st)
    as Hl.
  destruct (run_loop e1 f _ st) as [s|o]; [|done].
  apply IH, Hl; auto.
Qed.

Lemma block_signed cs f code st :
  bytes_ok st →
  do_brainfuck_block cs std_hooks f code st
  = do_brainfuck_block false std_hooks f code st.
Proof.
  revert code st. induction f as [|f IH]; intros code st Hst; [done|].
  rewrite !block_S. unfold scan_from. apply scan_signed; [auto| |done].
  intros c s Hs.
  apply (block_keeps cs std_hooks (λ _, True)); try done.
  - intros t s1 s2 _ H1 Hi. by apply (simple_instr_shape _ _ _ _ _ Hi).
  - by apply Forall_forall.
Qed.

(** ** Blocks of legal characters *)

Lemma uses_only_legal code :
  Forall (λ c, c ∈ instruction_chars ∨ c ∈ whitespace_chars) code →
  uses_only (λ t, t ≠ TIllegal) code.
Proof.
  intros H. eapply Forall_impl; [exact H|].
  intros c Hc E. apply classify_illegal in E. destruct E. by destruct Hc.
Qed.

Section Legal.
Context {W : Type}.
Variable char_signed : bool.
Variable brainfuck : brainfuck_t W.
Implicit Types st : store W.

(** Status -4 is returned for an illegal character only. *)
Lemma run_loop_legal (exec : list ascii → store W → outcome W) f body st
  ret st' :
  (∀ s r s', exec body s = Returned r s' → r ≠ -4) →
  run_loop exec f body st = Abort (Returned ret st') → ret ≠ -4.
Proof.
  intros Hexec. revert st. induction f as [|f IH]; intros st; [done|].
  simpl. destruct (load st) as [v|]; [|done].
  destruct (v =? 0); [done|].
  destruct (exec body st) as [r s| |] eqn:He; [|done|done].
  destruct (r =? 0); [apply IH|].
  intros H. inversion H; subst. by eapply Hexec.
Qed.

Lemma scan_legal (exec : list ascii → store W → outcome W) f code cnt st
  ret st' :
  uses_only (λ t, t ≠ TIllegal) code →
  (∀ c s r s', uses_only (λ t, t ≠ TIllegal) c →
               exec c s = Returned r s' → r ≠ -4) →
  scan char_signed brainfuck exec f code cnt st = Returned ret st' →
  ret ≠ -4.
Proof.
  intros Hcode Hexec. revert cnt st.
  induction f as [|f IH]; intros cnt st; [done|].
  simpl. destruct (code !! cnt) as [cur|] eqn:Hc.
  2:{ intros H. by inversion H. }
  pose proof (Forall_lookup_1 _ _ _ _ Hcode Hc) as Hcur. simpl in Hcur.
  destruct (classify cur); try apply IH;
    try (destruct (simple_instr _ _ _ st); [apply IH|done]).
  - destruct (loop_span code cnt) as [len|].
    2:{ intros H. by inversion H. }
    destruct (run_loop exec f _ st) as [s|o] eqn:Hl; [apply IH|].
    intros ->. eapply run_loop_legal; [|exact Hl].
    intros s r s'. by apply Hexec, uses_only_loop_body.
  - intros H. by inversion H.
  - done.
Qed.

Lemma block_legal f code st ret st' :
  uses_only (λ t, t ≠ TIllegal) code →
  do_brainfuck_block char_signed brainfuck f code st = Returned ret st' →
  ret ≠ -4.
Proof.
  revert code st ret st'.
  induction f as [|f IH]; intros code st ret st' Hcode; [done|].
  rewrite block_S. unfold scan_from. apply scan_legal; [done|].
  intros c s r s'. apply IH.
Qed.

End Legal.

(** ** Loops that leave the pointer in place *)

Lemma move_delta_classify c :
  move_delta c = match classify c with TRight => 1 | TLeft => -1 | _ => 0 end.
Proof.
  unfold move_delta.
  destruct (Ascii.eqb_spec c ">") as [->|Hr]; [done|].
  destruct (Ascii.eqb_spec c "<") as [->|Hl]; [done|].
  destruct (classify c) eqn:E; try done; revert E; classify_cases c; done.
Qed.

Lemma net_moves_app pre post :
  net_moves (pre ++ post) = net_moves pre + net_moves post.
Proof.
  induction pre as [|c pre IH]; [done|].
  simpl. fold (net_moves (pre ++ post)). fold (net_moves pre). lia.
Qed.

Lemma net_moves_loop_of body rest :
  net_moves (loop_of body rest) = net_moves body + net_moves rest.
Proof.
  unfold loop_of. change ("["%char :: body ++ "]"%char :: rest)
    with (["["%char] ++ body ++ ["]"%char] ++ rest).
  by rewrite !net_moves_app.
Qed.

Section Neutral.
Context {W : Type}.
Variable char_signed : bool.
Variable brainfuck : brainfuck_t W.
Implicit Types st : store W.

(** Each instruction moves the pointer by its [move_delta]. *)
Lemma simple_instr_moves c st st' :
  simple_instr char_signed brainfuck (classify c) st = Some st' →
  the_pointer st' = the_pointer st + move_delta c.
Proof.
  rewrite move_delta_classify. unfold simple_instr.
  destruct (classify c); try (intros [= <-]; simpl; lia).
  - destruct (load st) as [v|]; [|done]. simpl.
    intros [_ ->]%store_cell_inv. simpl. lia.
  - destruct (load st) as [v|]; [|done]. simpl.
    intros [_ ->]%store_cell_inv. simpl. lia.
  - destruct (load st) as [v|]; [|done]. simpl. intros [= <-]. simpl. lia.
  - destruct (input brainfuck (world st)) as [x w].
    intros [_ ->]%store_cell_inv. simpl. lia.
Qed.

(** The first instruction of a block, and the rest. *)
Lemma block_gives_cons c rest st o :
  is_simple (classify c) = true →
  block_gives char_signed brainfuck (c :: rest) st o ↔
  match simple_instr char_signed brainfuck (classify c) st with
  | Some st1 => block_gives char_signed brainfuck rest st1 o
  | None => o = Undefined
  end.
Proof.
  intros Hc. rewrite block_gives_scan.
  destruct (simple_instr char_signed brainfuck (classify c) st) as [st1|]
    eqn:Hi.
  - rewrite (scan_gives_simple _ _ _ _ _ c st1) by done.
    rewrite block_gives_scan.
    apply (scan_gives_app_r char_signed brainfuck [c] rest 0).
  - by apply (scan_gives_undefined _ _ _ _ _ c).
Qed.

(** A loop in front of a block, and the rest. *)
Lemma block_gives_loop_of body rest st o :
  Z.of_nat (length (loop_of body rest)) ≤ SIZE_MAX → balanced body →
  block_gives char_signed brainfuck (loop_of body rest) st o ↔
  ∃ r, loop_gives char_signed brainfuck body st r ∧
       match r with
       | Exit s => block_gives char_signed brainfuck rest s o
       | Abort o' => o = o'
       end.
Proof.
  intros Hmax Hbal.
  pose proof (loop_span_balanced body rest Hmax Hbal) as Hspan.
  rewrite block_gives_scan.
  rewrite (scan_gives_loop _ _ _ _ _ "["%char (S (length body))) by done.
  rewrite loop_of_body.
  assert (Hrest : ∀ s,
    scan_gives char_signed brainfuck (loop_of body rest)
      (0 + (S (length body) + 1)) s o
    ↔ block_gives char_signed brainfuck rest s o).
  { intros s. rewrite block_gives_scan, loop_of_app.
    replace (0 + (S (length body) + 1))%nat
      with (length (loop_of body []) + 0)%nat
      by (rewrite length_loop_of; simpl; lia).
    apply scan_gives_app_r. }
  split; intros (r & Hr & Ha); exists r; (split; [done|]);
    destruct r as [s|o']; try done; simpl in *; by apply Hrest.
Qed.

(** A [while] whose body returns 0 and leaves the pointer in place does
    so itself. *)
Lemma loop_gives_pointer body st r :
  (∀ s ret s', block_gives char_signed brainfuck body s (Returned ret s') →
               ret = 0 ∧ the_pointer s' = the_pointer s) →
  loop_gives char_signed brainfuck body st r →
  match r with
  | Exit s => the_pointer s = the_pointer st
  | Abort (Returned _ _) => False
  | Abort _ => True
  end.
Proof.
  intros Hbody [Hr [f Hf]]. unfold loop_from in Hf. clear Hr. subst r.
  generalize f at 1. intros e.
  assert (He : ∀ s ret s',
    do_brainfuck_block char_signed brainfuck e body s = Returned ret s' →
    ret = 0 ∧ the_pointer s' = the_pointer s).
  { intros s ret s' Hb. apply Hbody. split; [done|by exists e]. }
  clear Hbody. revert st. induction f as [|f IH]; intros st; [done|].
  simpl. destruct (load st) as [v|]; [|done].
  destruct (v =? 0); [done|].
  destruct (do_brainfuck_block char_signed brainfuck e body st)
    as [ret s| |] eqn:Hb; [|done|done].
  destruct (He st ret s Hb) as [-> Hp]. simpl.
  specialize (IH s). rewrite Hp in IH. exact IH.
Qed.

End Neutral.

(** ** Blocks that stay inside the tape *)

Lemma moves_within_here n p code :
  moves_within n p code = true → 0 ≤ p < n.
Proof. destruct code; simpl; lia. Qed.

Lemma moves_within_cons n p c rest :
  moves_within n p (c :: rest) = true →
  moves_within n (p + move_delta c) rest = true.
Proof. simpl. by intros [_ H]%andb_prop. Qed.

Lemma moves_within_app n p pre post :
  moves_within n p (pre ++ post) = true →
  moves_within n p pre = true ∧
  moves_within n (p + net_moves pre) post = true.
Proof.
  revert p. induction pre as [|c pre IH]; intros p H.
  - simpl. rewrite Z.add_0_r. split; [|done].
    apply moves_within_here in H. lia.
  - pose proof (moves_within_here _ _ _ H) as Hp.
    apply moves_within_cons in H. destruct (IH _ H) as [H1 H2].
    split.
    + simpl. rewrite H1. lia.
    + simpl. fold (net_moves pre). by rewrite Z.add_assoc.
Qed.

Lemma moves_within_loop_of n p body rest :
  moves_within n p (loop_of body rest) = true →
  moves_within n p body = true ∧
  moves_within n (p + net_moves body) rest = true.
Proof.
  intros H. unfold loop_of in H.
  apply moves_within_cons in H. change (move_delta "[") with 0 in H.
  rewrite Z.add_0_r in H.
  apply moves_within_app in H as [H1 H2]. split; [done|].
  apply moves_within_cons in H2. change (move_delta "]") with 0 in H2.
  by rewrite Z.add_0_r in H2.
Qed.

Section Safe.
Context {W : Type}.
Variable char_signed : bool.
Variable brainfuck : brainfuck_t W.
Implicit Types st : store W.

(** A [while] on stores where the test is defined and the body returns
    0. *)
Lemma loop_gives_exits (I : store W → Prop) body st r :
  (∀ s, I s → load s ≠ None) →
  (∀ s o, I s → block_gives char_signed brainfuck body s o →
          ∃ s', o = Returned 0 s' ∧ I s') →
  I st → loop_gives char_signed brainfuck body st r →
  ∃ s, r = Exit s ∧ I s.
Proof.
  intros Hload Hbody Hst [Hr [f Hf]]. unfold loop_from in Hf.
  revert Hf. generalize f at 1. intros e. revert st Hst.
  induction f as [|f IH]; intros st Hst Hf; [by subst|].
  simpl in Hf. specialize (Hload st Hst).
  destruct (load st) as [v|]; [|done].
  destruct (v =? 0); [by exists st|].
  destruct (do_brainfuck_block char_signed brainfuck e body st)
    as [ret s| |] eqn:Hb.
  - destruct (Hbody st (Returned ret s) Hst) as (s' & [= -> ->] & Hs').
    { split; [done|by exists e]. }
    simpl in Hf. by apply (IH s').
  - destruct (Hbody st Undefined Hst) as (s' & ? & _); [|done].
    split; [done|by exists e].
  - by subst r.
Qed.

End Safe.

(** ** The entry point *)

Lemma length_codes_read f block :
  length (codes_read f block) = Z.to_nat (ftell f).
Proof.
  unfold codes_read. rewrite length_app, length_map, length_seq.
  rewrite length_take. lia.
Qed.

(** A stream that [ftell] sizes and [fread] reads whole. *)
Lemma codes_read_whole f block :
  ftell f = Z.of_nat (length (fread f)) → codes_read f block = fread f.
Proof.
  intros H. unfold codes_read. rewrite H, Nat2Z.id.
  rewrite take_ge by done. rewrite Nat.sub_diag. simpl.
  by rewrite app_nil_r.
Qed.

Lemma main_usage cs fuel os argv w :
  length argv ≠ 2%nat → main cs fuel os argv w = Exited (-1) w.
Proof.
  intros H. unfold main. by rewrite (proj2 (Nat.eqb_neq _ _) H).
Qed.

Lemma main_no_file cs fuel os argv w path :
  length argv = 2%nat → argv !! 1%nat = Some path → fopen os path = None →
  main cs fuel os argv w = ExitUndefined.
Proof.
  intros Hlen Hpath Hf. unfold main.
  by rewrite (proj2 (Nat.eqb_eq _ _) Hlen), Hpath, Hf.
Qed.

Lemma main_no_size cs fuel os argv w path f :
  length argv = 2%nat → argv !! 1%nat = Some path → fopen os path = Some f →
  ftell f < 0 ∨ LONG_MAX ≤ ftell f →
  main cs fuel os argv w = ExitUndefined.
Proof.
  intros Hlen Hpath Hf Hsize. unfold main.
  rewrite (proj2 (Nat.eqb_eq _ _) Hlen), Hpath, Hf. simpl.
  destruct (Z.ltb_spec (ftell f) 0); [done|].
  destruct (Z.leb_spec LONG_MAX (ftell f)); [done|lia].
Qed.

Lemma main_no_block cs fuel os argv w path f :
  length argv = 2%nat → argv !! 1%nat = Some path → fopen os path = Some f →
  malloc os (Z.to_nat (ftell f + 1)) = None →
  main cs fuel os argv w = ExitUndefined.
Proof.
  intros Hlen Hpath Hf Hm. unfold main.
  rewrite (proj2 (Nat.eqb_eq _ _) Hlen), Hpath, Hf, Hm. simpl.
  by destruct (_ || _).
Qed.

Lemma main_file cs fuel os argv w path f block :
  length argv = 2%nat → argv !! 1%nat = Some path → fopen os path = Some f →
  0 ≤ ftell f < LONG_MAX →
  malloc os (Z.to_nat (ftell f + 1)) = Some block →
  main cs fuel os argv w =
  match do_brainfuck_block cs std_hooks fuel (codes_read f block)
          (init_store w) with
  | Returned ret st => Exited ret (world st)
  | Undefined => ExitUndefined
  | OutOfFuel => ExitOutOfFuel
  end.
Proof.
  intros Hlen Hpath Hf Hsize Hm. unfold main.
  rewrite (proj2 (Nat.eqb_eq _ _) Hlen), Hpath, Hf, Hm. simpl.
  destruct (Z.ltb_spec (ftell f) 0); [lia|].
  destruct (Z.leb_spec LONG_MAX (ftell f)); [lia|]. simpl.
  unfold do_brainfuck. rewrite length_app, length_codes_read. simpl.
  destruct (Nat.ltb_spec (Z.to_nat (ftell f) + 1) (Z.to_nat (ftell f)));
    [lia|].
  rewrite <- (length_codes_read f block) at 1.
  by rewrite take_app_length.
Qed.

(** * The properties of the specification *)

(** C1. Behind a ['['] at index [i] of a block the engine looks for the end
    of the loop with a depth counter that starts at 1, goes up on ['['] and
    down on [']']: the loop ends at [i + len] exactly when that is the first
    position where the counter is 0, and when the counter is 0 nowhere up to
    the end of the block the engine returns -2, the status of an unmatched
    ['['], leaving the store as it is. *)
Theorem loop_matching_depth_counter {W : Type} (char_signed : bool)
  (brainfuck : brainfuck_t W) (code : list ascii) (i : nat) :
  Z.of_nat (length code) ≤ SIZE_MAX →
  code !! i = Some "["%char →
  (∀ len, loop_span code i = Some len ↔ first_closing code i len) ∧
  (loop_span code i = None ↔ never_closed code i) ∧
  (never_closed code i →
   ∀ st o, scan_gives char_signed brainfuck code i st o
            ↔ o = Returned (-2) st).
Proof.
  intros Hmax Hc.
  assert (Hi : (i < length code)%nat) by by eapply lookup_lt_Some.
  destruct (loop_span_iff code i Hmax Hi) as [Hsome Hnone].
  split; [exact Hsome|]. split; [exact Hnone|].
  intros Hn st o.
  apply (scan_gives_unmatched _ _ _ _ _ "["%char); [done|done|].
  by apply Hnone.
Qed.

Lemma loop_matching_depth_counter_witness :
  Z.of_nat (length (script "[+[-]]+")) ≤ SIZE_MAX ∧
  script "[+[-]]+" !! 0%nat = Some "["%char ∧
  (∀ len, loop_span (script "[+[-]]+") 0 = Some len
          ↔ first_closing (script "[+[-]]+") 0 len) ∧
  (loop_span (script "[+[-]]+") 0 = None
   ↔ never_closed (script "[+[-]]+") 0) ∧
  (never_closed (script "[+[-]]+") 0 →
   ∀ st o, scan_gives true std_hooks (script "[+[-]]+") 0 st o
            ↔ o = Returned (-2) st).
Proof.
  split; [vm_compute; discriminate|]. split; [reflexivity|].
  apply (loop_matching_depth_counter true std_hooks (script "[+[-]]+") 0).
  - vm_compute; discriminate.
  - reflexivity.
Defined.



(** C3. When the body of a loop returns a status other than 0 in some
    iteration, the loop makes no further iteration and the block returns
    that status with the store the body has left; the same status and store
    come back from every enclosing call of the engine, up to
    [do_brainfuck]. *)
Theorem loop_abort_propagates {W : Type} (char_signed : bool)
  (brainfuck : brainfuck_t W) (ret : Z) :
  ret ≠ 0 →
  (∀ code cnt len k st st1 v st2,
     code !! cnt = Some "["%char → loop_span code cnt = Some len →
     iterations char_signed brainfuck (loop_body code cnt len) k st st1 →
     load st1 = Some v → v ≠ 0 →
     block_gives char_signed brainfuck (loop_body code cnt len) st1
       (Returned ret st2) →
     scan_gives char_signed brainfuck code cnt st (Returned ret st2)) ∧
  (∀ outer st0 inner st st',
     calls char_signed brainfuck outer st0 inner st →
     block_gives char_signed brainfuck inner st (Returned ret st') →
     block_gives char_signed brainfuck outer st0 (Returned ret st')) ∧
  (∀ code n w inner st st',
     (n ≤ length code)%nat →
     calls char_signed std_hooks (take n code) (init_store w) inner st →
     block_gives char_signed std_hooks inner st (Returned ret st') →
     ∃ fuel, do_brainfuck char_signed fuel code n w = Returned ret st').
Proof.
  intros Hret. split; [|split].
  - intros code cnt len k st st1 v st2 Hc Hspan Hit Hl Hv Hb.
    eapply scan_gives_loop_abort; [done..|].
    intros s [= -> ->]. done.
  - intros outer st0 inner st st' Hcalls Hb. by eapply calls_propagate.
  - intros code n w inner st st' Hn Hcalls Hb.
    destruct (calls_propagate _ _ _ _ _ _ _ _ Hcalls Hb Hret) as [_ [f Hf]].
    exists f. unfold do_brainfuck.
    destruct (Nat.ltb_spec (length code) n); [lia|done].
Qed.

Lemma loop_abort_propagates_witness :
  -4 ≠ 0 ∧
  (∀ code cnt len k st st1 v st2,
     code !! cnt = Some "["%char → loop_span code cnt = Some len →
     iterations true std_hooks (loop_body code cnt len) k st st1 →
     load st1 = Some v → v ≠ 0 →
     block_gives true std_hooks (loop_body code cnt len) st1
       (Returned (-4) st2) →
     scan_gives true std_hooks code cnt st (Returned (-4) st2)) ∧
  (∀ outer st0 inner st st',
     calls true std_hooks outer st0 inner st →
     block_gives true std_hooks inner st (Returned (-4) st') →
     block_gives true std_hooks outer st0 (Returned (-4) st')) ∧
  (∀ code n w inner st st',
     (n ≤ length code)%nat →
     calls true std_hooks (take n code) (init_store w) inner st →
     block_gives true std_hooks inner st (Returned (-4) st') →
     ∃ fuel, do_brainfuck true fuel code n w = Returned (-4) st').
Proof.
  split; [lia|]. apply (loop_abort_propagates true std_hooks (-4)). lia.
Defined.

(** C4. The script "[+" returns -2 with the tape untouched, and a script
    that starts with "+]" returns -3 with only the [+] executed and nothing
    read or written, whatever follows; the two statuses differ from each
    other and from 0. In any block, a [']'] that the scan comes to returns
    -3 with the store as it is at that point. *)
Theorem unmatched_brackets_detected (char_signed : bool) :
  (∀ w, do_brainfuck_gives char_signed (script "[+") 2 w
          (Returned (-2) (init_store w))) ∧
  (∀ w rest,
     do_brainfuck_gives char_signed (script "+]" ++ rest) (2 + length rest) w
       (Returned (-3) (set_cell 1 (init_store w)))) ∧
  (∀ w w' r1 r2 s1 s2,
     do_brainfuck_gives char_signed (script "[+") 2 w (Returned r1 s1) →
     do_brainfuck_gives char_signed (script "+]") 2 w' (Returned r2 s2) →
     r1 ≠ r2 ∧ r1 ≠ 0 ∧ r2 ≠ 0) ∧
  (∀ (W : Type) (brainfuck : brainfuck_t W) code cnt st o,
     code !! cnt = Some "]"%char →
     scan_gives char_signed brainfuck code cnt st o
     ↔ o = Returned (-3) st) ∧
  (∀ (W : Type) (brainfuck : brainfuck_t W) code st0 cnt st,
     reaches char_signed brainfuck code st0 cnt st →
     code !! cnt = Some "]"%char →
     block_gives char_signed brainfuck code st0 (Returned (-3) st)).
Proof.
  assert (Hopen : ∀ w, do_brainfuck_gives char_signed (script "[+") 2 w
                         (Returned (-2) (init_store w))).
  { intros w. apply do_brainfuck_gives_block; [simpl; lia|].
    apply block_gives_scan.
    by apply (scan_gives_unmatched _ _ _ _ _ "["%char). }
  assert (Hclose : ∀ w rest,
    do_brainfuck_gives char_signed (script "+]" ++ rest) (2 + length rest) w
      (Returned (-3) (set_cell 1 (init_store w)))).
  { intros w rest. apply do_brainfuck_gives_block; [simpl; lia|].
    rewrite take_ge by (simpl; lia).
    apply block_gives_scan.
    apply (scan_gives_simple _ _ _ _ _ "+"%char (set_cell 1 (init_store w)));
      [done|done| |].
    - by rewrite (simple_plus _ _ _ 0) by apply load_init.
    - by apply (scan_gives_close _ _ _ _ _ "]"%char). }
  split; [done|]. split; [done|]. split; [|split].
  - intros w w' r1 r2 s1 s2 H1 H2.
    pose proof (do_brainfuck_gives_det _ _ _ _ _ _ H1 (Hopen w)) as [= -> _].
    pose proof (do_brainfuck_gives_det _ _ _ _ _ _ H2 (Hclose w' []))
      as [= -> _].
    lia.
  - intros W bf code cnt st o Hc.
    by apply (scan_gives_close _ _ _ _ _ "]"%char).
  - intros W bf code st0 cnt st Hr Hc.
    apply block_gives_scan, (reaches_scan_gives _ _ _ _ _ _ _ Hr).
    by apply (scan_gives_close _ _ _ _ _ "]"%char).
Qed.

Lemma unmatched_brackets_detected_witness :
  script "+]." !! 1%nat = Some "]"%char ∧
  ∀ st o, scan_gives true std_hooks (script "+].") 1 st o
          ↔ o = Returned (-3) st.
Proof.
  split; [reflexivity|]. intros st o.
  apply (proj1 (proj2 (proj2 (proj2 (unmatched_brackets_detected true))))).
  reflexivity.
Defined.

(** C5. A character that is neither one of the eight instructions nor one of
    the six whitespace characters makes the block return -4 as soon as the
    scan comes to it, with the store as it is at that point, so nothing
    behind it is executed; a whitespace character is passed over and leaves
    the store as it is. *)
Theorem illegal_character_stops {W : Type} (char_signed : bool)
  (brainfuck : brainfuck_t W) :
  (∀ c code cnt st o,
     c ∉ instruction_chars → c ∉ whitespace_chars →
     code !! cnt = Some c →
     scan_gives char_signed brainfuck code cnt st o
     ↔ o = Returned (-4) st) ∧
  (∀ c code st0 cnt st,
     c ∉ instruction_chars → c ∉ whitespace_chars →
     reaches char_signed brainfuck code st0 cnt st →
     code !! cnt = Some c →
     block_gives char_signed brainfuck code st0 (Returned (-4) st)) ∧
  (∀ c code cnt st o,
     c ∈ whitespace_chars → code !! cnt = Some c →
     scan_gives char_signed brainfuck code cnt st o
     ↔ scan_gives char_signed brainfuck code (S cnt) st o).
Proof.
  split; [|split].
  - intros c code cnt st o Hi Hw Hc.
    apply (scan_gives_illegal _ _ _ _ _ c); [done|].
    by apply classify_illegal.
  - intros c code st0 cnt st Hi Hw Hr Hc.
    apply block_gives_scan, (reaches_scan_gives _ _ _ _ _ _ _ Hr).
    apply (scan_gives_illegal _ _ _ _ _ c);
      [done|by apply classify_illegal|done].
  - intros c code cnt st o Hw Hc. apply classify_blank in Hw.
    apply (scan_gives_simple _ _ _ _ _ c); [done|by rewrite Hw|by rewrite Hw].
Qed.

Lemma illegal_character_stops_witness :
  ("@"%char ∉ instruction_chars) ∧ ("@"%char ∉ whitespace_chars) ∧
  script "+@." !! 1%nat = Some "@"%char ∧
  ∀ st o, scan_gives true std_hooks (script "+@.") 1 st o
          ↔ o = Returned (-4) st.
Proof.
  assert (Hi : "@"%char ∉ instruction_chars)
    by (apply (bool_decide_unpack _); vm_compute; exact I).
  assert (Hw : "@"%char ∉ whitespace_chars)
    by (apply (bool_decide_unpack _); vm_compute; exact I).
  split; [exact Hi|]. split; [exact Hw|]. split; [reflexivity|].
  intros st o.
  apply (proj1 (illegal_character_stops true std_hooks) "@"%char);
    [exact Hi|exact Hw|reflexivity].
Defined.

(** C6. [+] and [-] add and subtract 1 in the current cell modulo 256.
    Run on a store whose current cell holds [v], the block "+" returns 0
    and leaves [(v + 1) mod 256] there, the block "-" leaves
    [(v - 1) mod 256], and neither changes another cell, the pointer or
    the world: 255 becomes 0 by [+] and 0 becomes 255 by [-]. A [+]
    followed by a [-] leaves every cell value, and the whole store, as it
    was; [k] times [+] add [k] modulo 256, so that 256 times [+] on a cell
    that holds 0 leave it at 0, in any store and in a run of
    [do_brainfuck]. *)
Theorem plus_minus_wrap_mod_256 {W : Type} (char_signed : bool)
  (brainfuck : brainfuck_t W) :
  (∀ st v, load st = Some v →
     ∃ s1 s2,
       block_gives char_signed brainfuck (script "+") st (Returned 0 s1) ∧
       cell_becomes ((v + 1) mod 256) st s1 ∧
       block_gives char_signed brainfuck (script "-") st (Returned 0 s2) ∧
       cell_becomes ((v - 1) mod 256) st s2) ∧
  (∀ st, load st = Some 255 →
     ∃ s1, block_gives char_signed brainfuck (script "+") st (Returned 0 s1)
           ∧ load s1 = Some 0) ∧
  (∀ st, load st = Some 0 →
     ∃ s2, block_gives char_signed brainfuck (script "-") st (Returned 0 s2)
           ∧ load s2 = Some 255) ∧
  (∀ st v, load st = Some v → 0 ≤ v < 256 →
     ∃ s1,
       block_gives char_signed brainfuck (script "+") st (Returned 0 s1) ∧
       load s1 = Some ((v + 1) mod 256) ∧
       block_gives char_signed brainfuck (script "-") s1 (Returned 0 st) ∧
       block_gives char_signed brainfuck (script "+-") st (Returned 0 st)) ∧
  (∀ st v (k : nat), load st = Some v → 0 ≤ v < 256 →
     ∃ sk,
       block_gives char_signed brainfuck (replicate k "+"%char) st
         (Returned 0 sk) ∧
       cell_becomes ((v + Z.of_nat k) mod 256) st sk) ∧
  (∀ st, load st = Some 0 →
     block_gives char_signed brainfuck (replicate 256 "+"%char) st
       (Returned 0 st)) ∧
  (∀ w, do_brainfuck_gives char_signed (replicate 256 "+"%char) 256 w
          (Returned 0 (init_store w))).
Proof.
  assert (Hone : ∀ st v, load st = Some v →
     ∃ s1 s2,
       block_gives char_signed brainfuck (script "+") st (Returned 0 s1) ∧
       cell_becomes ((v + 1) mod 256) st s1 ∧
       block_gives char_signed brainfuck (script "-") st (Returned 0 s2) ∧
       cell_becomes ((v - 1) mod 256) st s2).
  { intros st v Hl.
    exists (set_cell (to_byte (v + 1)) st), (set_cell (to_byte (v - 1)) st).
    split; [by apply block_gives_plus|].
    split; [by apply (cell_becomes_set_cell _ v)|].
    split; [by apply block_gives_minus|].
    by apply (cell_becomes_set_cell _ v). }
  assert (H256 : ∀ (V : Type) (bf : brainfuck_t V) (st : store V),
             load st = Some 0 →
             block_gives char_signed bf (replicate 256 "+"%char) st
               (Returned 0 st)).
  { intros V bf st Hl.
    pose proof (block_gives_pluses char_signed bf 256 st 0 Hl) as H.
    change ((0 + Z.of_nat 256) mod 256) with 0 in H.
    rewrite (set_cell_id _ 0) in H by done. apply H. lia. }
  split; [exact Hone|]. split; [|split; [|split; [|split; [|split]]]].
  - intros st Hl.
    destruct (Hone st 255 Hl) as (s1 & _ & H1 & (_ & Hl1 & _) & _).
    exists s1. by split.
  - intros st Hl.
    destruct (Hone st 0 Hl) as (_ & s2 & _ & _ & H2 & _ & Hl2 & _).
    exists s2. by split.
  - intros st v Hl Hv. exists (set_cell (to_byte (v + 1)) st).
    split; [by apply block_gives_plus|].
    split; [by apply (load_set_cell _ v)|].
    split; [|by apply (block_gives_plus_minus _ _ _ v)].
    pose proof (block_gives_minus char_signed brainfuck
                  (set_cell (to_byte (v + 1)) st) (to_byte (v + 1))
                  (load_set_cell _ v _ Hl)) as H.
    rewrite set_cell_set_cell in H.
    replace (to_byte (to_byte (v + 1) - 1)) with v in H.
    + by rewrite (set_cell_id _ v) in H.
    + unfold to_byte. rewrite Zminus_mod_idemp_l.
      rewrite Z.mod_small; lia.
  - intros st v k Hl Hv.
    exists (set_cell ((v + Z.of_nat k) mod 256) st).
    split; [by apply block_gives_pluses|].
    by apply (cell_becomes_set_cell _ v).
  - apply H256.
  - intros w. apply do_brainfuck_gives_block.
    + rewrite length_replicate. lia.
    + rewrite take_ge by (rewrite length_replicate; lia).
      apply H256, load_init.
Qed.

Lemma plus_minus_wrap_mod_256_witness :
  load (Store [255; 7] 0 (Stdio [] [])) = Some 255 ∧
  ∃ s1 s2,
    block_gives true std_hooks (script "+") (Store [255; 7] 0 (Stdio [] []))
      (Returned 0 s1) ∧
    cell_becomes ((255 + 1) mod 256) (Store [255; 7] 0 (Stdio [] [])) s1 ∧
    block_gives true std_hooks (script "-") (Store [255; 7] 0 (Stdio [] []))
      (Returned 0 s2) ∧
    cell_becomes ((255 - 1) mod 256) (Store [255; 7] 0 (Stdio [] [])) s2.
Proof.
  split; [reflexivity|].
  exact (proj1 (plus_minus_wrap_mod_256 true std_hooks)
           (Store [255; 7] 0 (Stdio [] [])) 255 eq_refl).
Defined.

(** C7. Where [char] is signed, the emit hook is not always called with
    the byte that was read: for the byte 200 from the read hook, the
    script ",." calls it with -56, the cell promoted to [int], and not
    with 200. *)
Lemma read_then_emit_signed_char :
  block_gives true noting_hooks (script ",.") (Store [0] 0 (Stdio [200] []))
    (Returned 0 (Store [200] 0 (Stdio [] [-56]))) ∧
  ¬ block_gives true noting_hooks (script ",.")
      (Store [0] 0 (Stdio [200] []))
      (Returned 0 (Store [200] 0 (Stdio [] [200]))).
Proof.
  assert (H : block_gives true noting_hooks (script ",.")
                (Store [0] 0 (Stdio [200] []))
                (Returned 0 (Store [200] 0 (Stdio [] [-56])))).
  { split; [discriminate|]. exists 5%nat. vm_compute. reflexivity. }
  split; [exact H|].
  intros H'. pose proof (block_gives_det _ _ _ _ _ _ H H') as E.
  discriminate E.
Qed.

(** C7, amended. The script ",." stores the value the read hook returns,
    converted to a byte, in the current cell and calls the emit hook with
    that cell promoted from [char] to [int]: with the byte itself where
    [char] is unsigned or the byte is below 128, and with the byte less
    256 where [char] is signed and the byte is 128 or more. With the
    standard hooks, [putchar] converting what it is given to
    [unsigned char], a byte [b] on standard input is consumed and the one
    byte written is [b], whatever the signedness of [char]. *)
Theorem read_then_emit_roundtrip (char_signed : bool) :
  (∀ (W : Type) (brainfuck : brainfuck_t W) st v c w',
     load st = Some v → input brainfuck (world st) = (c, w') →
     ∃ st',
       block_gives char_signed brainfuck (script ",.") st (Returned 0 st') ∧
       mem st' = <[Z.to_nat (the_pointer st) := c mod 256]> (mem st) ∧
       load st' = Some (c mod 256) ∧
       the_pointer st' = the_pointer st ∧
       world st'
       = output brainfuck
           (if char_signed && (128 <=? c mod 256)
            then c mod 256 - 256 else c mod 256) w') ∧
  (∀ (W : Type) (brainfuck : brainfuck_t W) st v b w',
     load st = Some v → input brainfuck (world st) = (b, w') →
     0 ≤ b < 256 →
     ∃ st',
       block_gives char_signed brainfuck (script ",.") st (Returned 0 st') ∧
       load st' = Some b ∧
       (char_signed = false ∨ b < 128 →
        world st' = output brainfuck b w') ∧
       (char_signed = true → 128 ≤ b →
        world st' = output brainfuck (b - 256) w')) ∧
  (∀ b rest out, 0 ≤ b < 256 →
     ∃ st',
       do_brainfuck_gives char_signed (script ",.") 2 (Stdio (b :: rest) out)
         (Returned 0 st') ∧
       st' = set_cell b (init_store (Stdio rest (out ++ [b]))) ∧
       load st' = Some b ∧
       stdin (world st') = rest ∧ stdout (world st') = out ++ [b]).
Proof.
  assert (Hgen : ∀ (W : Type) (brainfuck : brainfuck_t W) st v c w',
     load st = Some v → input brainfuck (world st) = (c, w') →
     block_gives char_signed brainfuck (script ",.") st
       (Returned 0
          (set_world
             (output brainfuck (byte_to_int char_signed (to_byte c)) w')
             (set_cell (to_byte c) st)))).
  { intros W bf st v c w' Hl Hin. apply block_gives_scan.
    apply (scan_gives_simple _ _ _ _ _ ","%char
             (set_cell (to_byte c) (set_world w' st)));
      [done|done|by apply (simple_comma _ _ _ v)|].
    apply (scan_gives_simple _ _ _ _ _ "."%char
             (set_world
                (output bf (byte_to_int char_signed (to_byte c)) w')
                (set_cell (to_byte c) st))); [done|done| |].
    - rewrite (simple_dot _ _ _ (to_byte c)); [done|].
      apply (load_set_cell _ v). apply load_Some. by apply load_Some in Hl.
    - by apply scan_gives_end. }
  assert (Hany : ∀ (W : Type) (brainfuck : brainfuck_t W) st v c w',
     load st = Some v → input brainfuck (world st) = (c, w') →
     ∃ st',
       block_gives char_signed brainfuck (script ",.") st (Returned 0 st') ∧
       mem st' = <[Z.to_nat (the_pointer st) := c mod 256]> (mem st) ∧
       load st' = Some (c mod 256) ∧
       the_pointer st' = the_pointer st ∧
       world st'
       = output brainfuck
           (if char_signed && (128 <=? c mod 256)
            then c mod 256 - 256 else c mod 256) w').
  { intros W bf st v c w' Hl Hin.
    eexists. split; [exact (Hgen W bf st v c w' Hl Hin)|].
    split; [done|]. split; [|done].
    change (load (set_cell (to_byte c) st) = Some (c mod 256)).
    by apply (load_set_cell _ v). }
  split; [exact Hany|]. split.
  - intros W bf st v b w' Hl Hin Hb.
    destruct (Hany W bf st v b w' Hl Hin) as (st' & Hrun & _ & Hl' & _ & Hw).
    rewrite Z.mod_small in Hl', Hw by done.
    exists st'. split; [done|]. split; [done|]. split.
    + intros [-> | Hlt]; [done|].
      destruct (Z.leb_spec 128 b); [lia|]. by rewrite andb_false_r in Hw.
    + intros -> Hge. destruct (Z.leb_spec 128 b); [done|lia].
  - intros b rest out Hb. eexists. split; [|split; [reflexivity|]].
    2:{ split; [|done]. apply (load_set_cell _ 0), load_init. }
    apply do_brainfuck_gives_block; [simpl; lia|].
    pose proof (Hgen stdio std_hooks (init_store (Stdio (b :: rest) out))
                  0 b (Stdio rest out) (load_init _) eq_refl) as H.
    replace (to_byte b) with b in H
      by (unfold to_byte; rewrite Z.mod_small; lia).
    assert (Hout : byte_to_int char_signed b mod 256 = b).
    { rewrite <- (Z.mod_small b 256) at 1 by lia.
      change (b mod 256) with (to_byte b).
      rewrite byte_to_int_to_byte. unfold to_byte. apply Z.mod_small. lia. }
    unfold output, std_hooks, putchar in H. simpl in H. rewrite Hout in H.
    exact H.
Qed.

Lemma read_then_emit_roundtrip_witness :
  load (Store [0] 0 (Stdio [200] [])) = Some 0 ∧
  input noting_hooks (world (Store [0] 0 (Stdio [200] [])))
  = (200, Stdio [] []) ∧
  0 ≤ 200 < 256 ∧
  (∃ st',
     block_gives true noting_hooks (script ",.")
       (Store [0] 0 (Stdio [200] [])) (Returned 0 st') ∧
     load st' = Some 200 ∧
     (true = false ∨ 200 < 128 →
      world st' = output noting_hooks 200 (Stdio [] [])) ∧
     (true = true → 128 ≤ 200 →
      world st' = output noting_hooks (200 - 256) (Stdio [] []))) ∧
  ∃ st',
    do_brainfuck_gives true (script ",.") 2 (Stdio [200; 7] [])
      (Returned 0 st') ∧
    st' = set_cell 200 (init_store (Stdio [7] ([] ++ [200]))) ∧
    load st' = Some 200 ∧
    stdin (world st') = [7] ∧ stdout (world st') = [] ++ [200].
Proof.
  assert (Hb : 0 ≤ 200 < 256) by lia.
  split; [reflexivity|]. split; [reflexivity|]. split; [exact Hb|].
  split.
  - exact (proj1 (proj2 (read_then_emit_roundtrip true)) stdio noting_hooks
             (Store [0] 0 (Stdio [200] [])) 0 200 (Stdio [] [])
             eq_refl eq_refl Hb).
  - exact (proj2 (proj2 (read_then_emit_roundtrip true)) 200 [7] [] Hb).
Defined.

(** C8. In a store whose current cell holds [N], the loop [[-]] makes
    exactly [N] iterations of its body, after which the cell holds 0, and
    the block returns 0; no other number of iterations ends with the cell
    at 0. *)
Theorem clear_loop_iterations {W : Type} (char_signed : bool)
  (brainfuck : brainfuck_t W) (st : store W) (N : Z) :
  load st = Some N → 0 ≤ N < 256 →
  loop_span (script "[-]") 0 = Some 2%nat ∧
  loop_body (script "[-]") 0 2 = script "-" ∧
  iterations char_signed brainfuck (script "-") (Z.to_nat N) st
    (set_cell 0 st) ∧
  load (set_cell 0 st) = Some 0 ∧
  (∀ k st', iterations char_signed brainfuck (script "-") k st st' →
            load st' = Some 0 → k = Z.to_nat N) ∧
  block_gives char_signed brainfuck (script "[-]") st
    (Returned 0 (set_cell 0 st)).
Proof.
  intros Hl HN.
  assert (Hit : iterations char_signed brainfuck (script "-") (Z.to_nat N) st
                  (set_cell 0 st)).
  { apply iterations_minus; [|lia]. rewrite Z2Nat.id by lia. done. }
  assert (Hz : load (set_cell 0 st) = Some 0) by by eapply load_set_cell.
  split; [reflexivity|]. split; [reflexivity|].
  split; [done|]. split; [done|]. split.
  - intros k st' Hk Hz'. by eapply iterations_exit_unique.
  - apply block_gives_scan.
    apply (scan_gives_loop_exit _ _ (script "[-]") 0 2 (Z.to_nat N) st
             (set_cell 0 st)); [done|done|exact Hit|done|].
    by apply scan_gives_end.
Qed.

Lemma clear_loop_iterations_witness :
  load (set_cell 5 (init_store (Stdio [] []))) = Some 5 ∧ 0 ≤ 5 < 256 ∧
  iterations true std_hooks (script "-") (Z.to_nat 5)
    (set_cell 5 (init_store (Stdio [] [])))
    (set_cell 0 (set_cell 5 (init_store (Stdio [] [])))) ∧
  block_gives true std_hooks (script "[-]")
    (set_cell 5 (init_store (Stdio [] [])))
    (Returned 0 (set_cell 0 (set_cell 5 (init_store (Stdio [] []))))).
Proof.
  assert (Hl : load (set_cell 5 (init_store (Stdio [] []))) = Some 5)
    by (apply (load_set_cell _ 0), load_init).
  split; [exact Hl|]. split; [lia|].
  pose proof (clear_loop_iterations true std_hooks
                (set_cell 5 (init_store (Stdio [] []))) 5 Hl ltac:(lia))
    as (_ & _ & Hit & _ & _ & Hb).
  split; [exact Hit|exact Hb].
Defined.

(** C9. [>] and [<] add and subtract 1 to the pointer wherever it stands,
    without a check against the [MAX_BRAINFUCK] cells of [mem]: a block of
    [>] and [<] only returns 0 with the pointer moved by its net
    displacement. So the script "<" leaves the pointer at -1 and
    [MAX_BRAINFUCK] or more [>] leave it behind the last cell; with the
    pointer outside [mem] the instructions that access the cell, and the
    test of a loop, are undefined. The engine returns no status other than
    0, -2, -3 and -4: there is none for a pointer out of range. *)
Theorem pointer_moves_unchecked (char_signed : bool) :
  (∀ (W : Type) (brainfuck : brainfuck_t W) (st : store W),
     simple_instr char_signed brainfuck TRight st = Some (move 1 st) ∧
     simple_instr char_signed brainfuck TLeft st = Some (move (-1) st)) ∧
  (∀ (W : Type) (st : store W) d,
     the_pointer (move d st) = the_pointer st + d ∧
     mem (move d st) = mem st ∧ world (move d st) = world st) ∧
  (∀ (W : Type) (brainfuck : brainfuck_t W) code (st : store W),
     Forall (λ c, c = ">"%char ∨ c = "<"%char) code →
     block_gives char_signed brainfuck code st
       (Returned 0 (move (net_moves code) st))) ∧
  (∀ w,
     do_brainfuck_gives char_signed (script "<") 1 w
       (Returned 0 (move (-1) (init_store w))) ∧
     the_pointer (move (-1) (init_store w)) = -1) ∧
  (∀ w n, MAX_BRAINFUCK ≤ Z.of_nat n →
     do_brainfuck_gives char_signed (replicate n ">"%char) n w
       (Returned 0 (move (Z.of_nat n) (init_store w))) ∧
     ¬ (0 ≤ the_pointer (move (Z.of_nat n) (init_store w)) < MAX_BRAINFUCK)) ∧
  (∀ (W : Type) (brainfuck : brainfuck_t W) (st : store W),
     ¬ (0 ≤ the_pointer st < Z.of_nat (length (mem st))) →
     load st = None ∧
     ∀ t, t = TPlus ∨ t = TMinus ∨ t = TDot ∨ t = TComma →
          simple_instr char_signed brainfuck t st = None) ∧
  (∀ w,
     do_brainfuck_gives char_signed (script "<+") 2 w Undefined ∧
     do_brainfuck_gives char_signed (script "<[-]") 4 w Undefined) ∧
  (∀ (W : Type) (brainfuck : brainfuck_t W) code (st : store W) ret st',
     block_gives char_signed brainfuck code st (Returned ret st') →
     status_known ret).
Proof.
  assert (Hout : ∀ w : stdio, load (move (-1) (init_store w)) = None).
  { intros w. apply load_None. unfold move, init_store.
    cbn [the_pointer mem]. lia. }
  split; [|split; [|split; [|split; [|split; [|split; [|split]]]]]].
  - intros W bf st. split; reflexivity.
  - intros W st d. repeat split; reflexivity.
  - intros W bf code st. apply block_gives_moves.
  - intros w. split; [|reflexivity].
    apply do_brainfuck_gives_block; [cbn; lia|].
    apply (block_gives_moves _ _ (script "<")), Forall_singleton. by right.
  - intros w n Hn. split.
    + apply do_brainfuck_gives_block.
      { rewrite length_replicate. lia. }
      rewrite take_ge by (rewrite length_replicate; lia).
      rewrite <- (net_moves_right n).
      apply block_gives_moves, Forall_replicate. by left.
    + unfold move, init_store. cbn [the_pointer]. lia.
  - intros W bf st Hp. split; [by apply load_None|].
    intros t Ht. apply simple_outside; [by apply load_None|exact Ht].
  - intros w. split.
    + apply do_brainfuck_gives_block; [cbn; lia|].
      apply block_gives_scan.
      apply (scan_gives_simple _ _ _ _ _ "<"%char (move (-1) (init_store w)));
        [reflexivity|reflexivity|reflexivity|].
      apply (scan_gives_undefined _ _ _ _ _ "+"%char);
        [reflexivity|reflexivity| |reflexivity].
      apply simple_outside; [apply Hout|by left].
    + apply do_brainfuck_gives_block; [cbn; lia|].
      apply block_gives_scan.
      apply (scan_gives_simple _ _ _ _ _ "<"%char (move (-1) (init_store w)));
        [reflexivity|reflexivity|reflexivity|].
      apply (scan_gives_loop _ _ _ _ _ "["%char 2);
        [reflexivity|reflexivity|reflexivity|].
      exists (Abort Undefined). split; [|reflexivity].
      apply loop_gives_undefined; [apply Hout|reflexivity].
  - intros W bf code st ret st' [_ [f Hf]]. by eapply block_status.
Qed.

Lemma pointer_moves_unchecked_witness :
  Forall (λ c, c = ">"%char ∨ c = "<"%char) (script "<<>") ∧
  block_gives true std_hooks (script "<<>") (init_store (Stdio [] []))
    (Returned 0 (move (net_moves (script "<<>")) (init_store (Stdio [] [])))).
Proof.
  assert (H : Forall (λ c, c = ">"%char ∨ c = "<"%char) (script "<<>")).
  { repeat constructor; (by left) || (by right). }
  split; [exact H|].
  apply (proj1 (proj2 (proj2 (pointer_moves_unchecked true)))
           stdio std_hooks (script "<<>") (init_store (Stdio [] [])) H).
Defined.

(** C10. A loop entered with the current cell at 0 runs its body zero times
    and the scan goes on behind its [']'] with the store as it is, whatever
    the body holds: the matching scan only tells brackets from the rest.
    So a loop around any characters that are no brackets, entered with the
    cell at 0, returns 0; the script "[@]" returns 0, although its body
    "@" alone returns -4. *)
Theorem skipped_loop_body_unchecked (char_signed : bool) :
  (∀ (W : Type) (brainfuck : brainfuck_t W) code cnt len (st : store W),
     code !! cnt = Some "["%char → loop_span code cnt = Some len →
     load st = Some 0 →
     (∀ k st', iterations char_signed brainfuck (loop_body code cnt len)
                 k st st' → k = 0%nat ∧ st' = st) ∧
     (∀ o, scan_gives char_signed brainfuck code cnt st o
           ↔ scan_gives char_signed brainfuck code (cnt + (len + 1)) st o)) ∧
  (∀ code code' cnt,
     Forall2 (λ c c', bracket_delta c = bracket_delta c') code code' →
     loop_span code cnt = loop_span code' cnt) ∧
  (∀ (W : Type) (brainfuck : brainfuck_t W) body (st : store W),
     Forall (λ c, bracket_delta c = 0) body → load st = Some 0 →
     block_gives char_signed brainfuck ("["%char :: body ++ ["]"%char]) st
       (Returned 0 st)) ∧
  (∀ w,
     do_brainfuck_gives char_signed (script "[@]") 3 w
       (Returned 0 (init_store w)) ∧
     block_gives char_signed std_hooks (loop_body (script "[@]") 0 2)
       (init_store w) (Returned (-4) (init_store w))).
Proof.
  split; [|split; [|split]].
  - intros W bf code cnt len st Hc Hspan Hz. split.
    + intros k st'. by apply iterations_zero.
    + intros o. apply (scan_gives_loop_exit _ _ _ _ _ 0); [done|done| |done].
      constructor.
  - apply loop_span_brackets.
  - intros W bf body st Hb Hz.
    apply block_gives_skipped; [|done]. by apply loop_span_plain.
  - intros w. split.
    + apply do_brainfuck_gives_block; [cbn; lia|].
      apply (block_gives_skipped _ _ (script "@")); [reflexivity|].
      apply load_init.
    + apply block_gives_scan.
      by apply (scan_gives_illegal _ _ _ _ _ "@"%char).
Qed.

Lemma skipped_loop_body_unchecked_witness :
  Forall (λ c, bracket_delta c = 0) (script "@ +?") ∧
  load (init_store (Stdio [] [])) = Some 0 ∧
  block_gives true std_hooks ("["%char :: script "@ +?" ++ ["]"%char])
    (init_store (Stdio [] [])) (Returned 0 (init_store (Stdio [] []))).
Proof.
  assert (H : Forall (λ c, bracket_delta c = 0) (script "@ +?"))
    by (repeat constructor).
  split; [exact H|]. split; [apply load_init|].
  apply (proj1 (proj2 (proj2 (skipped_loop_body_unchecked true)))
           stdio std_hooks (script "@ +?") (init_store (Stdio [] [])) H).
  apply load_init.
Defined.

(** * Further properties of the interpreter *)

(** X1. A run of the engine never changes the length of the tape, and
    leaves every cell a byte when every cell was one; after a run of
    [do_brainfuck] the tape has [MAX_BRAINFUCK] cells, all of them bytes. *)
Theorem tape_shape_kept (char_signed : bool) :
  (∀ (W : Type) (brainfuck : brainfuck_t W) code (st : store W) ret st',
     block_gives char_signed brainfuck code st (Returned ret st') →
     length (mem st') = length (mem st) ∧ (bytes_ok st → bytes_ok st')) ∧
  (∀ code n w ret st',
     do_brainfuck_gives char_signed code n w (Returned ret st') →
     Z.of_nat (length (mem st')) = MAX_BRAINFUCK ∧ bytes_ok st').
Proof.
  assert (Hgen : ∀ (W : Type) (brainfuck : brainfuck_t W) code (st : store W)
                   ret st',
     block_gives char_signed brainfuck code st (Returned ret st') →
     length (mem st') = length (mem st) ∧ (bytes_ok st → bytes_ok st')).
  { intros W bf code st ret st' [_ [f Hf]].
    assert (H : outcome_sat false
      (λ s, length (mem s) = length (mem st) ∧ (bytes_ok st → bytes_ok s))
      (do_brainfuck_block char_signed bf f code st)).
    { apply (block_keeps char_signed bf (λ _, True)); [|done|done| |done].
      - intros t s s' _ [Hlen Hb] Hi.
        destruct (simple_instr_shape _ _ _ _ _ Hi) as [Hlen' Hb'].
        split; [congruence|auto].
      - unfold uses_only. by apply Forall_forall. }
    rewrite Hf in H. exact H. }
  split; [exact Hgen|].
  intros code n w ret st' [Ho [f Hf]]. unfold do_brainfuck in Hf.
  destruct (length code <? n)%nat; [done|].
  destruct (Hgen stdio std_hooks (take n code) (init_store w) ret st')
    as [Hlen Hb]; [split; [done|by exists f]|].
  split; [|apply Hb, bytes_ok_init].
  rewrite Hlen. apply length_mem_init.
Qed.

Lemma tape_shape_kept_witness :
  block_gives true std_hooks (script "-") (init_store (Stdio [] []))
    (Returned 0 (set_cell (to_byte (0 - 1)) (init_store (Stdio [] [])))) ∧
  length (mem (set_cell (to_byte (0 - 1)) (init_store (Stdio [] []))))
  = length (mem (init_store (Stdio [] []))) ∧
  (bytes_ok (init_store (Stdio [] [])) →
   bytes_ok (set_cell (to_byte (0 - 1)) (init_store (Stdio [] [])))).
Proof.
  assert (H : block_gives true std_hooks (script "-")
                (init_store (Stdio [] []))
                (Returned 0
                   (set_cell (to_byte (0 - 1)) (init_store (Stdio [] [])))))
    by apply block_gives_minus, load_init.
  split; [exact H|].
  exact (proj1 (tape_shape_kept true) stdio std_hooks _ _ _ _ H).
Defined.

(** X2. A block without [>] and [<] leaves the pointer where it is and
    writes no cell but the current one; called with the pointer inside the
    tape it makes no undefined access: every run that ends returns a
    status. *)
Theorem pointer_fixed_without_moves {W : Type} (char_signed : bool)
  (brainfuck : brainfuck_t W) (code : list ascii) (st : store W)
  (o : outcome W) :
  uses_only (λ t, t ≠ TRight ∧ t ≠ TLeft) code →
  in_range st →
  block_gives char_signed brainfuck code st o →
  ∃ ret st', o = Returned ret st' ∧ the_pointer st' = the_pointer st ∧
             in_range st' ∧
             ∀ i, i ≠ Z.to_nat (the_pointer st) → mem st' !! i = mem st !! i.
Proof.
  intros Hcode Hin [Ho [f Hf]].
  pose (I := λ s : store W,
          the_pointer s = the_pointer st ∧ length (mem s) = length (mem st) ∧
          ∀ i, i ≠ Z.to_nat (the_pointer st) → mem s !! i = mem st !! i).
  assert (Hrange : ∀ s, I s → in_range s).
  { intros s (Hp & Hl & _). unfold in_range in *. by rewrite Hp, Hl. }
  assert (H : outcome_sat true I
                (do_brainfuck_block char_signed brainfuck f code st)).
  { apply (block_keeps char_signed brainfuck (λ t, t ≠ TRight ∧ t ≠ TLeft));
      [| | |done|done].
    - intros t s s' [Hr Hl] (Hp & Hlen & Hfr) Hi.
      destruct (simple_instr_shape _ _ _ _ _ Hi) as [Hlen' _].
      split; [|split].
      + by rewrite (simple_instr_pointer _ _ _ _ _ Hr Hl Hi).
      + congruence.
      + intros i Hne. rewrite <- (Hfr i Hne).
        apply (simple_instr_frame _ _ _ _ _ _ ltac:(by rewrite Hp) Hi).
    - intros t s _ _ Hs. by apply simple_instr_in_range, Hrange.
    - intros s _ Hs Hl. apply load_None in Hl. by apply Hl, Hrange. }
  rewrite Hf in H. destruct o as [ret st'| |]; [|done|done].
  destruct H as (Hp & Hl & Hfr).
  exists ret, st'. split; [done|]. split; [done|].
  split; [by apply Hrange|done].
Qed.

Lemma pointer_fixed_without_moves_witness :
  uses_only (λ t, t ≠ TRight ∧ t ≠ TLeft) (script "+-") ∧
  in_range (init_store (Stdio [] [])) ∧
  block_gives true std_hooks (script "+-") (init_store (Stdio [] []))
    (Returned 0 (init_store (Stdio [] []))) ∧
  ∃ ret st', Returned 0 (init_store (Stdio [] [])) = Returned ret st' ∧
             the_pointer st' = the_pointer (init_store (Stdio [] [])) ∧
             in_range st' ∧
             ∀ i, i ≠ Z.to_nat (the_pointer (init_store (Stdio [] []))) →
                  mem st' !! i = mem (init_store (Stdio [] [])) !! i.
Proof.
  assert (Hu : uses_only (λ t, t ≠ TRight ∧ t ≠ TLeft) (script "+-"))
    by (repeat constructor; done).
  assert (Hb : block_gives true std_hooks (script "+-")
                 (init_store (Stdio [] []))
                 (Returned 0 (init_store (Stdio [] []))))
    by (apply (block_gives_plus_minus _ _ _ 0); [apply load_init|lia]).
  split; [exact Hu|]. split; [apply in_range_init|]. split; [exact Hb|].
  exact (pointer_fixed_without_moves true std_hooks _ _ _ Hu
           (in_range_init _) Hb).
Defined.

(** X3. A block without [.] and [,] never calls a hook: whatever the hooks
    are, the world is the same after the run. *)
Theorem world_fixed_without_io {W : Type} (char_signed : bool)
  (brainfuck : brainfuck_t W) (code : list ascii) (st : store W)
  (ret : Z) (st' : store W) :
  uses_only (λ t, t ≠ TDot ∧ t ≠ TComma) code →
  block_gives char_signed brainfuck code st (Returned ret st') →
  world st' = world st.
Proof.
  intros Hcode [_ [f Hf]].
  assert (H : outcome_sat false (λ s, world s = world st)
                (do_brainfuck_block char_signed brainfuck f code st)).
  { apply (block_keeps char_signed brainfuck (λ t, t ≠ TDot ∧ t ≠ TComma));
      [|done|done|done|done].
    intros t s s' [Hd Hc] Hw Hi.
    by rewrite (simple_instr_world _ _ _ _ _ Hd Hc Hi). }
  by rewrite Hf in H.
Qed.

Lemma world_fixed_without_io_witness :
  uses_only (λ t, t ≠ TDot ∧ t ≠ TComma) (script "-") ∧
  block_gives true std_hooks (script "-") (init_store (Stdio [7] []))
    (Returned 0 (set_cell (to_byte (0 - 1)) (init_store (Stdio [7] [])))) ∧
  world (set_cell (to_byte (0 - 1)) (init_store (Stdio [7] [])))
  = world (init_store (Stdio [7] [])).
Proof.
  assert (Hu : uses_only (λ t, t ≠ TDot ∧ t ≠ TComma) (script "-"))
    by (repeat constructor; done).
  assert (Hb : block_gives true std_hooks (script "-")
                 (init_store (Stdio [7] []))
                 (Returned 0
                    (set_cell (to_byte (0 - 1)) (init_store (Stdio [7] [])))))
    by apply block_gives_minus, load_init.
  split; [exact Hu|]. split; [exact Hb|].
  exact (world_fixed_without_io true std_hooks _ _ _ _ Hu Hb).
Defined.

(** X4. With [getchar] and [putchar] a run only appends to standard output
    and only consumes standard input from the front; without [,] it reads
    nothing and without [.] it writes nothing. *)
Theorem stdio_streams_monotone (char_signed : bool) (code : list ascii)
  (st : store stdio) (ret : Z) (st' : store stdio) :
  block_gives char_signed std_hooks code st (Returned ret st') →
  stdout (world st) `prefix_of` stdout (world st') ∧
  stdin (world st') `suffix_of` stdin (world st) ∧
  (uses_only (λ t, t ≠ TComma) code → stdin (world st') = stdin (world st)) ∧
  (uses_only (λ t, t ≠ TDot) code → stdout (world st') = stdout (world st)).
Proof.
  intros [_ [f Hf]].
  assert (Hany : uses_only (λ _, True) code) by by apply Forall_forall.
  assert (H1 : outcome_sat false
    (λ s, stdout (world st) `prefix_of` stdout (world s) ∧
          stdin (world s) `suffix_of` stdin (world st))
    (do_brainfuck_block char_signed std_hooks f code st)).
  { apply (block_keeps char_signed std_hooks (λ _, True));
      [|done|done|done|done].
    intros t s s' _ [Hp Hs] Hi.
    destruct (simple_instr_stdio _ _ _ _ Hi) as (Hp' & Hs' & _).
    split; by etrans. }
  rewrite Hf in H1. destruct H1 as [Hp Hs].
  split; [done|]. split; [done|]. split.
  - intros Hcode.
    assert (H : outcome_sat false (λ s, stdin (world s) = stdin (world st))
                  (do_brainfuck_block char_signed std_hooks f code st)).
    { apply (block_keeps char_signed std_hooks (λ t, t ≠ TComma));
        [|done|done|done|done].
      intros t s s' Hc Hw Hi.
      destruct (simple_instr_stdio _ _ _ _ Hi) as (_ & _ & _ & Hin).
      by rewrite Hin. }
    by rewrite Hf in H.
  - intros Hcode.
    assert (H : outcome_sat false (λ s, stdout (world s) = stdout (world st))
                  (do_brainfuck_block char_signed std_hooks f code st)).
    { apply (block_keeps char_signed std_hooks (λ t, t ≠ TDot));
        [|done|done|done|done].
      intros t s s' Hc Hw Hi.
      destruct (simple_instr_stdio _ _ _ _ Hi) as (_ & _ & Hout & _).
      by rewrite Hout. }
    by rewrite Hf in H.
Qed.

Lemma stdio_streams_monotone_witness :
  block_gives true std_hooks (script "-") (init_store (Stdio [65] [1]))
    (Returned 0 (set_cell (to_byte (0 - 1)) (init_store (Stdio [65] [1])))) ∧
  stdout (world (init_store (Stdio [65] [1])))
    `prefix_of`
    stdout (world (set_cell (to_byte (0 - 1)) (init_store (Stdio [65] [1]))))
  ∧ stdin (world (set_cell (to_byte (0 - 1)) (init_store (Stdio [65] [1]))))
    `suffix_of` stdin (world (init_store (Stdio [65] [1]))).
Proof.
  assert (H : block_gives true std_hooks (script "-")
                (init_store (Stdio [65] [1]))
                (Returned 0
                   (set_cell (to_byte (0 - 1)) (init_store (Stdio [65] [1])))))
    by apply block_gives_minus, load_init.
  split; [exact H|].
  destruct (stdio_streams_monotone true _ _ _ _ H) as (Hp & Hs & _).
  split; [exact Hp|exact Hs].
Defined.

(** X5. A block without brackets and illegal characters always ends: with
    [length code + 2] units of fuel or more the engine returns 0 with the
    store that its instructions, one after the other, leave, or is
    undefined where one of them accesses a cell outside the tape. *)
Theorem straight_line_block {W : Type} (char_signed : bool)
  (brainfuck : brainfuck_t W) (code : list ascii) (st : store W)
  (fuel : nat) :
  Forall (λ c, c ∈ instruction_chars ∨ c ∈ whitespace_chars) code →
  Forall (λ c, c ≠ "["%char ∧ c ≠ "]"%char) code →
  (length code + 2 ≤ fuel)%nat →
  do_brainfuck_block char_signed brainfuck fuel code st
  = finished (straight char_signed brainfuck code st).
Proof.
  intros Hlegal Hplain Hfuel. apply block_straight; [|done].
  apply Forall_forall. intros c Hc.
  rewrite Forall_forall in Hlegal, Hplain.
  destruct (Hplain c Hc) as [Ho Hcl]. specialize (Hlegal c Hc).
  destruct (classify c) eqn:E; try done.
  - by apply classify_open in E.
  - by apply classify_close in E.
  - apply classify_illegal in E. destruct E. by destruct Hlegal.
Qed.

Lemma straight_line_block_witness :
  Forall (λ c, c ∈ instruction_chars ∨ c ∈ whitespace_chars) (script "+ >-") ∧
  Forall (λ c, c ≠ "["%char ∧ c ≠ "]"%char) (script "+ >-") ∧
  (length (script "+ >-") + 2 ≤ 6)%nat ∧
  do_brainfuck_block true std_hooks 6 (script "+ >-")
    (init_store (Stdio [] []))
  = finished (straight true std_hooks (script "+ >-")
                (init_store (Stdio [] []))).
Proof.
  assert (H1 : Forall (λ c, c ∈ instruction_chars ∨ c ∈ whitespace_chars)
                 (script "+ >-")).
  { repeat constructor;
      (left; apply (bool_decide_unpack _); vm_compute; exact I)
      || (right; apply (bool_decide_unpack _); vm_compute; exact I). }
  assert (H2 : Forall (λ c, c ≠ "["%char ∧ c ≠ "]"%char) (script "+ >-"))
    by (repeat constructor; discriminate).
  assert (H3 : (length (script "+ >-") + 2 ≤ 6)%nat) by (simpl; lia).
  split; [exact H1|]. split; [exact H2|]. split; [exact H3|].
  exact (straight_line_block true std_hooks _ _ 6%nat H1 H2 H3).
Defined.

(** X6. A script of whitespace only, the empty script among them, returns
    0 and leaves tape, pointer and streams as they are: nothing is read
    and nothing is written. *)
Theorem blank_script_succeeds (char_signed : bool) (code : list ascii) :
  Forall (λ c, c ∈ whitespace_chars) code →
  (∀ (W : Type) (brainfuck : brainfuck_t W) (st : store W),
     block_gives char_signed brainfuck code st (Returned 0 st)) ∧
  (∀ w, do_brainfuck_gives char_signed code (length code) w
          (Returned 0 (init_store w))).
Proof.
  intros Hblank.
  assert (Hb : uses_only (λ t, t = TBlank) code).
  { eapply Forall_impl; [exact Hblank|]. intros c. apply classify_blank. }
  assert (Hgen : ∀ (W : Type) (brainfuck : brainfuck_t W) (st : store W),
     block_gives char_signed brainfuck code st (Returned 0 st)).
  { intros W bf st.
    pose proof (block_gives_straight char_signed bf code st) as H.
    rewrite straight_blank in H by done. apply H.
    eapply Forall_impl; [exact Hb|]. by intros c ->. }
  split; [exact Hgen|].
  intros w. apply do_brainfuck_gives_block; [done|].
  rewrite take_ge by done. apply Hgen.
Qed.

Lemma blank_script_succeeds_witness :
  Forall (λ c, c ∈ whitespace_chars) (script "  ") ∧
  do_brainfuck_gives true (script "  ") (length (script "  "))
    (Stdio [1] [2]) (Returned 0 (init_store (Stdio [1] [2]))).
Proof.
  assert (H : Forall (λ c, c ∈ whitespace_chars) (script "  "))
    by (repeat constructor; apply (bool_decide_unpack _); vm_compute;
        exact I).
  split; [exact H|].
  exact (proj2 (blank_script_succeeds true _ H) (Stdio [1] [2])).
Defined.

(** X7. Sequencing: for a balanced block [pre], a run of [pre ++ post]
    ends with [o] exactly when the run of [pre] ends and either returns 0
    and the run of [post] on the store it leaves ends with [o], or returns
    another status or is undefined and [o] is that outcome. *)
Theorem balanced_prefix_sequence {W : Type} (char_signed : bool)
  (brainfuck : brainfuck_t W) (pre post : list ascii) (st : store W)
  (o : outcome W) :
  Z.of_nat (length pre) ≤ SIZE_MAX → balanced pre →
  block_gives char_signed brainfuck (pre ++ post) st o
  ↔ ∃ o1, block_gives char_signed brainfuck pre st o1 ∧
          match o1 with
          | Returned ret s =>
              if ret =? 0
              then block_gives char_signed brainfuck post s o
              else o = o1
          | _ => o = o1
          end.
Proof.
  intros Hmax Hbal.
  destruct (block_gives_app char_signed brainfuck pre post st)
    as (Hends & Hzero & Hstatus & Hundef).
  assert (Hne : ∀ r s, block_gives char_signed brainfuck pre st (Returned r s)
                       → r ≠ -2).
  { intros r s [_ [f Hf]].
    destruct (block_balanced _ _ _ _ _ _ _ Hmax Hbal Hf); lia. }
  split.
  - intros Ho. destruct (Hends o Ho) as [o1 H1]. exists o1. split; [done|].
    destruct o1 as [r s| |].
    + destruct (Z.eqb_spec r 0) as [->|Hr].
      * by apply (Hzero s H1).
      * eapply block_gives_det; [exact Ho|].
        apply Hstatus; [done|done|by eapply Hne].
    + eapply block_gives_det; [exact Ho|by apply Hundef].
    + by destruct H1.
  - intros (o1 & H1 & Hseq). destruct o1 as [r s| |].
    + destruct (Z.eqb_spec r 0) as [->|Hr].
      * by apply (Hzero s H1).
      * subst o. apply Hstatus; [done|done|by eapply Hne].
    + subst o. by apply Hundef.
    + by destruct H1.
Qed.

Lemma balanced_prefix_sequence_witness :
  Z.of_nat (length (script "+-")) ≤ SIZE_MAX ∧ balanced (script "+-") ∧
  (block_gives true std_hooks (script "+-" ++ script "-")
     (init_store (Stdio [] []))
     (Returned 0 (set_cell (to_byte (0 - 1)) (init_store (Stdio [] []))))
   ↔ ∃ o1, block_gives true std_hooks (script "+-")
             (init_store (Stdio [] [])) o1 ∧
           match o1 with
           | Returned ret s =>
               if ret =? 0
               then block_gives true std_hooks (script "-") s
                      (Returned 0
                         (set_cell (to_byte (0 - 1))
                            (init_store (Stdio [] []))))
               else Returned 0
                      (set_cell (to_byte (0 - 1)) (init_store (Stdio [] [])))
                    = o1
           | _ => Returned 0
                    (set_cell (to_byte (0 - 1)) (init_store (Stdio [] [])))
                  = o1
           end).
Proof.
  assert (H1 : Z.of_nat (length (script "+-")) ≤ SIZE_MAX)
    by (vm_compute; discriminate).
  assert (H2 : balanced (script "+-")) by (by apply depth_ok_balanced).
  split; [exact H1|]. split; [exact H2|].
  exact (balanced_prefix_sequence true std_hooks (script "+-") (script "-")
           _ _ H1 H2).
Defined.

(** X8. Unrolling: entered with the current cell not 0, a loop around a
    balanced body, followed by [rest], does what the body followed by the
    same loop and [rest] does. *)
Theorem loop_unrolls {W : Type} (char_signed : bool)
  (brainfuck : brainfuck_t W) (body rest : list ascii) (st : store W)
  (v : Z) (o : outcome W) :
  Z.of_nat (length (loop_of body rest)) ≤ SIZE_MAX → balanced body →
  load st = Some v → v ≠ 0 →
  block_gives char_signed brainfuck (loop_of body rest) st o
  ↔ block_gives char_signed brainfuck (body ++ loop_of body rest) st o.
Proof.
  intros Hmax Hbal Hl Hv.
  pose proof (loop_span_balanced body rest Hmax Hbal) as Hspan.
  pose proof (loop_of_body body rest) as Hbody.
  assert (Hc : loop_of body rest !! 0%nat = Some "["%char) by done.
  destruct (block_gives_app char_signed brainfuck body (loop_of body rest) st)
    as (Hends & Hzero & Hstatus & Hundef).
  assert (Hloop : ∀ s o', block_gives char_signed brainfuck
                            (loop_of body rest) s o' ↔
    ∃ r, loop_gives char_signed brainfuck body s r ∧
         after_loop char_signed brainfuck (loop_of body rest) 0
           (S (length body)) r o').
  { intros s o'. rewrite block_gives_scan.
    rewrite (scan_gives_loop _ _ _ _ _ "["%char (S (length body))) by done.
    by rewrite Hbody. }
  assert (Hne : ∀ r s, block_gives char_signed brainfuck body st (Returned r s)
                       → r ≠ -2).
  { intros r s Hb. rewrite <- Hbody in Hb.
    destruct (loop_body_status _ _ _ _ _ _ _ _ Hmax Hc Hspan Hb); lia. }
  split.
  - intros Ho. apply Hloop in Ho as (r & Hr & Ha).
    destruct (loop_gives_first _ _ _ _ _ _ Hl Hv Hr)
      as (o1 & H1 & [(s1 & -> & Hr1)|(Hnz & ->)]).
    + apply (Hzero s1 H1), Hloop. by exists r.
    + simpl in Ha. subst o. destruct o1 as [r s| |].
      * apply Hstatus; [done| |by eapply Hne].
        intros Hr0. apply (Hnz s). by rewrite Hr0.
      * by apply Hundef.
      * by destruct H1.
  - intros Ho. destruct (Hends o Ho) as [o1 H1].
    destruct o1 as [r s| |]; [| |by destruct H1].
    + destruct (Z.eqb_spec r 0) as [->|Hr].
      * apply (Hzero s H1) in Ho. apply Hloop in Ho as (x & Hx & Ha).
        apply Hloop. exists x. split; [|done].
        by apply (loop_gives_again _ _ _ _ v s).
      * rewrite (block_gives_det _ _ _ _ _ _ Ho
                   (Hstatus r s H1 Hr (Hne r s H1))).
        apply Hloop. exists (Abort (Returned r s)). split; [|done].
        apply (loop_gives_abort _ _ _ _ v (Returned r s)); try done.
        intros s' [= ? ?]. done.
    + rewrite (block_gives_det _ _ _ _ _ _ Ho (Hundef H1)).
      apply Hloop. exists (Abort Undefined). split; [|done].
      by apply (loop_gives_abort _ _ _ _ v Undefined).
Qed.

Lemma loop_unrolls_witness :
  Z.of_nat (length (loop_of (script "-") (script "+"))) ≤ SIZE_MAX ∧
  balanced (script "-") ∧
  load (set_cell 3 (init_store (Stdio [] []))) = Some 3 ∧ 3 ≠ 0 ∧
  ∀ o, block_gives true std_hooks (loop_of (script "-") (script "+"))
         (set_cell 3 (init_store (Stdio [] []))) o
       ↔ block_gives true std_hooks
           (script "-" ++ loop_of (script "-") (script "+"))
           (set_cell 3 (init_store (Stdio [] []))) o.
Proof.
  assert (H1 : Z.of_nat (length (loop_of (script "-") (script "+")))
               ≤ SIZE_MAX) by (vm_compute; discriminate).
  assert (H2 : balanced (script "-")) by (by apply depth_ok_balanced).
  assert (H3 : load (set_cell 3 (init_store (Stdio [] []))) = Some 3)
    by (apply (load_set_cell _ 0), load_init).
  assert (H4 : 3 ≠ 0) by lia.
  split; [exact H1|]. split; [exact H2|]. split; [exact H3|].
  split; [exact H4|]. intros o.
  exact (loop_unrolls true std_hooks (script "-") (script "+") _ 3 o
           H1 H2 H3 H4).
Defined.

(** X9. Entered with the current cell at 0, a loop around a balanced body
    is passed over whatever the body holds: the block does what the rest
    behind the loop does. At the start of a script the cell is 0, so a
    leading loop is a comment. *)
Theorem skipped_loop_then_rest (char_signed : bool) (body rest : list ascii) :
  Z.of_nat (length (loop_of body rest)) ≤ SIZE_MAX → balanced body →
  (∀ (W : Type) (brainfuck : brainfuck_t W) (st : store W) o,
     load st = Some 0 →
     block_gives char_signed brainfuck (loop_of body rest) st o
     ↔ block_gives char_signed brainfuck rest st o) ∧
  (∀ w o,
     do_brainfuck_gives char_signed (loop_of body rest)
       (length (loop_of body rest)) w o
     ↔ do_brainfuck_gives char_signed rest (length rest) w o).
Proof.
  intros Hmax Hbal.
  pose proof (loop_span_balanced body rest Hmax Hbal) as Hspan.
  assert (Hgen : ∀ (W : Type) (brainfuck : brainfuck_t W) (st : store W) o,
     load st = Some 0 →
     block_gives char_signed brainfuck (loop_of body rest) st o
     ↔ block_gives char_signed brainfuck rest st o).
  { intros W bf st o Hz. rewrite !block_gives_scan.
    rewrite (scan_gives_loop_exit _ _ _ 0 (S (length body)) 0 st st);
      [|done|done|constructor|done].
    rewrite loop_of_app.
    replace (0 + (S (length body) + 1))%nat
      with (length (loop_of body []) + 0)%nat
      by (rewrite length_loop_of; simpl; lia).
    apply scan_gives_app_r. }
  split; [exact Hgen|].
  intros w o.
  rewrite !do_brainfuck_gives_block, !take_ge by done.
  apply Hgen, load_init.
Qed.

Lemma skipped_loop_then_rest_witness :
  Z.of_nat (length (loop_of (script "a [b] c") (script "+"))) ≤ SIZE_MAX ∧
  balanced (script "a [b] c") ∧
  ∀ w o,
    do_brainfuck_gives true (loop_of (script "a [b] c") (script "+"))
      (length (loop_of (script "a [b] c") (script "+"))) w o
    ↔ do_brainfuck_gives true (script "+") (length (script "+")) w o.
Proof.
  assert (H1 : Z.of_nat (length (loop_of (script "a [b] c") (script "+")))
               ≤ SIZE_MAX) by (vm_compute; discriminate).
  assert (H2 : balanced (script "a [b] c")) by (by apply depth_ok_balanced).
  split; [exact H1|]. split; [exact H2|].
  exact (proj2 (skipped_loop_then_rest true _ _ H1 H2)).
Defined.

(** X10. A loop that is reached never ends when its test never fails and
    its body always returns 0: if some property of the store at the ['[']
    makes the current cell differ from 0 and is kept by every run of the
    body that ends, the engine runs out of every amount of fuel. The loop
    [[]] entered with a cell other than 0 is the simplest case. *)
Theorem loop_never_ends {W : Type} (char_signed : bool)
  (brainfuck : brainfuck_t W) (J : store W → Prop) (code : list ascii)
  (cnt len : nat) (st0 st : store W) (fuel : nat) :
  code !! cnt = Some "["%char → loop_span code cnt = Some len →
  (∀ s, J s → ∃ v, load s = Some v ∧ v ≠ 0) →
  (∀ s o, J s →
          block_gives char_signed brainfuck (loop_body code cnt len) s o →
          ∃ s', o = Returned 0 s' ∧ J s') →
  reaches char_signed brainfuck code st0 cnt st → J st →
  do_brainfuck_block char_signed brainfuck fuel code st0 = OutOfFuel.
Proof.
  intros Hc Hspan Htest Hbody Hreach HJ.
  destruct (do_brainfuck_block char_signed brainfuck fuel code st0) as [r s| |]
    eqn:Hrun; [| |done]; exfalso.
  - assert (Hg : scan_gives char_signed brainfuck code cnt st (Returned r s)).
    { apply (reaches_scan_gives _ _ _ _ _ _ _ Hreach), block_gives_scan.
      split; [done|by exists fuel]. }
    apply (scan_gives_loop _ _ _ _ _ "["%char len) in Hg as (x & Hx & _);
      [|done..].
    destruct Hx as [Hne [f Hf]]. unfold loop_from in Hf.
    by rewrite (run_loop_never_ends _ _ J) in Hf.
  - assert (Hg : scan_gives char_signed brainfuck code cnt st Undefined).
    { apply (reaches_scan_gives _ _ _ _ _ _ _ Hreach), block_gives_scan.
      split; [done|by exists fuel]. }
    apply (scan_gives_loop _ _ _ _ _ "["%char len) in Hg as (x & Hx & _);
      [|done..].
    destruct Hx as [Hne [f Hf]]. unfold loop_from in Hf.
    by rewrite (run_loop_never_ends _ _ J) in Hf.
Qed.

Lemma loop_never_ends_witness :
  script "+[]" !! 1%nat = Some "["%char ∧
  loop_span (script "+[]") 1 = Some 1%nat ∧
  reaches true std_hooks (script "+[]") (init_store (Stdio [] [])) 1
    (set_cell (to_byte (0 + 1)) (init_store (Stdio [] []))) ∧
  do_brainfuck_block true std_hooks 1000 (script "+[]")
    (init_store (Stdio [] [])) = OutOfFuel.
Proof.
  assert (Hr : reaches true std_hooks (script "+[]")
                 (init_store (Stdio [] [])) 1
                 (set_cell (to_byte (0 + 1)) (init_store (Stdio [] [])))).
  { apply (reaches_simple _ _ _ _ 0 (init_store (Stdio [] [])) "+"%char);
      [constructor|done|done|].
    apply simple_plus, load_init. }
  split; [reflexivity|]. split; [reflexivity|]. split; [exact Hr|].
  apply (loop_never_ends true std_hooks
           (λ s, s = set_cell (to_byte (0 + 1)) (init_store (Stdio [] [])))
           (script "+[]") 1 1 (init_store (Stdio [] []))
           (set_cell (to_byte (0 + 1)) (init_store (Stdio [] []))));
    [reflexivity|reflexivity| | |exact Hr|reflexivity].
  - intros s ->. exists (to_byte (0 + 1)). split; [|by vm_compute].
    apply (load_set_cell _ 0), load_init.
  - intros s o -> Ho. exists (set_cell (to_byte (0 + 1))
                                (init_store (Stdio [] []))).
    split; [|reflexivity].
    eapply block_gives_det; [exact Ho|].
    apply block_gives_scan. by apply scan_gives_end.
Defined.

(** X11. A block whose brackets are balanced never returns the status of
    an unmatched bracket: every run that returns, returns 0 or -4. *)
Theorem balanced_block_status {W : Type} (char_signed : bool)
  (brainfuck : brainfuck_t W) (code : list ascii) (st : store W)
  (ret : Z) (st' : store W) :
  Z.of_nat (length code) ≤ SIZE_MAX → balanced code →
  block_gives char_signed brainfuck code st (Returned ret st') →
  ret = 0 ∨ ret = -4.
Proof.
  intros Hmax Hbal [_ [f Hf]].
  exact (block_balanced _ _ _ _ _ _ _ Hmax Hbal Hf).
Qed.

Lemma balanced_block_status_witness :
  Z.of_nat (length (script "+-")) ≤ SIZE_MAX ∧ balanced (script "+-") ∧
  block_gives true std_hooks (script "+-") (init_store (Stdio [] []))
    (Returned 0 (init_store (Stdio [] []))) ∧
  (0 = 0 ∨ 0 = -4).
Proof.
  assert (H1 : Z.of_nat (length (script "+-")) ≤ SIZE_MAX)
    by (vm_compute; discriminate).
  assert (H2 : balanced (script "+-")) by (by apply depth_ok_balanced).
  assert (H3 : block_gives true std_hooks (script "+-")
                 (init_store (Stdio [] []))
                 (Returned 0 (init_store (Stdio [] []))))
    by (apply (block_gives_plus_minus _ _ _ 0); [apply load_init|lia]).
  split; [exact H1|]. split; [exact H2|]. split; [exact H3|].
  exact (balanced_block_status true std_hooks _ _ _ _ H1 H2 H3).
Defined.

(** X12. [main] returns a status in exactly two ways. With other than
    one argument it returns -1 and leaves standard input and output as
    they are. With one argument, it returns when [fopen] opens the file,
    [ftell] yields a size from 0 up to but not [LONG_MAX] and [malloc]
    returns a block; the status is then what the engine returns, from the
    zeroed tape, on the characters in front of the terminating NUL: those
    [fread] has stored, followed by what [malloc] has left where [fread]
    stored fewer than [ftell] told. When [ftell] tells the number of
    characters that [fread] delivers, these are the characters of the
    file. When [ftell] fails or [malloc] returns [NULL], no status is
    defined: the results are used unchecked. *)
Theorem main_returns (char_signed : bool) (os : host) (argv : list string)
  (w : stdio) :
  (∀ ret w',
     main_gives char_signed os argv w (Exited ret w')
     ↔ (length argv ≠ 2%nat ∧ ret = -1 ∧ w' = w)
       ∨ (length argv = 2%nat ∧
          ∃ path f block st',
            argv !! 1%nat = Some path ∧ fopen os path = Some f ∧
            0 ≤ ftell f < LONG_MAX ∧
            malloc os (Z.to_nat (ftell f + 1)) = Some block ∧
            block_gives char_signed std_hooks (codes_read f block)
              (init_store w) (Returned ret st') ∧
            w' = world st')) ∧
  (∀ path f block ret w',
     length argv = 2%nat → argv !! 1%nat = Some path →
     fopen os path = Some f →
     ftell f = Z.of_nat (length (fread f)) → ftell f < LONG_MAX →
     malloc os (Z.to_nat (ftell f + 1)) = Some block →
     main_gives char_signed os argv w (Exited ret w')
     ↔ ∃ st', block_gives char_signed std_hooks (fread f) (init_store w)
                (Returned ret st') ∧
              w' = world st') ∧
  (∀ path f,
     length argv = 2%nat → argv !! 1%nat = Some path →
     fopen os path = Some f →
     ftell f < 0 ∨ malloc os (Z.to_nat (ftell f + 1)) = None →
     ∀ fuel, main char_signed fuel os argv w = ExitUndefined).
Proof.
  assert (Hfile : ∀ path f block ret w',
     length argv = 2%nat → argv !! 1%nat = Some path →
     fopen os path = Some f → 0 ≤ ftell f < LONG_MAX →
     malloc os (Z.to_nat (ftell f + 1)) = Some block →
     main_gives char_signed os argv w (Exited ret w')
     ↔ ∃ st', block_gives char_signed std_hooks (codes_read f block)
                (init_store w) (Returned ret st') ∧
              w' = world st').
  { intros path f block ret w' Hlen Hpath Hf Hsize Hm. split.
    - intros [_ [fuel Hrun]].
      rewrite (main_file _ _ _ _ _ path f block) in Hrun by done.
      destruct (do_brainfuck_block _ _ fuel _ _) as [r st'| |] eqn:Hb;
        [|done|done].
      injection Hrun as <- <-. exists st'. split; [|done].
      split; [done|by exists fuel].
    - intros (st' & [_ [fuel Hb]] & ->). split; [done|]. exists fuel.
      by rewrite (main_file _ _ _ _ _ path f block), Hb. }
  split; [|split].
  - intros ret w'. split.
    + intros Hrun. pose proof Hrun as [_ [fuel Hm]].
      destruct (decide (length argv = 2%nat)) as [Hlen|Hlen].
      2:{ left. rewrite main_usage in Hm by done.
          by injection Hm as <- <-. }
      right. split; [done|].
      destruct (argv !! 1%nat) as [path|] eqn:Hpath.
      2:{ unfold main in Hm.
          by rewrite (proj2 (Nat.eqb_eq _ _) Hlen), Hpath in Hm. }
      destruct (fopen os path) as [f|] eqn:Hf.
      2:{ by rewrite (main_no_file _ _ _ _ _ path) in Hm. }
      destruct (decide (0 ≤ ftell f < LONG_MAX)) as [Hsize|Hsize].
      2:{ rewrite (main_no_size _ _ _ _ _ path f) in Hm; [done..|lia]. }
      destruct (malloc os (Z.to_nat (ftell f + 1))) as [block|] eqn:Hb.
      2:{ by rewrite (main_no_block _ _ _ _ _ path f) in Hm. }
      apply (Hfile path f block) in Hrun as (st' & Hrun & ->); try done.
      by exists path, f, block, st'.
    + intros [(Hlen & -> & ->)|(Hlen & path & f & block & st' & Hp & Hf &
                                 Hsize & Hb & Hrun & ->)].
      * split; [done|]. exists 0%nat. by apply main_usage.
      * apply (Hfile path f block); try done. by exists st'.
  - intros path f block ret w' Hlen Hpath Hf Hwhole Hmax Hb.
    rewrite <- (codes_read_whole f block Hwhole).
    apply (Hfile path f block); try done. lia.
  - intros path f Hlen Hpath Hf [Hneg|Hnull] fuel.
    + apply (main_no_size _ _ _ _ _ path f); try done. by left.
    + by apply (main_no_block _ _ _ _ _ path f).
Qed.

Lemma main_returns_witness :
  length ["bf"; "echo.b"]%string = 2%nat ∧
  fopen (host_with "echo.b" (script ",.")) "echo.b"
  = Some (Stream 2 (script ",.")) ∧
  main_gives true (host_with "echo.b" (script ",.")) ["bf"; "echo.b"]%string
    (Stdio [72; 73] []) (Exited 0 (Stdio [73] [72])) ∧
  ∃ st', block_gives true std_hooks (script ",.")
           (init_store (Stdio [72; 73] [])) (Returned 0 st') ∧
         Stdio [73] [72] = world st'.
Proof.
  assert (Hrun : main_gives true (host_with "echo.b" (script ",."))
                   ["bf"; "echo.b"]%string (Stdio [72; 73] [])
                   (Exited 0 (Stdio [73] [72]))).
  { split; [discriminate|]. exists 10%nat. vm_compute. reflexivity. }
  split; [reflexivity|]. split; [reflexivity|]. split; [exact Hrun|].
  apply (proj1 (proj1 (proj2 (main_returns true
                                (host_with "echo.b" (script ",."))
                                ["bf"; "echo.b"]%string (Stdio [72; 73] []))
                         ) "echo.b"%string (Stream 2 (script ",."))
                  (λ _, "000"%char) 0 (Stdio [73] [72])
                  eq_refl eq_refl eq_refl eq_refl eq_refl eq_refl)).
  exact Hrun.
Defined.

(** X13. The statuses of [main]: it returns no status other than -1, 0,
    -2, -3 and -4, and -1 only for a wrong number of arguments, the engine
    never returning -1. When the one argument names a file that cannot be
    opened, [main] returns no status at all: the code prints its message
    and goes on with the null stream. *)
Theorem main_statuses (char_signed : bool) (os : host)
  (argv : list string) (w : stdio) :
  (∀ ret w', main_gives char_signed os argv w (Exited ret w') →
             (ret = -1 ∨ status_known ret) ∧
             (ret = -1 ↔ length argv ≠ 2%nat)) ∧
  (∀ path, length argv = 2%nat → argv !! 1%nat = Some path →
           fopen os path = None →
           ∀ fuel, main char_signed fuel os argv w = ExitUndefined).
Proof.
  split.
  - intros ret w' [_ [fuel Hm]].
    destruct (decide (length argv = 2%nat)) as [Hlen|Hlen].
    + unfold main in Hm. rewrite (proj2 (Nat.eqb_eq _ _) Hlen) in Hm.
      simpl in Hm.
      destruct (argv !! 1%nat) as [path|]; [|done].
      destruct (fopen os path) as [f|]; [|done].
      destruct (_ || _); [done|].
      destruct (malloc os _) as [block|]; [|done].
      unfold do_brainfuck in Hm.
      destruct (_ <? _)%nat; [done|].
      destruct (do_brainfuck_block _ _ fuel _ _) as [r st'| |] eqn:Hb;
        [|done|done].
      injection Hm as <- <-.
      pose proof (block_status _ _ _ _ _ _ _ Hb) as Hs.
      split; [by right|]. split; [|done].
      intros ->. destruct Hs as [?|[?|[?|?]]]; lia.
    + rewrite main_usage in Hm by done. injection Hm as <- <-.
      split; [by left|done].
  - intros path Hlen Hpath Hfile fuel.
    by apply (main_no_file _ _ _ _ _ path).
Qed.

Lemma main_statuses_witness :
  length ["bf"; "missing.b"]%string = 2%nat ∧
  ["bf"; "missing.b"]%string !! 1%nat = Some "missing.b"%string ∧
  fopen (host_with "echo.b" (script ",.")) "missing.b" = None ∧
  ∀ fuel, main true fuel (host_with "echo.b" (script ",."))
            ["bf"; "missing.b"]%string (Stdio [] [])
          = ExitUndefined.
Proof.
  split; [reflexivity|]. split; [reflexivity|]. split; [reflexivity|].
  exact (proj2 (main_statuses true (host_with "echo.b" (script ",."))
                  ["bf"; "missing.b"]%string (Stdio [] []))
           "missing.b"%string eq_refl eq_refl eq_refl).
Defined.

(** X14. With [getchar], [,] takes the next byte from standard input into
    the current cell; at the end of the input it stores 255, the byte of
    [EOF], and does so again each time: a cell read at the end of the
    input is never 0. *)
Theorem comma_reads_stdin (char_signed : bool) (st : store stdio) (v : Z) :
  load st = Some v →
  (∀ b bs, stdin (world st) = b :: bs → 0 ≤ b < 256 →
     block_gives char_signed std_hooks (script ",") st
       (Returned 0
          (set_cell b (set_world (Stdio bs (stdout (world st))) st)))) ∧
  (stdin (world st) = [] →
     block_gives char_signed std_hooks (script ",") st
       (Returned 0 (set_cell 255 st)) ∧
     load (set_cell 255 st) = Some 255 ∧
     stdin (world (set_cell 255 st)) = []).
Proof.
  intros Hl.
  assert (Hstep : ∀ c w, input std_hooks (world st) = (c, w) →
    block_gives char_signed std_hooks (script ",") st
      (Returned 0 (set_cell (to_byte c) (set_world w st)))).
  { intros c w Hin. apply block_gives_scan.
    apply (scan_gives_simple _ _ _ _ _ ","%char
             (set_cell (to_byte c) (set_world w st)));
      [done|done|by apply (simple_comma _ _ _ v)|].
    by apply scan_gives_end. }
  split.
  - intros b bs Hin Hb.
    specialize (Hstep b (Stdio bs (stdout (world st)))).
    replace (to_byte b) with b in Hstep
      by (unfold to_byte; rewrite Z.mod_small; lia).
    apply Hstep. unfold input, std_hooks, getchar. by rewrite Hin.
  - intros Hin. split; [|split].
    + specialize (Hstep EOF (world st)).
      replace (set_world (world st) st) with st in Hstep by by destruct st.
      apply Hstep. unfold input, std_hooks, getchar. by rewrite Hin.
    + by apply (load_set_cell _ v).
    + done.
Qed.

Lemma comma_reads_stdin_witness :
  load (init_store (Stdio [] [])) = Some 0 ∧
  stdin (world (init_store (Stdio [] []))) = [] ∧
  block_gives true std_hooks (script ",") (init_store (Stdio [] []))
    (Returned 0 (set_cell 255 (init_store (Stdio [] [])))).
Proof.
  split; [apply load_init|]. split; [reflexivity|].
  exact (proj1 (proj2 (comma_reads_stdin true (init_store (Stdio [] [])) 0
                         (load_init _)) eq_refl)).
Defined.

(** X15. Whitespace (space, tab, carriage return, line feed, vertical tab
    and form feed) has no meaning anywhere in a block, inside loops and in
    skipped loop bodies too: two blocks that are equal once their
    whitespace is taken out end with the same outcome, status and store,
    from every store, and one runs for ever exactly when the other does. *)
Theorem whitespace_is_ignored {W : Type} (char_signed : bool)
  (brainfuck : brainfuck_t W) (code code' : list ascii) (st : store W) :
  strip code = strip code' →
  (∀ o, block_gives char_signed brainfuck code st o
        ↔ block_gives char_signed brainfuck code' st o) ∧
  (∀ o, block_gives char_signed brainfuck code st o
        ↔ block_gives char_signed brainfuck (strip code) st o).
Proof.
  assert (H : ∀ b b' o, strip b = strip b' →
    block_gives char_signed brainfuck b st o →
    block_gives char_signed brainfuck b' st o).
  { intros b b' o Hs [Ho [e He]].
    by apply (block_strip char_signed brainfuck e b b' st o). }
  intros Hs. split; intros o; split; apply H; try done.
  - by rewrite strip_strip.
  - by rewrite strip_strip.
Qed.

Lemma whitespace_is_ignored_witness :
  strip (script "+ [ - ]" ++ "010"%char :: script " .")
  = strip (script "+[-].") ∧
  ∀ o, block_gives true std_hooks
         (script "+ [ - ]" ++ "010"%char :: script " .")
         (init_store (Stdio [] [])) o
       ↔ block_gives true std_hooks (script "+[-].")
           (init_store (Stdio [] [])) o.
Proof.
  split; [reflexivity|].
  exact (proj1 (whitespace_is_ignored true std_hooks
                  (script "+ [ - ]" ++ "010"%char :: script " .")
                  (script "+[-].")
                  (init_store (Stdio [] [])) eq_refl)).
Defined.

(** X16. With [getchar] and [putchar], what a run returns and leaves does
    not depend on whether [char] is signed: [putchar] converts what it is
    given to [unsigned char], the test of a loop compares with 0, and [++]
    and [--] wrap around. The status, the tape, the pointer, and standard
    input and output after [do_brainfuck], and the status and the two
    streams after [main], are the same for a signed and for an unsigned
    [char], fuel for fuel. The messages on [stderr] are left out of this:
    the one for an illegal character prints it as an [int]. *)
Theorem stdio_run_ignores_char_signedness (char_signed : bool)
  (fuel : nat) :
  (∀ code n w,
     do_brainfuck char_signed fuel code n w
     = do_brainfuck false fuel code n w) ∧
  (∀ os argv w,
     main char_signed fuel os argv w = main false fuel os argv w).
Proof.
  assert (H : ∀ code n w,
     do_brainfuck char_signed fuel code n w
     = do_brainfuck false fuel code n w).
  { intros code n w. unfold do_brainfuck.
    destruct (length code <? n)%nat; [done|].
    apply block_signed, bytes_ok_init. }
  split; [exact H|].
  intros os argv w. unfold main.
  destruct (negb _); [done|].
  destruct (argv !! 1%nat) as [path|]; [|done].
  destruct (fopen os path) as [f|]; [|done].
  destruct (_ || _); [done|].
  destruct (malloc os _) as [block|]; [|done].
  by rewrite H.
Qed.

(** X17. A well-formed script never fails: a block of instruction and
    whitespace characters only never returns -4, and when its brackets
    are balanced as well, every run that returns, returns 0. *)
Theorem well_formed_block_returns_0 {W : Type} (char_signed : bool)
  (brainfuck : brainfuck_t W) (code : list ascii) (st : store W)
  (ret : Z) (st' : store W) :
  Forall (λ c, c ∈ instruction_chars ∨ c ∈ whitespace_chars) code →
  block_gives char_signed brainfuck code st (Returned ret st') →
  ret ≠ -4 ∧
  (Z.of_nat (length code) ≤ SIZE_MAX → balanced code → ret = 0).
Proof.
  intros Hlegal [_ [f Hf]].
  assert (H4 : ret ≠ -4).
  { eapply block_legal; [|exact Hf]. by apply uses_only_legal. }
  split; [done|]. intros Hmax Hbal.
  by destruct (block_balanced _ _ _ _ _ _ _ Hmax Hbal Hf).
Qed.

Lemma well_formed_block_returns_0_witness :
  Forall (λ c, c ∈ instruction_chars ∨ c ∈ whitespace_chars) (script "+-") ∧
  block_gives true std_hooks (script "+-") (init_store (Stdio [] []))
    (Returned 0 (init_store (Stdio [] []))) ∧
  Z.of_nat (length (script "+-")) ≤ SIZE_MAX ∧ balanced (script "+-") ∧
  0 ≠ -4 ∧ 0 = 0.
Proof.
  assert (H1 : Forall (λ c, c ∈ instruction_chars ∨ c ∈ whitespace_chars)
                 (script "+-")).
  { repeat constructor;
      left; apply (bool_decide_unpack _); vm_compute; exact I. }
  assert (H2 : block_gives true std_hooks (script "+-")
                 (init_store (Stdio [] []))
                 (Returned 0 (init_store (Stdio [] []))))
    by (apply (block_gives_plus_minus _ _ _ 0); [apply load_init|lia]).
  assert (H3 : Z.of_nat (length (script "+-")) ≤ SIZE_MAX)
    by (vm_compute; discriminate).
  assert (H4 : balanced (script "+-")) by (by apply depth_ok_balanced).
  split; [exact H1|]. split; [exact H2|]. split; [exact H3|].
  split; [exact H4|].
  destruct (well_formed_block_returns_0 true std_hooks _ _ _ _ H1 H2)
    as [Hne Hz].
  split; [exact Hne|exact (Hz H3 H4)].
Defined.

(** X18. Where the pointer ends: in a block of instructions, whitespace
    and loops whose bodies are balanced and have as many [>] as [<] (the
    bodies being such blocks themselves), every loop leaves the pointer
    where it found it, however often it runs. Every run that returns,
    returns 0, with the pointer moved by the number of [>] less the number
    of [<] in the block; after [do_brainfuck] it is at that offset in
    [mem]. *)
Theorem neutral_loops_pointer (char_signed : bool) (code : list ascii) :
  Z.of_nat (length code) ≤ SIZE_MAX → neutral code →
  (∀ (W : Type) (brainfuck : brainfuck_t W) (st : store W) ret st',
     block_gives char_signed brainfuck code st (Returned ret st') →
     ret = 0 ∧ the_pointer st' = the_pointer st + net_moves code) ∧
  (∀ w ret st',
     do_brainfuck_gives char_signed code (length code) w (Returned ret st') →
     ret = 0 ∧ the_pointer st' = net_moves code).
Proof.
  intros Hmax Hn.
  assert (Hgen : ∀ (W : Type) (brainfuck : brainfuck_t W) (st : store W)
                   ret st',
     block_gives char_signed brainfuck code st (Returned ret st') →
     ret = 0 ∧ the_pointer st' = the_pointer st + net_moves code).
  { intros W brainfuck. revert Hmax.
    induction Hn as [|c rest Hc _ IH|body rest Hbal _ IHb Hz _ IHr];
      intros Hmax st ret st' Hrun.
    - apply block_gives_scan in Hrun.
      apply scan_gives_end in Hrun; [|done].
      inversion Hrun; subst. simpl. split; [done|lia].
    - apply block_gives_cons in Hrun; [|done].
      destruct (simple_instr char_signed brainfuck (classify c) st)
        as [st1|] eqn:Hi; [|done].
      destruct (IH ltac:(simpl in Hmax; lia) st1 ret st') as [-> Hp]; [done|].
      split; [done|]. rewrite Hp, (simple_instr_moves _ _ _ _ _ Hi). simpl.
      fold (net_moves rest). lia.
    - pose proof (length_loop_of body rest) as Hlen.
      apply block_gives_loop_of in Hrun as (r & Hr & Ha); [|done|done].
      rewrite net_moves_loop_of, Hz.
      apply loop_gives_pointer in Hr.
      2:{ intros s ret' s' Hb.
          destruct (IHb ltac:(lia) s ret' s') as [-> Hp]; [done|].
          split; [done|lia]. }
      destruct r as [s|o'].
      + destruct (IHr ltac:(lia) s ret st') as [-> Hp]; [done|].
        split; [done|lia].
      + by subst o'. }
  split; [exact Hgen|].
  intros w ret st' Hrun.
  apply do_brainfuck_gives_block in Hrun; [|done].
  rewrite take_ge in Hrun by done.
  by apply Hgen in Hrun.
Qed.

Lemma neutral_loops_pointer_witness :
  Z.of_nat (length (script "[->+<]>")) ≤ SIZE_MAX ∧
  neutral (script "[->+<]>") ∧
  block_gives true std_hooks (script "[->+<]>")
    (Store [2; 0] 0 (Stdio [] [])) (Returned 0 (Store [0; 2] 1 (Stdio [] [])))
  ∧ the_pointer (Store [0; 2] 1 (Stdio [] []))
    = the_pointer (Store [2; 0] 0 (Stdio [] []))
      + net_moves (script "[->+<]>").
Proof.
  assert (H1 : Z.of_nat (length (script "[->+<]>")) ≤ SIZE_MAX)
    by (vm_compute; discriminate).
  assert (H2 : neutral (script "[->+<]>")).
  { apply (neutral_loop (script "->+<") (script ">")).
    - by apply depth_ok_balanced.
    - repeat (apply neutral_instr; [reflexivity|]). apply neutral_end.
    - reflexivity.
    - apply neutral_instr; [reflexivity|apply neutral_end]. }
  assert (H3 : block_gives true std_hooks (script "[->+<]>")
                 (Store [2; 0] 0 (Stdio [] []))
                 (Returned 0 (Store [0; 2] 1 (Stdio [] [])))).
  { split; [discriminate|]. exists 10%nat. vm_compute. reflexivity. }
  split; [exact H1|]. split; [exact H2|]. split; [exact H3|].
  exact (proj2 (proj1 (neutral_loops_pointer true _ H1 H2)
                  stdio std_hooks _ _ _ H3)).
Defined.

(** X19. A criterion for runs without undefined behaviour: in a block of
    instructions, whitespace and loops whose bodies are balanced and have
    as many [>] as [<], the pointer is, at each character, where the [>]
    and [<] in front of it in the text put it. When these offsets all lie
    inside the tape, no run accesses a cell outside it: every run that
    ends returns 0. For [do_brainfuck] the offsets are counted from 0 in
    a tape of [MAX_BRAINFUCK] cells. *)
Theorem neutral_block_is_safe (char_signed : bool) (code : list ascii) :
  Z.of_nat (length code) ≤ SIZE_MAX → neutral code →
  (∀ (W : Type) (brainfuck : brainfuck_t W) (st : store W) o,
     moves_within (Z.of_nat (length (mem st))) (the_pointer st) code = true →
     block_gives char_signed brainfuck code st o →
     ∃ st', o = Returned 0 st' ∧
            length (mem st') = length (mem st) ∧
            the_pointer st' = the_pointer st + net_moves code) ∧
  (∀ w o,
     moves_within MAX_BRAINFUCK 0 code = true →
     do_brainfuck_gives char_signed code (length code) w o →
     ∃ st', o = Returned 0 st').
Proof.
  intros Hmax Hn.
  assert (Hgen : ∀ (W : Type) (brainfuck : brainfuck_t W) (st : store W) o,
     moves_within (Z.of_nat (length (mem st))) (the_pointer st) code = true →
     block_gives char_signed brainfuck code st o →
     ∃ st', o = Returned 0 st' ∧
            length (mem st') = length (mem st) ∧
            the_pointer st' = the_pointer st + net_moves code).
  { intros W brainfuck. revert Hmax.
    induction Hn as [|c rest Hc _ IH|body rest Hbal _ IHb Hz _ IHr];
      intros Hmax st o Hin Hrun.
    - apply block_gives_scan in Hrun.
      apply scan_gives_end in Hrun; [|done].
      exists st. split; [done|]. split; [done|]. simpl. lia.
    - apply block_gives_cons in Hrun; [|done].
      pose proof (moves_within_here _ _ _ Hin) as Hp.
      pose proof (simple_instr_in_range char_signed brainfuck (classify c)
                    st Hp) as Hdef.
      destruct (simple_instr char_signed brainfuck (classify c) st)
        as [st1|] eqn:Hi; [|done].
      destruct (simple_instr_shape _ _ _ _ _ Hi) as [Hlen _].
      pose proof (simple_instr_moves _ _ _ _ _ Hi) as Hmove.
      apply moves_within_cons in Hin.
      destruct (IH ltac:(simpl in Hmax; lia) st1 o) as (st' & -> & Hl & Hq);
        [by rewrite Hlen, Hmove|done|].
      exists st'. split; [done|]. split; [congruence|].
      rewrite Hq, Hmove. simpl. fold (net_moves rest). lia.
    - pose proof (length_loop_of body rest) as Hlen.
      apply block_gives_loop_of in Hrun as (r & Hr & Ha); [|done|done].
      apply moves_within_loop_of in Hin as [Hin1 Hin2].
      rewrite Hz, Z.add_0_r in Hin2.
      apply (loop_gives_exits _ _
               (λ s, length (mem s) = length (mem st) ∧
                     the_pointer s = the_pointer st)) in Hr.
      + destruct Hr as (s & -> & Hl & Hq).
        destruct (IHr ltac:(lia) s o) as (st' & -> & Hl' & Hq');
          [by rewrite Hl, Hq|done|].
        exists st'. split; [done|]. split; [congruence|].
        rewrite net_moves_loop_of, Hz, Hq', Hq. lia.
      + intros s [Hl Hq] Hnone. apply load_None in Hnone. apply Hnone.
        rewrite Hl, Hq. by eapply moves_within_here.
      + intros s o' [Hl Hq] Hb.
        destruct (IHb ltac:(lia) s o') as (s' & -> & Hl' & Hq');
          [by rewrite Hl, Hq|done|].
        exists s'. split; [done|]. split; [congruence|].
        rewrite Hq', Hz. lia.
      + done. }
  split; [exact Hgen|].
  intros w o Hin Hrun.
  apply do_brainfuck_gives_block in Hrun; [|done].
  rewrite take_ge in Hrun by done.
  destruct (Hgen stdio std_hooks (init_store w) o) as (st' & -> & _);
    [|done|by exists st'].
  by rewrite length_mem_init.
Qed.

Lemma neutral_block_is_safe_witness :
  Z.of_nat (length (script "+[->+<]>.")) ≤ SIZE_MAX ∧
  neutral (script "+[->+<]>.") ∧
  moves_within 2 0 (script "+[->+<]>.") = true ∧
  block_gives true std_hooks (script "+[->+<]>.")
    (Store [0; 0] 0 (Stdio [] []))
    (Returned 0 (Store [0; 1] 1 (Stdio [] [1]))) ∧
  ∃ st', Returned 0 (Store [0; 1] 1 (Stdio [] [1])) = Returned 0 st' ∧
         length (mem st') = 2%nat ∧
         the_pointer st' = 0 + net_moves (script "+[->+<]>.").
Proof.
  assert (H1 : Z.of_nat (length (script "+[->+<]>.")) ≤ SIZE_MAX)
    by (vm_compute; discriminate).
  assert (H2 : neutral (script "+[->+<]>.")).
  { apply neutral_instr; [reflexivity|].
    apply (neutral_loop (script "->+<") (script ">.")).
    - by apply depth_ok_balanced.
    - repeat (apply neutral_instr; [reflexivity|]). apply neutral_end.
    - reflexivity.
    - repeat (apply neutral_instr; [reflexivity|]). apply neutral_end. }
  assert (H3 : moves_within 2 0 (script "+[->+<]>.") = true)
    by reflexivity.
  assert (H4 : block_gives true std_hooks (script "+[->+<]>.")
                 (Store [0; 0] 0 (Stdio [] []))
                 (Returned 0 (Store [0; 1] 1 (Stdio [] [1])))).
  { split; [discriminate|]. exists 10%nat. vm_compute. reflexivity. }
  split; [exact H1|]. split; [exact H2|]. split; [exact H3|].
  split; [exact H4|].
  exact (proj1 (neutral_block_is_safe true _ H1 H2) stdio std_hooks
           (Store [0; 0] 0 (Stdio [] [])) _ H3 H4).
Defined.

(** * Runs of small scripts *)

Example run_hello :
  written (do_brainfuck true 1000 (script "++++++++[>++++++++<-]>+.+.") 26
             (Stdio [] [])) = Some [65; 66].
Proof. vm_compute. reflexivity. Qed.

Example loop_span_nested : loop_span (script "[+[-]]+") 0 = Some 5%nat.
Proof. reflexivity. Qed.

Example loop_span_open : loop_span (script "[+[-]") 0 = None.
Proof. reflexivity. Qed.

Example run_multiply :
  window 2 (do_brainfuck true 100 (script "++[>++<-]") 9 (Stdio [] []))
  = Some ([0; 4], 0).
Proof. vm_compute. reflexivity. Qed.

Example run_echo :
  written (do_brainfuck false 10 (script ",.") 2 (Stdio [200] [])) = Some [200].
Proof. vm_compute. reflexivity. Qed.

Example run_echo_eof :
  written (do_brainfuck true 10 (script ",.") 2 (Stdio [] [])) = Some [255].
Proof. vm_compute. reflexivity. Qed.

Example run_blank :
  status (do_brainfuck true 10 (script "  ") 2 (Stdio [1] [])) = Some 0
  ∧ written (do_brainfuck true 10 (script "  ") 2 (Stdio [1] [])) = Some [].
Proof. vm_compute. split; reflexivity. Qed.

Example run_unmatched_open :
  status (do_brainfuck true 10 (script "[+") 2 (Stdio [] [])) = Some (-2).
Proof. vm_compute. reflexivity. Qed.

Example run_unmatched_close :
  status (do_brainfuck true 10 (script "+].") 3 (Stdio [] [])) = Some (-3)
  ∧ written (do_brainfuck true 10 (script "+].") 3 (Stdio [] [])) = Some [].
Proof. vm_compute. split; reflexivity. Qed.

Example run_illegal :
  status (do_brainfuck true 10 (script "+@.") 3 (Stdio [] [])) = Some (-4)
  ∧ written (do_brainfuck true 10 (script "+@.") 3 (Stdio [] [])) = Some [].
Proof. vm_compute. split; reflexivity. Qed.

Example run_nested_abort :
  status (do_brainfuck true 10 (script "+[>+[@]].") 9 (Stdio [] []))
  = Some (-4).
Proof. vm_compute. reflexivity. Qed.

Example run_skipped_body :
  status (do_brainfuck true 10 (script "[[@]]") 5 (Stdio [] [])) = Some 0.
Proof. vm_compute. reflexivity. Qed.

Example run_wrap :
  window 1 (do_brainfuck true 10 (script "-") 1 (Stdio [] []))
  = Some ([255], 0).
Proof. vm_compute. reflexivity. Qed.

Example run_left_of_tape :
  window 0 (do_brainfuck true 10 (script "<") 1 (Stdio [] [])) = Some ([], -1)
  ∧ do_brainfuck true 10 (script "<+") 2 (Stdio [] []) = Undefined.
Proof. vm_compute. split; reflexivity. Qed.

Example run_forever :
  do_brainfuck true 1000 (script "+[]") 3 (Stdio [] []) = OutOfFuel.
Proof. vm_compute. reflexivity. Qed.

(** [main] without a file name, on a file that echoes one byte, on a
    missing file, and on a stream that [ftell] cannot size. *)
Example run_main_usage :
  main true 0 (host_with "echo.b" (script ",.")) ["bf"]%string (Stdio [] [])
  = Exited (-1) (Stdio [] []).
Proof. reflexivity. Qed.

Example run_main_echo :
  main true 100 (host_with "echo.b" (script ",.")) ["bf"; "echo.b"]%string
    (Stdio [72; 73] [])
  = Exited 0 (Stdio [73] [72]).
Proof. vm_compute. reflexivity. Qed.

Example run_main_missing_file :
  main true 100 (host_with "echo.b" (script ",.")) ["bf"; "none.b"]%string
    (Stdio [] [])
  = ExitUndefined.
Proof. reflexivity. Qed.

Example run_main_pipe :
  main true 100
    (Host (λ _, Some (Stream (-1) (script "+++."))) (λ _, Some (λ _, "@"%char)))
    ["bf"; "fifo"]%string (Stdio [] [])
  = ExitUndefined.
Proof. reflexivity. Qed.

Example run_main_short_read :
  main true 100
    (Host (λ _, Some (Stream 3 (script "+."))) (λ _, Some (λ _, "@"%char)))
    ["bf"; "short.b"]%string (Stdio [] [])
  = Exited (-4) (Stdio [] [1]).
Proof. vm_compute. reflexivity. Qed.
